(** * foolaunch: configuration resolution, block-device layout and launch

    A shallow embedding of [foolaunch.py] and of the package's
    [foolaunch/__init__.py].

    Conventions of the embedding:
    - a Python value decoded from JSON is a [json]; a Python [dict] decoded
      from a JSON object is the list of its items, in iteration order, and a
      well-formed one has pairwise distinct keys;
    - [total], the object attributes, the static tables and boto's
      [BlockDeviceMapping] are finite maps;
    - a computation that may raise, or recurse or loop for ever, returns a
      [res]; recursion and polling are bounded by a fuel argument and
      [Diverge] is the answer when the fuel runs out;
    - the EC2/VPC/ELB endpoints are a record of transition functions over an
      abstract world, and every request made to them is appended to a trace;
    - [print] statements are not modelled. *)

From Stdlib Require Import ZArith PrimFloat DecimalString.
From stdpp Require Import gmap strings list fin_maps relations.

#[local] Set Warnings "-register-all".
#[local] Open Scope string_scope.
#[local] Open Scope list_scope.
#[local] Open Scope stdpp_scope.

(** ** Python values *)

Inductive json : Type :=
| JNull
| JBool (b : bool)
| JInt (z : Z)
| JFloat (f : float)
| JStr (s : string)
| JList (l : list json)
| JDict (items : list (string * json)).

(** Python truth value of an object ([if x:]). *)
Definition truthy (v : json) : bool :=
  match v with
  | JNull => false
  | JBool b => b
  | JInt z => negb (Z.eqb z 0)
  | JFloat f => negb (PrimFloat.eqb f 0%float)
  | JStr s => negb (String.eqb s "")
  | JList l => match l with [] => false | _ => true end
  | JDict d => match d with [] => false | _ => true end
  end.

(** [d[k]] and [k in d] on the items of a dict. *)
Fixpoint dict_get (k : string) (items : list (string * json)) : option json :=
  match items with
  | [] => None
  | (k', v) :: rest => if decide (k' = k) then Some v else dict_get k rest
  end.

(** ** Exceptions and results *)

Inductive exn : Type :=
| ValueError_not_found (label : json)          (* "configuration {} not found" *)
| ValueError_not_a_dict (label : json)         (* "configuration {} not a dict" *)
| ValueError_not_a_list (label : json)         (* "configuration {} default (*) not a list" *)
| ValueError_invalid_key (k : string) (label : json) (* "invalid key {} in configuration {}" *)
| ValueError_too_many_subnets                  (* "too many matching subnets" *)
| ValueError_decode                            (* raised by the JSON decoder *)
| RuntimeError_image                           (* "cannot find exactly one image" *)
| KeyError (k : json)
| KeyError_pair (k1 : json) (k2 : string)      (* a missing tuple key *)
| IndexError
| TypeError_unhashable
| TypeError_not_iterable
| AttributeError (name : string)
| CloudError (msg : string).                   (* raised by boto *)

(** The kinds of configuration error the specification names. *)
Inductive error_kind : Type :=
| UnknownProfile | InvalidProfileShape | InvalidIncludeList | UnknownOption
| OtherError.

Inductive res (A : Type) : Type :=
| Ret (a : A)
| Raise (e : exn)
| Diverge.
Arguments Ret {A} a.
Arguments Raise {A} e.
Arguments Diverge {A}.

Definition is_diverge {A} (r : res A) : bool :=
  match r with
  | Diverge => true
  | _ => false
  end.

(** ** State and exceptions *)

Definition M (St A : Type) : Type := St -> St * res A.

Definition ret {St A} (a : A) : M St A := fun s => (s, Ret a).
Definition raise {St A} (e : exn) : M St A := fun s => (s, Raise e).
Definition diverge {St A} : M St A := fun s => (s, Diverge).
Definition lift {St A} (r : res A) : M St A := fun s => (s, r).
Definition get {St} : M St St := fun s => (s, Ret s).
Definition modify {St} (f : St -> St) : M St unit := fun s => (f s, Ret tt).

Definition bind {St A B} (m : M St A) (k : A -> M St B) : M St B :=
  fun s =>
    match m s with
    | (s', Ret a) => k a s'
    | (s', Raise e) => (s', Raise e)
    | (s', Diverge) => (s', Diverge)
    end.

Notation "'let!' x ':=' m 'in' k" := (bind m (fun x => k))
  (at level 10, x pattern, m at level 100, k at level 200).
Notation "m '>>' k" := (bind m (fun _ => k))
  (at level 90, right associativity).

(** [for x in l: body(x)] *)
Fixpoint for_each {St A} (l : list A) (body : A -> M St unit) : M St unit :=
  match l with
  | [] => ret tt
  | x :: rest => body x >> for_each rest body
  end.

(** ** Configuration resolution: [Session.apply] and [Session._apply] *)

Definition _VALID_KEYS : gset string :=
  list_to_set
    [ "profile"; "region"; "image"; "instance_type"; "placement"; "subnet";
      "key"; "instance_profile"; "security_groups"; "tags";
      "root_volume_size"; "load_balancers"; "user_data_b64"; "spot"; "name";
      "count"; "price"; "*" ].

(** [if label not in self._configurations: raise ValueError(...)] followed by
    [self._configurations[label]].  Only a string can equal a key of a decoded
    JSON object; a list or a dict cannot be hashed. *)
Definition lookup_label (doc : list (string * json)) (label : json) : res json :=
  match label with
  | JStr s =>
      match dict_get s doc with
      | Some configuration => Ret configuration
      | None => Raise (ValueError_not_found label)
      end
  | JList _ | JDict _ => Raise TypeError_unhashable
  | _ => Raise (ValueError_not_found label)
  end.

(** The final loop of [_apply]: [for k, v in configuration.iteritems()]. *)
Fixpoint overlay (label : json) (items : list (string * json))
  : M (gmap string json) unit :=
  match items with
  | [] => ret tt
  | (k, v) :: rest =>
      if decide (k = "*") then overlay label rest
      else if decide (k ∈ _VALID_KEYS)
           then modify (fun total => <[k := v]> total) >> overlay label rest
           else raise (ValueError_invalid_key k label)
  end.

Fixpoint _apply (doc : list (string * json)) (fuel : nat) (label : json)
  : M (gmap string json) unit :=
  match fuel with
  | 0 => diverge
  | S fuel' =>
      let! configuration := lift (lookup_label doc label) in
      match configuration with
      | JDict items =>
          match dict_get "*" items with
          | Some (JList includes) => for_each includes (_apply doc fuel')
          | Some _ => raise (ValueError_not_a_list label)
          | None => ret tt
          end >>
          overlay label items
      | _ => raise (ValueError_not_a_dict label)
      end
  end.

Record Session : Type := mkSession {
  _configurations : list (string * json);
  attrs : gmap string json
}.

Definition setattr (k : string) (v : json) : M Session unit :=
  modify (fun self => mkSession (_configurations self) (<[k := v]> (attrs self))).

(** [total = {}; self._apply(label, total)]: the dict is local to the call. *)
Definition with_fresh_dict {St} (m : M (gmap string json) unit)
  : M St (gmap string json) :=
  fun s =>
    match m ∅ with
    | (total, Ret _) => (s, Ret total)
    | (_, Raise e) => (s, Raise e)
    | (_, Diverge) => (s, Diverge)
    end.

Definition apply (fuel : nat) (label : json) : M Session unit :=
  let! self := get in
  let! _ := lift (lookup_label (_configurations self) label) in
  let! total := with_fresh_dict (_apply (_configurations self) fuel label) in
  for_each (map_to_list total) (fun kv => setattr kv.1 kv.2).

(** The resolver of the specification, [resolve(document, profileName)]:
    what [_apply] leaves in a dict that was empty. *)
Definition resolve (doc : list (string * json)) (fuel : nat) (label : json)
  : res (gmap string json) :=
  match _apply doc fuel label ∅ with
  | (total, Ret _) => Ret total
  | (_, Raise e) => Raise e
  | (_, Diverge) => Diverge
  end.

(** The kind of a configuration error, by its message. *)
Definition classify (e : exn) : error_kind :=
  match e with
  | ValueError_not_found _ => UnknownProfile
  | ValueError_not_a_dict _ => InvalidProfileShape
  | ValueError_not_a_list _ => InvalidIncludeList
  | ValueError_invalid_key _ _ => UnknownOption
  | _ => OtherError
  end.

(** *** The resolver as the specification words it

    Every include is resolved on its own, from an empty accumulator, and its
    result is merged into the accumulator of the including profile, a later
    include over an earlier one; then the profile's own keys are laid over
    the merged includes.  [_apply] instead hands the one dict [total] down
    the recursion and writes into it. *)

(** The own keys of a profile laid over [acc]; a key other than ["*"] that
    is not an option is an error. *)
Fixpoint own_options (label : json) (items : list (string * json))
  (acc : gmap string json) : res (gmap string json) :=
  match items with
  | [] => Ret acc
  | (k, v) :: rest =>
      if decide (k = "*") then own_options label rest acc
      else if decide (k ∈ _VALID_KEYS) then own_options label rest (<[k := v]> acc)
      else Raise (ValueError_invalid_key k label)
  end.

(** The results of the includes, in list order, merged into [acc]. *)
Fixpoint merge_includes (resolve_one : json -> res (gmap string json))
  (includes : list json) (acc : gmap string json) : res (gmap string json) :=
  match includes with
  | [] => Ret acc
  | i :: rest =>
      match resolve_one i with
      | Ret r => merge_includes resolve_one rest (r ∪ acc)
      | Raise e => Raise e
      | Diverge => Diverge
      end
  end.

(** [resolve(document, profileName)] of the specification. *)
Fixpoint resolve_spec (doc : list (string * json)) (fuel : nat) (label : json)
  : res (gmap string json) :=
  match fuel with
  | 0 => Diverge
  | S fuel' =>
      match lookup_label doc label with
      | Ret (JDict items) =>
          match
            match dict_get "*" items with
            | Some (JList includes) => merge_includes (resolve_spec doc fuel') includes ∅
            | Some _ => Raise (ValueError_not_a_list label)
            | None => Ret ∅
            end
          with
          | Ret merged => own_options label items merged
          | Raise e => Raise e
          | Diverge => Diverge
          end
      | Ret _ => Raise (ValueError_not_a_dict label)
      | Raise e => Raise e
      | Diverge => Diverge
      end
  end.

(** The include graph of a document: [includes doc p q] when the profile
    named by [p] is a dict whose ["*"] entry is a list that contains [q]. *)
Definition include_list (doc : list (string * json)) (label : json) : list json :=
  match lookup_label doc label with
  | Ret (JDict items) =>
      match dict_get "*" items with
      | Some (JList includes) => includes
      | _ => []
      end
  | _ => []
  end.

Definition includes (doc : list (string * json)) (p q : json) : Prop :=
  q ∈ include_list doc p.

(** [first_include doc p q]: [q] is the first entry of [p]'s include list. *)
Definition first_include (doc : list (string * json)) (p q : json) : Prop :=
  head (include_list doc p) = Some q.

(** ** Configuration files: [_load_configurations] and [load_configurations] *)

Section ConfigStore.

(** [open(os.path.expanduser(filename)).read()]: [None] when opening or
    reading raises. *)
Variable expanduser : string -> string.
Variable read_file : string -> option string.
(** [ujson.loads] and [cjson.decode]: [None] when the decoder raises. *)
Variable ujson_loads : string -> option json.
Variable cjson_decode : string -> option json.

Definition default_filenames : list string :=
  [ "./.foolaunch"; "~/.foolaunch"; "/etc/foolaunch" ].

Definition candidates (args : list string) : list string :=
  match args with
  | [] => default_filenames
  | _ => args ++ default_filenames
  end.

(** The loop of [foolaunch.py]: [body] is assigned by every candidate that
    can be read. *)
Fixpoint read_bodies (filenames : list string) (body : option string)
  : option string :=
  match filenames with
  | [] => body
  | filename :: rest =>
      match read_file (expanduser filename) with
      | Some b => read_bodies rest (Some b)
      | None => read_bodies rest body
      end
  end.

Definition _load_configurations (args : list string) : res json :=
  match read_bodies (candidates args) None with
  | Some body =>
      if String.eqb body "" then Ret (JDict [])
      else match ujson_loads body with
           | Some document => Ret document
           | None => Raise ValueError_decode
           end
  | None => Ret (JDict [])
  end.

(** The loop of [foolaunch/__init__.py]: the first candidate that is read and
    decoded is returned from inside the loop. *)
Fixpoint first_decoded (filenames : list string) : json :=
  match filenames with
  | [] => JDict []
  | filename :: rest =>
      match read_file (expanduser filename) with
      | Some body =>
          match cjson_decode body with
          | Some document => document
          | None => first_decoded rest
          end
      | None => first_decoded rest
      end
  end.

Definition load_configurations (args : list string) : json :=
  first_decoded (candidates args).

(** A candidate that is passed over by the loader of the package: it cannot
    be read, or its text cannot be decoded. *)
Definition skipped (filename : string) : Prop :=
  match read_file (expanduser filename) with
  | Some body => cjson_decode body = None
  | None => True
  end.

End ConfigStore.

(** ** Block devices: [_DEVICE_LETTER] and [_make_block_device_map] *)

Definition _EC2_INSTANCE_VOLUME_COUNT : gmap string nat :=
  list_to_map
    [ ("x1.16xlarge", 1); ("x1e.4xlarge", 1); ("x1e.16xlarge", 1);
      ("x1.32xlarge", 2); ("x1e.2xlarge", 1); ("d2.8xlarge", 24);
      ("d2.2xlarge", 6); ("d2.xlarge", 3); ("x1e.32xlarge", 2);
      ("d2.4xlarge", 12); ("x1e.8xlarge", 1); ("x1e.xlarge", 1);
      ("f1.4xlarge", 1); ("h1.8xlarge", 4); ("h1.16xlarge", 8);
      ("h1.4xlarge", 2); ("h1.2xlarge", 1) ]%nat.

(** [chr(ord('a') + i)] *)
Definition letter (i : nat) : string :=
  String (Ascii.ascii_of_nat (97 + i)) EmptyString.

Definition _DEVICE_LETTER : list string :=
  map letter (seq 1 25)
  ++ flat_map (fun i => map (fun j => letter i +:+ letter j) (seq 0 26)) (seq 0 26).

(** ["{}".format(i)] for a non-negative integer. *)
Definition format_nat (i : nat) : string :=
  NilZero.string_of_uint (Nat.to_uint i).

Record BlockDeviceType : Type := mkBlockDeviceType {
  size : json;                     (* [None] when not given *)
  ephemeral_name : option string
}.

Record Image : Type := mkImage {
  image_id : string;
  block_device_mapping : gmap string BlockDeviceType
}.

(** [d[key]] for a dict with string keys and an arbitrary Python key. *)
Definition getitem {V} (d : gmap string V) (key : json) : res V :=
  match key with
  | JStr s =>
      match d !! s with
      | Some v => Ret v
      | None => Raise (KeyError key)
      end
  | JList _ | JDict _ => Raise TypeError_unhashable
  | _ => Raise (KeyError key)
  end.

Section DeviceMapper.

(** Python's [!=] on two values. *)
Variable py_ne : json -> json -> bool.

Definition add_root_volume (image : Image) (root_volume_size : json)
  : M (gmap string BlockDeviceType) unit :=
  if truthy root_volume_size then
    let! root := lift (getitem (block_device_mapping image) (JStr "/dev/xvda")) in
    if py_ne (size root) root_volume_size
    then modify (fun m => <["/dev/xvda" := mkBlockDeviceType root_volume_size None]> m)
    else ret tt
  else ret tt.

Definition add_ephemeral (i : nat) : M (gmap string BlockDeviceType) unit :=
  match _DEVICE_LETTER !! i with
  | Some l =>
      modify (fun m =>
        <["/dev/sd" +:+ l := mkBlockDeviceType JNull (Some ("ephemeral" +:+ format_nat i))]> m)
  | None => raise IndexError
  end.

Definition make_block_device_map_body (image : Image) (instance_type : json)
  (root_volume_size : json)
  : M (gmap string BlockDeviceType) (option (gmap string BlockDeviceType)) :=
  add_root_volume image root_volume_size >>
  let! count := lift (getitem _EC2_INSTANCE_VOLUME_COUNT instance_type) in
  for_each (seq 0 count) add_ephemeral >>
  let! m := get in
  if decide (0 < base.size m)%nat then ret (Some m) else ret None.

(** The mapping object is local: the caller sees the returned value only. *)
Definition _make_block_device_map (image : Image) (instance_type : json)
  (root_volume_size : json) : res (option (gmap string BlockDeviceType)) :=
  (make_block_device_map_body image instance_type root_volume_size ∅).2.

(** The mapping after the root-device step. *)
Definition root_entry (image : Image) (root_volume_size : json)
  : gmap string BlockDeviceType :=
  if truthy root_volume_size then
    match block_device_mapping image !! "/dev/xvda" with
    | Some root =>
        if py_ne (size root) root_volume_size
        then {[ "/dev/xvda" := mkBlockDeviceType root_volume_size None ]}
        else ∅
    | None => ∅
    end
  else ∅.

End DeviceMapper.

(** The device path and the descriptor of ephemeral volume [i]. *)
Definition device_path (i : nat) : string :=
  "/dev/sd" +:+ default "" (_DEVICE_LETTER !! i).
Definition ephemeral (i : nat) : BlockDeviceType :=
  mkBlockDeviceType JNull (Some ("ephemeral" +:+ format_nat i)).

(** ** Launch: [Session.launch] *)

Record Subnet : Type := mkSubnet {
  subnet_id : string;
  subnet_tags : gmap string string
}.

Record SecurityGroup : Type := mkSecurityGroup { group_id : string }.

Record SpotInstanceRequest : Type := mkSpotInstanceRequest {
  request_id : string;
  state : string;
  instance_id : string
}.

Record Instance : Type := mkInstance {
  inst_id : string;
  ip_address : json
}.

(** A value of [create_kwargs]. *)
Inductive kwval : Type :=
| KV (v : json)
| KId (i : string)
| KIds (l : list string)
| KMap (m : gmap string BlockDeviceType).

(** The requests [launch] makes, as they are logged in the trace. *)
Inductive call : Type :=
| ConnectToRegion (service : string) (region profile : json)
| GetAllImages (name : json)
| GetAllSubnets
| GetAllSecurityGroups (names : json)
| RequestSpotInstances (price : json) (image : string) (kwargs : gmap string kwval)
| Sleep (seconds : nat)
| GetAllSpotInstanceRequests (rid : string)
| RunInstances (image : string) (kwargs : gmap string kwval)
| CreateTags (ids : list string) (tags : json) (dry_run : json)
| RegisterInstances (load_balancer : json) (ids : list string)
| GetAllInstances (ids : list string).

(** boto's endpoints and [time.sleep], over a world [W].  A connection is the
    name of its region; [connect_to_region] answers [None] for a region it
    does not know. *)
Record Cloud (W : Type) : Type := mkCloud {
  connect_to_region : string -> json -> json -> W -> W * res (option string);
  get_all_images : json -> W -> W * res (list Image);
  get_all_subnets : W -> W * res (list Subnet);
  get_all_security_groups : json -> W -> W * res (list SecurityGroup);
  request_spot_instances :
    json -> string -> gmap string kwval -> W -> W * res (list SpotInstanceRequest);
  sleep : nat -> W -> W * res unit;
  get_all_spot_instance_requests : string -> W -> W * res (list SpotInstanceRequest);
  run_instances : string -> gmap string kwval -> W -> W * res (list Instance);
  create_tags : list string -> json -> json -> W -> W * res unit;
  register_instances : json -> list string -> W -> W * res unit;
  get_all_instances : list string -> W -> W * res (list (list Instance))
}.
Arguments connect_to_region {W}.
Arguments get_all_images {W}.
Arguments get_all_subnets {W}.
Arguments get_all_security_groups {W}.
Arguments request_spot_instances {W}.
Arguments sleep {W}.
Arguments get_all_spot_instance_requests {W}.
Arguments run_instances {W}.
Arguments create_tags {W}.
Arguments register_instances {W}.
Arguments get_all_instances {W}.

Record _Connections : Type := mkConnections {
  ec2 : option string;
  s3 : option string;
  vpc : option string;
  elb : option string
}.

Fixpoint characters (s : string) : list json :=
  match s with
  | EmptyString => []
  | String c rest => JStr (String c EmptyString) :: characters rest
  end.

(** [for x in v] over a Python value. *)
Definition py_iter (v : json) : res (list json) :=
  match v with
  | JList l => Ret l
  | JStr s => Ret (characters s)
  | JDict items => Ret (map (fun kv => JStr kv.1) items)
  | _ => Raise TypeError_not_iterable
  end.

(** [a == b] for a string [a] and a value [b]. *)
Definition str_eq (a : string) (b : json) : bool :=
  match b with
  | JStr s => String.eqb a s
  | _ => false
  end.

Section Launch.

Variable py_ne : json -> json -> bool.
(** The table read from [prices.txt], a data file of the package. *)
Variable _EC2_INSTANCE_PRICE : gmap (string * string) float.
Variable W : Type.
Variable cloud : Cloud W.

(** A request: the endpoint is asked and the call is logged. *)
Definition request {T} (c : call) (endpoint : W -> W * res T)
  : M (W * list call) T :=
  fun st => let (w', r) := endpoint st.1 in ((w', st.2 ++ [c]), r).

Definition getattr (self : Session) (name : string) : M (W * list call) json :=
  lift (match attrs self !! name with
        | Some v => Ret v
        | None => Raise (AttributeError name)
        end).

(** [conn.m(...)]: an attribute of [None] cannot be read. *)
Definition method {T} (conn : option string) (name : string)
  (m : M (W * list call) T) : M (W * list call) T :=
  match conn with
  | Some _ => m
  | None => raise (AttributeError name)
  end.

Definition _lookup_ami_id (ec2 : option string) (name : json)
  : M (W * list call) Image :=
  let! images := method ec2 "get_all_images"
                   (request (GetAllImages name) (get_all_images cloud name)) in
  match images with
  | [image] => ret image
  | _ => raise RuntimeError_image
  end.

Definition _lookup_security_group_ids (ec2 : option string) (names : json)
  : M (W * list call) (option (list string)) :=
  if truthy names then
    let! groups := method ec2 "get_all_security_groups"
                     (request (GetAllSecurityGroups names)
                        (get_all_security_groups cloud names)) in
    ret (Some (map group_id groups))
  else ret None.

Definition connect (self : Session) : M (W * list call) _Connections :=
  let! region := getattr self "region" in
  let! profile := getattr self "profile" in
  let! c_ec2 := request (ConnectToRegion "ec2" region profile)
                  (connect_to_region cloud "ec2" region profile) in
  let! c_s3 := request (ConnectToRegion "s3" region profile)
                 (connect_to_region cloud "s3" region profile) in
  let! c_vpc := request (ConnectToRegion "vpc" region profile)
                  (connect_to_region cloud "vpc" region profile) in
  let! c_elb := request (ConnectToRegion "elb" region profile)
                  (connect_to_region cloud "elb" region profile) in
  ret (mkConnections c_ec2 c_s3 c_vpc c_elb).

(** [-- find placement or subnet id --] *)
Definition find_subnet_id (self : Session) (conn : _Connections)
  : M (W * list call) (option string) :=
  let! subnet := getattr self "subnet" in
  if truthy subnet then
    let! all := method (vpc conn) "get_all_subnets"
                  (request GetAllSubnets (get_all_subnets cloud)) in
    match List.filter
            (fun s => match subnet_tags s !! "Name" with
                      | Some n => str_eq n subnet
                      | None => false
                      end) all
    with
    | [] => ret None
    | [s] => ret (Some (subnet_id s))
    | _ => raise ValueError_too_many_subnets
    end
  else ret None.

Definition set_if (c : bool) (k : string) (v : kwval) (kwargs : gmap string kwval)
  : gmap string kwval :=
  if c then <[k := v]> kwargs else kwargs.

Definition make_create_kwargs (self : Session) (subnet : option string)
  (security_group_ids : option (list string))
  (mapping : option (gmap string BlockDeviceType))
  : M (W * list call) (gmap string kwval) :=
  let! instance_type := getattr self "instance_type" in
  let! dry_run := getattr self "dry_run" in
  let kw := <["dry_run" := KV dry_run]> (<["instance_type" := KV instance_type]> ∅) in
  let! kw :=
    match subnet with
    | Some i =>
        if negb (String.eqb i "") then ret (<["subnet_id" := KId i]> kw)
        else let! placement := getattr self "placement" in
             ret (set_if (truthy placement) "placement" (KV placement) kw)
    | None =>
        let! placement := getattr self "placement" in
        ret (set_if (truthy placement) "placement" (KV placement) kw)
    end in
  let! key := getattr self "key" in
  let kw := set_if (truthy key) "key_name" (KV key) kw in
  let! instance_profile := getattr self "instance_profile" in
  let kw := set_if (truthy instance_profile) "instance_profile_name"
              (KV instance_profile) kw in
  let kw := match security_group_ids with
            | Some (i :: l) => <["security_group_ids" := KIds (i :: l)]> kw
            | _ => kw
            end in
  let kw := match mapping with
            | Some m => set_if (bool_decide (0 < base.size m)%nat)
                          "block_device_map" (KMap m) kw
            | None => kw
            end in
  let! user_data_b64 := getattr self "user_data_b64" in
  ret (set_if (truthy user_data_b64) "user_data" (KV user_data_b64) kw).

(** [_EC2_INSTANCE_PRICE[(self.instance_type, conn.ec2.region.name)]] *)
Definition price_lookup (instance_type : json) (region : string) : res float :=
  match instance_type with
  | JStr s =>
      match _EC2_INSTANCE_PRICE !! (s, region) with
      | Some p => Ret p
      | None => Raise (KeyError_pair instance_type region)
      end
  | JList _ | JDict _ => Raise TypeError_unhashable
  | _ => Raise (KeyError_pair instance_type region)
  end.

(** [while state == 'open': sleep; spot = ...[0]; state = spot.state] *)
Fixpoint wait_spot (fuel : nat) (ec2 : option string) (spot_request_id : string)
  : M (W * list call) SpotInstanceRequest :=
  match fuel with
  | 0 => diverge
  | S fuel' =>
      request (Sleep 5) (sleep cloud 5) >>
      let! found := method ec2 "get_all_spot_instance_requests"
                      (request (GetAllSpotInstanceRequests spot_request_id)
                         (get_all_spot_instance_requests cloud spot_request_id)) in
      match found with
      | spot :: _ =>
          if String.eqb (state spot) "open"
          then wait_spot fuel' ec2 spot_request_id
          else ret spot
      | [] => raise IndexError
      end
  end.

(** [for spot_request_id in spot_request_ids: ...] *)
Fixpoint collect_spot (fuel : nat) (ec2 : option string)
  (spot_request_ids : list string) (instance_ids : list string)
  : M (W * list call) (list string) :=
  match spot_request_ids with
  | [] => ret instance_ids
  | spot_request_id :: rest =>
      let! spot := wait_spot fuel ec2 spot_request_id in
      if negb (String.eqb (state spot) "active")
      then collect_spot fuel ec2 rest instance_ids
      else collect_spot fuel ec2 rest (instance_ids ++ [instance_id spot])
  end.

Definition create_spot (fuel : nat) (self : Session) (conn : _Connections)
  (image : string) (create_kwargs : gmap string kwval)
  : M (W * list call) (list string) :=
  let! count := getattr self "count" in
  let kw := set_if (truthy count) "count" (KV count) create_kwargs in
  let! instance_type := getattr self "instance_type" in
  let! region :=
    match ec2 conn with
    | Some r => ret r
    | None => raise (AttributeError "region")
    end in
  let! listed := lift (price_lookup instance_type region) in
  let! configured := getattr self "price" in
  let price := if truthy configured then configured else JFloat listed in
  let! result := method (ec2 conn) "request_spot_instances"
                   (request (RequestSpotInstances price image kw)
                      (request_spot_instances cloud price image kw)) in
  collect_spot fuel (ec2 conn) (map request_id result) [].

Definition create_on_demand (self : Session) (conn : _Connections)
  (image : string) (create_kwargs : gmap string kwval)
  : M (W * list call) (list string) :=
  let! count := getattr self "count" in
  let kw := set_if (truthy count) "max_count" (KV count)
              (set_if (truthy count) "min_count" (KV count) create_kwargs) in
  let! result := method (ec2 conn) "run_instances"
                   (request (RunInstances image kw) (run_instances cloud image kw)) in
  ret (map inst_id result).

Definition create_instances (fuel : nat) (self : Session) (conn : _Connections)
  (image : string) (create_kwargs : gmap string kwval)
  : M (W * list call) (list string) :=
  let! spot := getattr self "spot" in
  if truthy spot then create_spot fuel self conn image create_kwargs
  else create_on_demand self conn image create_kwargs.

(** [if instance_ids: ... return conn, instances] and [return conn, []] *)
Definition finalize (self : Session) (conn : _Connections)
  (instance_ids : list string)
  : M (W * list call) (_Connections * list Instance) :=
  match instance_ids with
  | [] => ret (conn, [])
  | _ =>
      let! name := getattr self "name" in
      (if truthy name
       then method (ec2 conn) "create_tags"
              (let! dry_run := getattr self "dry_run" in
               request (CreateTags instance_ids (JDict [("Name", name)]) dry_run)
                 (create_tags cloud instance_ids (JDict [("Name", name)]) dry_run))
       else ret tt) >>
      let! tags := getattr self "tags" in
      (if truthy tags
       then method (ec2 conn) "create_tags"
              (let! dry_run := getattr self "dry_run" in
               request (CreateTags instance_ids tags dry_run)
                 (create_tags cloud instance_ids tags dry_run))
       else ret tt) >>
      let! dry_run := getattr self "dry_run" in
      (if negb (truthy dry_run)
       then let! load_balancers := getattr self "load_balancers" in
            if truthy load_balancers
            then let! balancers := lift (py_iter load_balancers) in
                 for_each balancers (fun load_balancer =>
                   method (elb conn) "register_instances"
                     (request (RegisterInstances load_balancer instance_ids)
                        (register_instances cloud load_balancer instance_ids)))
            else ret tt
       else ret tt) >>
      let! reservations := method (ec2 conn) "get_all_instances"
                             (request (GetAllInstances instance_ids)
                                (get_all_instances cloud instance_ids)) in
      ret (conn, concat reservations)
  end.

(** The steps of [launch] before the instances are created: the
    connections, the image, and [create_kwargs]. *)
Definition plan (self : Session)
  : M (W * list call) (_Connections * Image * gmap string kwval) :=
  let! conn := connect self in
  let! image_name := getattr self "image" in
  let! image := _lookup_ami_id (ec2 conn) image_name in
  let! subnet := find_subnet_id self conn in
  let! instance_type := getattr self "instance_type" in
  let! root_volume_size := getattr self "root_volume_size" in
  let! mapping := lift (_make_block_device_map py_ne image instance_type root_volume_size) in
  let! security_groups := getattr self "security_groups" in
  let! security_group_ids := _lookup_security_group_ids (ec2 conn) security_groups in
  let! create_kwargs := make_create_kwargs self subnet security_group_ids mapping in
  ret (conn, image, create_kwargs).

Definition launch (fuel : nat) (self : Session)
  : M (W * list call) (_Connections * list Instance) :=
  let! planned := plan self in
  let (ci, create_kwargs) := planned in
  let (conn, image) := ci in
  let! instance_ids := create_instances fuel self conn (image_id image) create_kwargs in
  finalize self conn instance_ids.

End Launch.

Arguments request {W T} c endpoint.
Arguments getattr {W} self name.
Arguments method {W T} conn name m.
Arguments _lookup_ami_id {W} cloud ec2 name.
Arguments _lookup_security_group_ids {W} cloud ec2 names.
Arguments connect {W} cloud self.
Arguments find_subnet_id {W} cloud self conn.
Arguments make_create_kwargs {W} self subnet security_group_ids mapping.
Arguments wait_spot {W} cloud fuel ec2 spot_request_id.
Arguments collect_spot {W} cloud fuel ec2 spot_request_ids instance_ids.
Arguments create_spot _EC2_INSTANCE_PRICE {W} cloud fuel self conn image create_kwargs.
Arguments create_on_demand {W} cloud self conn image create_kwargs.
Arguments create_instances _EC2_INSTANCE_PRICE {W} cloud fuel self conn image create_kwargs.
Arguments finalize {W} cloud self conn instance_ids.
Arguments plan py_ne {W} cloud self.
Arguments launch py_ne _EC2_INSTANCE_PRICE {W} cloud fuel self.

(** The answers to the polls of a batch of spot requests: [polled cloud fuel
    ec2 rids st spots st'] when, from [st], waiting for every request of
    [rids] in turn returns the requests [spots] and ends in [st']. *)
Inductive polled {W} (cloud : Cloud W) (fuel : nat) (ec2 : option string)
  : list string -> W * list call -> list SpotInstanceRequest -> W * list call -> Prop :=
| polled_nil st : polled cloud fuel ec2 [] st [] st
| polled_cons rid rids st spot st1 spots st2 :
    wait_spot cloud fuel ec2 rid st = (st1, Ret spot) ->
    polled cloud fuel ec2 rids st1 spots st2 ->
    polled cloud fuel ec2 (rid :: rids) st (spot :: spots) st2.

(** [k] polls of a request: a pause of five seconds, then the question. *)
Fixpoint poll_calls (k : nat) (rid : string) : list call :=
  match k with
  | 0 => []
  | S k' => Sleep 5 :: GetAllSpotInstanceRequests rid :: poll_calls k' rid
  end.

Definition is_active (spot : SpotInstanceRequest) : bool :=
  String.eqb (state spot) "active".

(** What a computation adds to the trace, and what it returns: every call
    it logs satisfies [P], and a returned value satisfies [Q]. *)
Definition logs {W A} (m : M (W * list call) A) (P : call -> Prop) (Q : A -> Prop)
  : Prop :=
  forall st, exists ext,
    (m st).1.2 = st.2 ++ ext /\ Forall P ext /\
    forall a, (m st).2 = Ret a -> Q a.

Definition is_tagging (c : call) : bool :=
  match c with
  | CreateTags _ _ _ => true
  | _ => false
  end.

Definition is_registration (c : call) : bool :=
  match c with
  | RegisterInstances _ _ => true
  | _ => false
  end.

Definition is_spot_request (c : call) : bool :=
  match c with
  | RequestSpotInstances _ _ _ => true
  | _ => false
  end.

(** The calls of the steps before the instances are created, and the calls
    that create them. *)
Definition is_lookup (c : call) : bool :=
  match c with
  | ConnectToRegion _ _ _ | GetAllImages _ | GetAllSubnets | GetAllSecurityGroups _ => true
  | _ => false
  end.

Definition is_creation (c : call) : bool :=
  match c with
  | RequestSpotInstances _ _ _ | Sleep _ | GetAllSpotInstanceRequests _
  | RunInstances _ _ => true
  | _ => false
  end.

(** A computation whose answer does not change with more fuel, once the fuel
    is enough for an answer. *)
Definition stable {St A} (f : nat -> M St A) : Prop :=
  forall n st, is_diverge (f n st).2 = false -> f (S n) st = f n st.

(** A call a dry run with flag [d] may make: no registration with a load
    balancer, and tags with the flag [d] only. *)
Definition dry_call (d : json) (c : call) : Prop :=
  match c with
  | RegisterInstances _ _ => False
  | CreateTags _ _ d' => d' = d
  | _ => True
  end.

(** ** Documents, sessions and clouds of the scenarios *)

(** A profile with a key that is not an option, which includes a missing
    profile. *)
Definition masked_doc : list (string * json) :=
  [ ("p", JDict [("*", JList [JStr "missing"]); ("bogus", JInt 1)]) ].

Definition scenario_doc : list (string * json) :=
  [ ("default", JDict [("region", JStr "us-east-1")]);
    ("prod", JDict [("*", JList [JStr "default"]);
                    ("instance_type", JStr "m4.large")]) ].

(** A profile that includes itself. *)
Definition loop_doc : list (string * json) :=
  [ ("a", JDict [("*", JList [JStr "a"])]) ].

(** A profile whose include list names a missing profile before itself, and
    which has a key that is not an option. *)
Definition guarded_loop_doc : list (string * json) :=
  [ ("p", JDict [("*", JList [JStr "missing"; JStr "p"]); ("bogus", JInt 1)]) ].

Definition quote : string := String (Ascii.ascii_of_nat 34) EmptyString.

(** The text [{"a":{}}] and the text [{"b":{}}]. *)
Definition body_a : string := "{" +:+ quote +:+ "a" +:+ quote +:+ ":{}}".
Definition body_b : string := "{" +:+ quote +:+ "b" +:+ quote +:+ ":{}}".

(** Two readable files: [./.foolaunch] and [/etc/foolaunch]. *)
Definition two_files (path : string) : option string :=
  if decide (path = "./.foolaunch") then Some body_a
  else if decide (path = "/etc/foolaunch") then Some body_b
  else None.

(** The same, but the text of [/etc/foolaunch] is cut short. *)
Definition garbled_files (path : string) : option string :=
  if decide (path = "./.foolaunch") then Some body_a
  else if decide (path = "/etc/foolaunch") then Some "{"
  else None.

(** A decoder that knows the two texts, and rejects every other text. *)
Definition decode_two (text : string) : option json :=
  if decide (text = body_a) then Some (JDict [("a", JDict [])])
  else if decide (text = body_b) then Some (JDict [("b", JDict [])])
  else None.

(** [!=] on the sizes the scenarios use: [None] and integers. *)
Definition ne_sizes (a b : json) : bool :=
  match a, b with
  | JInt x, JInt y => negb (Z.eqb x y)
  | JNull, JNull => false
  | _, _ => true
  end.

(** An image with its root device at [/dev/xvda], and one without. *)
Definition amzn_image : Image :=
  mkImage "ami-1" (<["/dev/xvda" := mkBlockDeviceType (JInt 8) None]> ∅).
Definition other_image : Image :=
  mkImage "ami-2" (<["/dev/sda1" := mkBlockDeviceType (JInt 8) None]> ∅).

(** A cloud whose answers are fixed but for the spot requests: the world
    counts the polls of every request, and [polls rid n] is the answer to
    poll number [n] of request [rid]. *)
Definition scripted (images : list Image)
  (batch : list SpotInstanceRequest) (created : list Instance)
  (polls : string -> nat -> list SpotInstanceRequest)
  : Cloud (gmap string nat) :=
  {| connect_to_region := fun _ region _ w =>
       (w, Ret (match region with JStr r => Some r | _ => None end));
     get_all_images := fun _ w => (w, Ret images);
     get_all_subnets := fun w => (w, Ret []);
     get_all_security_groups := fun _ w => (w, Ret []);
     request_spot_instances := fun _ _ _ w => (w, Ret batch);
     sleep := fun _ w => (w, Ret tt);
     get_all_spot_instance_requests := fun rid w =>
       let n := default 0 (w !! rid) in (<[rid := S n]> w, Ret (polls rid n));
     run_instances := fun _ _ w => (w, Ret created);
     create_tags := fun _ _ _ w => (w, Ret tt);
     register_instances := fun _ _ w => (w, Ret tt);
     get_all_instances := fun ids w =>
       (w, Ret [map (fun i => mkInstance i (JStr "10.0.0.1")) ids]) |}.

(** The attributes [Session.__init__] assigns. *)
Definition init_attrs : gmap string json :=
  list_to_map
    [ ("profile", JNull); ("region", JNull); ("image", JNull);
      ("instance_type", JNull); ("placement", JNull); ("subnet", JNull);
      ("key", JNull); ("instance_profile", JNull); ("security_groups", JNull);
      ("tags", JNull); ("root_volume_size", JNull); ("load_balancers", JNull);
      ("user_data_b64", JNull); ("spot", JBool false); ("dry_run", JBool false);
      ("name", JNull); ("count", JNull); ("price", JNull) ].

Definition with_attrs (l : list (string * json)) : Session :=
  mkSession [] (list_to_map l ∪ init_attrs).

(** A spot session for [d2.xlarge] in [us-east-1]. *)
Definition spot_session : Session :=
  with_attrs [ ("region", JStr "us-east-1"); ("image", JStr "amzn");
               ("instance_type", JStr "d2.xlarge"); ("spot", JBool true) ].

(** The same with an explicit price. *)
Definition priced_spot_session : Session :=
  with_attrs [ ("region", JStr "us-east-1"); ("image", JStr "amzn");
               ("instance_type", JStr "d2.xlarge"); ("spot", JBool true);
               ("price", JFloat 2%float) ].

(** A dry run of an on-demand launch, with a name, tags and a balancer. *)
Definition dry_session : Session :=
  with_attrs [ ("region", JStr "us-east-1"); ("image", JStr "amzn");
               ("instance_type", JStr "d2.xlarge"); ("dry_run", JBool true);
               ("name", JStr "web"); ("tags", JDict [("team", JStr "ops")]);
               ("load_balancers", JList [JStr "lb-1"]) ].

Definition one_price : gmap (string * string) float :=
  {[ ("d2.xlarge", "us-east-1") := 0.5%float ]}.

(** Two spot requests: the first ends [cancelled] after one [open] answer,
    the second ends [active] with instance [i-1]. *)
Definition two_requests : list SpotInstanceRequest :=
  [ mkSpotInstanceRequest "sir-1" "open" ""; mkSpotInstanceRequest "sir-2" "open" "" ].

Definition cancelled_then_active (rid : string) (n : nat) : list SpotInstanceRequest :=
  if decide (rid = "sir-1") then
    match n with
    | 0 => [mkSpotInstanceRequest rid "open" ""]
    | _ => [mkSpotInstanceRequest rid "cancelled" ""]
    end
  else [mkSpotInstanceRequest rid "active" "i-1"].

(** Every request ends [failed] after two [open] answers. *)
Definition all_failed (rid : string) (n : nat) : list SpotInstanceRequest :=
  if decide (n < 2)%nat then [mkSpotInstanceRequest rid "open" ""]
  else [mkSpotInstanceRequest rid "failed" ""].

Definition spot_cloud (polls : string -> nat -> list SpotInstanceRequest)
  : Cloud (gmap string nat) :=
  scripted [amzn_image] two_requests [] polls.

(** The connections of the scenarios. *)
Definition us_east_1 : _Connections :=
  mkConnections (Some "us-east-1") (Some "us-east-1") (Some "us-east-1")
    (Some "us-east-1").

Definition on_demand_cloud : Cloud (gmap string nat) :=
  scripted [amzn_image] [] [mkInstance "i-7" JNull] (fun _ _ => []).

(** A spot session for [d2.xlarge] in [us-east-1] whose price is [price]. *)
Definition spot_session_at (price : json) : Session :=
  with_attrs [ ("region", JStr "us-east-1"); ("image", JStr "amzn");
               ("instance_type", JStr "d2.xlarge"); ("spot", JBool true);
               ("price", price) ].

(** The bids of the spot requests of a trace. *)
Definition bids (tr : list call) : list json :=
  omap (fun c => match c with
                 | RequestSpotInstances price _ _ => Some price
                 | _ => None
                 end) tr.

(** ** [Session.__init__] *)

(** The body of [Session.__init__] once [_load_configurations] has returned
    [configurations], a JSON object: the attributes are assigned, and the
    profile ["default"] is applied when the document has one. *)
Definition __init__ (configurations : list (string * json)) (fuel : nat)
  : res Session :=
  let self := mkSession configurations init_attrs in
  match dict_get "default" configurations with
  | Some _ =>
      match apply fuel (JStr "default") self with
      | (self', Ret _) => Ret self'
      | (_, Raise e) => Raise e
      | (_, Diverge) => Diverge
      end
  | None => Ret self
  end.

(** The options a profile may set: the keys of [_VALID_KEYS] but ["*"]. *)
Definition is_option (k : string) : Prop := k ∈ _VALID_KEYS ∧ k ≠ "*".

(** A document with a base profile and two profiles that include it. *)
Definition layered_doc : list (string * json) :=
  [ ("default", JDict [("region", JStr "us-east-1"); ("key", JStr "ops")]);
    ("web", JDict [("*", JList [JStr "default"]); ("instance_type", JStr "d2.xlarge");
                   ("key", JStr "web")]);
    ("spot", JDict [("spot", JBool true); ("instance_type", JStr "h1.2xlarge")]) ].

(** ** The requests of a launch, by the method that is called *)

Definition method_name (c : call) : string :=
  match c with
  | ConnectToRegion _ _ _ => "connect_to_region"
  | GetAllImages _ => "get_all_images"
  | GetAllSubnets => "get_all_subnets"
  | GetAllSecurityGroups _ => "get_all_security_groups"
  | RequestSpotInstances _ _ _ => "request_spot_instances"
  | Sleep _ => "sleep"
  | GetAllSpotInstanceRequests _ => "get_all_spot_instance_requests"
  | RunInstances _ _ => "run_instances"
  | CreateTags _ _ _ => "create_tags"
  | RegisterInstances _ _ => "register_instances"
  | GetAllInstances _ => "get_all_instances"
  end.

(** A session with a region and an image, and no instance type. *)
Definition untyped_session : Session :=
  with_attrs [ ("region", JStr "us-east-1"); ("image", JStr "amzn") ].

(** A session for an instance type that is not in the table of volumes. *)
Definition m4_session : Session :=
  with_attrs [ ("region", JStr "us-east-1"); ("image", JStr "amzn");
               ("instance_type", JStr "m4.large") ].

(** What the keyword arguments of a creation request say of the session:
    its instance type and its dry-run flag, a subnet id only when a subnet is
    configured, a placement only when it is the configured one, and never
    both a subnet id and a placement. *)
Definition create_kwargs_ok (self : Session) (kw : gmap string kwval) : Prop :=
  kw !! "instance_type" = KV <$> attrs self !! "instance_type" ∧
  kw !! "dry_run" = KV <$> attrs self !! "dry_run" ∧
  (kw !! "subnet_id" = None ∨ kw !! "placement" = None) ∧
  (is_Some (kw !! "subnet_id") →
   ∃ s, attrs self !! "subnet" = Some s ∧ truthy s = true) ∧
  (∀ v, kw !! "placement" = Some v →
        ∃ p, attrs self !! "placement" = Some p ∧ truthy p = true ∧ v = KV p).

(** A creation request is well formed: [run_instances] has [min_count] and
    [max_count] together and no [count]; [request_spot_instances] has
    neither [min_count] nor [max_count]. *)
Definition creation_ok (self : Session) (c : call) : Prop :=
  match c with
  | RunInstances _ kw =>
      create_kwargs_ok self kw ∧ kw !! "min_count" = kw !! "max_count" ∧
      kw !! "count" = None
  | RequestSpotInstances _ _ kw =>
      create_kwargs_ok self kw ∧ kw !! "min_count" = None ∧ kw !! "max_count" = None
  | _ => True
  end.

(** A provider whose spot requests stay [open]. *)
Definition always_open (rid : string) (n : nat) : list SpotInstanceRequest :=
  [mkSpotInstanceRequest rid "open" ""].

(** The load balancers a launch registers with: those of the session,
    unless the launch is a dry run or none is configured. *)
Definition balancers_of (dry_run load_balancers : json) : res (list json) :=
  if negb (truthy dry_run) && truthy load_balancers then py_iter load_balancers
  else Ret [].

(** The requests that follow the creation of the instances [ids]. *)
Definition finalize_calls_of (ids : list string) (name tags dry_run : json)
  (balancers : list json) : list call :=
  (if truthy name then [CreateTags ids (JDict [("Name", name)]) dry_run] else [])
  ++ (if truthy tags then [CreateTags ids tags dry_run] else [])
  ++ map (fun load_balancer => RegisterInstances load_balancer ids) balancers
  ++ [GetAllInstances ids].

(** An on-demand session with a name, tags and two load balancers. *)
Definition web_session : Session :=
  with_attrs [ ("region", JStr "us-east-1"); ("image", JStr "amzn");
               ("instance_type", JStr "d2.xlarge");
               ("name", JStr "web"); ("tags", JDict [("team", JStr "ops")]);
               ("load_balancers", JList [JStr "lb-1"; JStr "lb-2"]) ].

(** A provider that knows no region. *)
Definition no_region_cloud : Cloud (gmap string nat) :=
  {| connect_to_region := fun _ _ _ w => (w, Ret None);
     get_all_images := fun _ w => (w, Ret [amzn_image]);
     get_all_subnets := fun w => (w, Ret []);
     get_all_security_groups := fun _ w => (w, Ret []);
     request_spot_instances := fun _ _ _ w => (w, Ret []);
     sleep := fun _ w => (w, Ret tt);
     get_all_spot_instance_requests := fun _ w => (w, Ret []);
     run_instances := fun _ _ w => (w, Ret []);
     create_tags := fun _ _ _ w => (w, Ret tt);
     register_instances := fun _ _ w => (w, Ret tt);
     get_all_instances := fun _ w => (w, Ret []) |}.

(** A computation that succeeds from every state: it makes exactly the
    requests [ext], in that order, and returns a value that satisfies [Q]. *)
Definition succeeds {W A} (m : M (W * list call) A) (ext : list call)
  (Q : A -> Prop) : Prop :=
  forall st, exists w' a, m st = ((w', st.2 ++ ext), Ret a) /\ Q a.

(** A computation that returns from every state, with a value that
    satisfies [Q]. *)
Definition returns {W A} (m : M (W * list call) A) (Q : A -> Prop) : Prop :=
  forall st, exists st' a, m st = (st', Ret a) /\ Q a.



(** ** The table of prices: the import of [prices.txt] *)

(** The errors of the loop that fills [_EC2_INSTANCE_PRICE]. *)
Inductive import_error : Type :=
| IndexError_empty_line
| ValueError_unpack (fields : nat)
| ValueError_float (text : string).

Definition tab : Ascii.ascii := Ascii.ascii_of_nat 9.
Definition newline : Ascii.ascii := Ascii.ascii_of_nat 10.

(** [for line in f]: the lines of a text, each with its newline. *)
Fixpoint readlines (text : string) : list string :=
  match text with
  | EmptyString => []
  | String c rest =>
      if Ascii.eqb c newline then String c EmptyString :: readlines rest
      else match readlines rest with
           | [] => [String c EmptyString]
           | line :: lines => String c line :: lines
           end
  end.

(** [line[-1]] and [line[:-1]] *)
Fixpoint last_char (line : string) : option Ascii.ascii :=
  match line with
  | EmptyString => None
  | String c EmptyString => Some c
  | String _ rest => last_char rest
  end.

Fixpoint without_last (line : string) : string :=
  match line with
  | EmptyString => EmptyString
  | String _ EmptyString => EmptyString
  | String c rest => String c (without_last rest)
  end.

(** [line.split('\t')] *)
Fixpoint split_tab (line : string) : list string :=
  match line with
  | EmptyString => [EmptyString]
  | String c rest =>
      if Ascii.eqb c tab then EmptyString :: split_tab rest
      else match split_tab rest with
           | field :: fields => String c field :: fields
           | [] => [String c EmptyString]
           end
  end.

Section Prices.

(** [float(price)]: [None] when it raises. *)
Variable float_of_string : string -> option float.

(** The body of the loop, for one line. *)
Definition add_price (table : gmap (string * string) float) (line : string)
  : import_error + gmap (string * string) float :=
  match last_char line with
  | None => inl IndexError_empty_line
  | Some c =>
      let line := if Ascii.eqb c newline then without_last line else line in
      match split_tab line with
      | [instance_type; region; price] =>
          match float_of_string price with
          | Some p => inr (<[(instance_type, region) := p]> table)
          | None => inl (ValueError_float price)
          end
      | fields => inl (ValueError_unpack (length fields))
      end
  end.

Fixpoint add_prices (lines : list string) (table : gmap (string * string) float)
  : import_error + gmap (string * string) float :=
  match lines with
  | [] => inr table
  | line :: rest =>
      match add_price table line with
      | inr table' => add_prices rest table'
      | inl e => inl e
      end
  end.

(** [_EC2_INSTANCE_PRICE], from the text of [prices.txt]. *)
Definition load_prices (text : string) : import_error + gmap (string * string) float :=
  add_prices (readlines text) ∅.

End Prices.

(** A field of a line: a text without a tab and without a newline. *)
Fixpoint plain (field : string) : bool :=
  match field with
  | EmptyString => true
  | String c rest => negb (Ascii.eqb c tab) && negb (Ascii.eqb c newline) && plain rest
  end.

(** A text without a newline. *)
Fixpoint one_line (text : string) : bool :=
  match text with
  | EmptyString => true
  | String c rest => negb (Ascii.eqb c newline) && one_line rest
  end.

(** The line of an entry, and the text of a list of entries. *)
Definition price_line (instance_type region price : string) : string :=
  instance_type +:+ String tab (region +:+ String tab (price +:+ String newline EmptyString)).

Fixpoint price_text (entries : list (string * string * string)) : string :=
  match entries with
  | [] => EmptyString
  | (instance_type, region, price) :: rest =>
      price_line instance_type region price +:+ price_text rest
  end.

(** A reader of the two prices of the scenarios. *)
Definition two_prices (text : string) : option float :=
  if decide (text = "0.5") then Some 0.5%float
  else if decide (text = "0.75") then Some 0.75%float
  else None.

(** The text of the price of the last entry for an instance type and a
    region. *)
Fixpoint listed_price (entries : list (string * string * string))
  (instance_type region : string) : option string :=
  match entries with
  | [] => None
  | (i, r, price) :: rest =>
      match listed_price rest instance_type region with
      | Some later => Some later
      | None => if decide (i = instance_type ∧ r = region) then Some price else None
      end
  end.

(** An entry whose fields are plain and whose price can be read. *)
Definition well_formed (float_of_string : string -> option float)
  (entry : string * string * string) : Prop :=
  plain entry.1.1 = true ∧ plain entry.1.2 = true ∧ plain entry.2 = true ∧
  is_Some (float_of_string entry.2).

Definition three_entries : list (string * string * string) :=
  [ ("d2.xlarge", "us-east-1", "0.5"); ("d2.xlarge", "us-west-2", "0.75");
    ("d2.xlarge", "us-east-1", "0.75") ].
Lemma not_diverge {A} (r : res A) : is_diverge r = false → r ≠ Diverge.
Proof. by destruct r. Qed.

(** * Properties of the resolver *)

Section Resolver.

Variable doc : list (string * json).

Lemma own_options_frame label items acc acc' r :
  own_options label items acc = Ret r →
  own_options label items (acc ∪ acc') = Ret (r ∪ acc').
Proof.
  revert acc. induction items as [|[k v] items IH]; intros acc; simpl.
  - by intros [= <-].
  - destruct (decide (k = "*")); [by apply IH|].
    destruct (decide (k ∈ _VALID_KEYS)); [|done].
    intros H. rewrite insert_union_l. by apply IH.
Qed.

Lemma own_options_raise label items acc acc' e :
  own_options label items acc = Raise e →
  own_options label items acc' = Raise e.
Proof.
  revert acc acc'. induction items as [|[k v] items IH]; intros acc acc'; simpl.
  - done.
  - destruct (decide (k = "*")); [by apply IH|].
    destruct (decide (k ∈ _VALID_KEYS)); [by apply IH|done].
Qed.

Lemma own_options_total label items acc : own_options label items acc ≠ Diverge.
Proof.
  revert acc. induction items as [|[k v] items IH]; intros acc; simpl; [done|].
  destruct (decide (k = "*")); [by apply IH|].
  destruct (decide (k ∈ _VALID_KEYS)); [by apply IH|done].
Qed.

(** [overlay] mutates the dict as [own_options] computes it. *)
Lemma overlay_own_options label items total :
  match own_options label items total with
  | Ret r => overlay label items total = (r, Ret tt)
  | Raise e => (overlay label items total).2 = Raise e
  | Diverge => False
  end.
Proof.
  revert total. induction items as [|[k v] items IH]; intros total; simpl; [done|].
  destruct (decide (k = "*")); [by apply IH|].
  destruct (decide (k ∈ _VALID_KEYS)); [|done].
  unfold bind, modify; simpl. apply IH.
Qed.

(** What [_apply] does to a dict [total]: the options of the profile, as the
    specification resolves them, are laid over [total]. *)
Lemma for_each_merge fuel includes acc total :
  (∀ label total,
     match resolve_spec doc fuel label with
     | Ret r => _apply doc fuel label total = (r ∪ total, Ret tt)
     | Raise e => (_apply doc fuel label total).2 = Raise e
     | Diverge => (_apply doc fuel label total).2 = Diverge
     end) →
  match merge_includes (resolve_spec doc fuel) includes acc with
  | Ret r => for_each includes (_apply doc fuel) (acc ∪ total) = (r ∪ total, Ret tt)
  | Raise e => (for_each includes (_apply doc fuel) (acc ∪ total)).2 = Raise e
  | Diverge => (for_each includes (_apply doc fuel) (acc ∪ total)).2 = Diverge
  end.
Proof.
  intros IH. revert acc. induction includes as [|i includes IHl]; intros acc; simpl.
  - done.
  - specialize (IH i (acc ∪ total)). unfold bind.
    destruct (resolve_spec doc fuel i) as [r|e|].
    + rewrite IH. rewrite (assoc_L (∪)). apply IHl.
    + destruct (_apply doc fuel i (acc ∪ total)) as [t o]; simpl in *. by subst o.
    + destruct (_apply doc fuel i (acc ∪ total)) as [t o]; simpl in *. by subst o.
Qed.

Lemma _apply_resolve_spec fuel label total :
  match resolve_spec doc fuel label with
  | Ret r => _apply doc fuel label total = (r ∪ total, Ret tt)
  | Raise e => (_apply doc fuel label total).2 = Raise e
  | Diverge => (_apply doc fuel label total).2 = Diverge
  end.
Proof.
  revert label total. induction fuel as [|fuel IH]; intros label total; simpl; [done|].
  unfold bind, lift.
  destruct (lookup_label doc label) as [configuration|e|]; [|done|done].
  destruct configuration as [| | | | | |items]; try done.
  assert (Hown : ∀ merged,
    match own_options label items merged with
    | Ret r => overlay label items (merged ∪ total) = (r ∪ total, Ret tt)
    | Raise e => (overlay label items (merged ∪ total)).2 = Raise e
    | Diverge => (overlay label items (merged ∪ total)).2 = Diverge
    end).
  { intros merged. pose proof (overlay_own_options label items (merged ∪ total)) as Ho.
    destruct (own_options label items merged) as [r|e|] eqn:E.
    - by rewrite (own_options_frame _ _ _ total _ E) in Ho.
    - by rewrite (own_options_raise _ _ _ (merged ∪ total) _ E) in Ho.
    - by apply own_options_total in E. }
  destruct (dict_get "*" items) as [[| | | | |includes|]|]; simpl; try done.
  - pose proof (for_each_merge fuel includes ∅ total IH) as Hm.
    rewrite (left_id_L ∅ (∪)) in Hm.
    destruct (merge_includes (resolve_spec doc fuel) includes ∅) as [merged|e|].
    + rewrite Hm. apply Hown.
    + destruct (for_each includes (_apply doc fuel) total) as [t o]; simpl in *. by subst o.
    + destruct (for_each includes (_apply doc fuel) total) as [t o]; simpl in *. by subst o.
  - unfold ret. specialize (Hown ∅). by rewrite (left_id_L ∅ (∪)) in Hown.
Qed.

Lemma resolve_resolve_spec fuel label :
  resolve doc fuel label = resolve_spec doc fuel label.
Proof.
  unfold resolve. pose proof (_apply_resolve_spec fuel label ∅) as H.
  destruct (resolve_spec doc fuel label) as [r|e|].
  - rewrite H. by rewrite (right_id_L ∅ (∪)).
  - destruct (_apply doc fuel label ∅) as [t o]; simpl in *. by subst o.
  - destruct (_apply doc fuel label ∅) as [t o]; simpl in *. by subst o.
Qed.


(** ** Fuel *)

Lemma merge_includes_ext (f g : json → res (gmap string json)) includes acc :
  (∀ i, i ∈ includes → f i ≠ Diverge → g i = f i) →
  merge_includes f includes acc ≠ Diverge →
  merge_includes g includes acc = merge_includes f includes acc.
Proof.
  revert acc. induction includes as [|i includes IH]; intros acc Hfg Hnd; simpl in *; [done|].
  assert (Hi : f i ≠ Diverge) by (intros E; by rewrite E in Hnd).
  rewrite (Hfg i); [|by left|done].
  destruct (f i) as [r|e|]; [|done|done].
  apply IH; [|done]. intros j Hj. apply Hfg. by right.
Qed.

Lemma resolve_spec_S fuel label :
  resolve_spec doc fuel label ≠ Diverge →
  resolve_spec doc (S fuel) label = resolve_spec doc fuel label.
Proof.
  revert label. induction fuel as [|fuel IH]; intros label Hnd; [done|].
  remember (S fuel) as n eqn:En. simpl. subst n. simpl in Hnd |- *.
  destruct (lookup_label doc label) as [[| | | | | |items]|e|]; try done.
  destruct (dict_get "*" items) as [[| | | | |includes|]|]; try done.
  rewrite (merge_includes_ext (resolve_spec doc fuel)); [done| |].
  - intros i _ Hi. by apply IH.
  - intros E. by rewrite E in Hnd.
Qed.

Lemma resolve_spec_mono (fuel fuel' : nat) label :
  (fuel ≤ fuel')%nat →
  resolve_spec doc fuel label ≠ Diverge →
  resolve_spec doc fuel' label = resolve_spec doc fuel label.
Proof.
  induction 1 as [|fuel' Hle IH]; [done|]. intros Hnd.
  rewrite resolve_spec_S; [by apply IH|]. by rewrite IH.
Qed.

Lemma resolve_mono (fuel fuel' : nat) label :
  (fuel ≤ fuel')%nat →
  resolve doc fuel label ≠ Diverge →
  resolve doc fuel' label = resolve doc fuel label.
Proof. rewrite !resolve_resolve_spec. apply resolve_spec_mono. Qed.

(** ** The include graph *)

Lemma merge_includes_diverge f includes acc :
  merge_includes f includes acc = Diverge → ∃ i, i ∈ includes ∧ f i = Diverge.
Proof.
  revert acc. induction includes as [|i includes IH]; intros acc; simpl; [done|].
  destruct (f i) as [r|e|] eqn:E; [|done|].
  - intros H. destruct (IH _ H) as (j & Hj & Hd). exists j. split; [by right|done].
  - intros _. exists i. split; [by left|done].
Qed.

Lemma merge_includes_ret f includes acc r :
  merge_includes f includes acc = Ret r → ∀ i, i ∈ includes → ∃ r', f i = Ret r'.
Proof.
  revert acc. induction includes as [|i includes IH]; intros acc; simpl.
  - intros _ j Hj. by apply elem_of_nil in Hj.
  - destruct (f i) as [ri|e|] eqn:E; [|done|done].
    intros H j Hj. apply elem_of_cons in Hj as [->|Hj]; [by exists ri|by eapply IH].
Qed.

Lemma lookup_label_total label : lookup_label doc label ≠ Diverge.
Proof. destruct label as [| | | |s| |]; simpl; try done. by destruct (dict_get s doc). Qed.

(** Running out of fuel exhibits a chain of includes as long as the fuel. *)
Lemma diverge_chain fuel label :
  resolve_spec doc fuel label = Diverge →
  ∃ q, nsteps (includes doc) fuel label q.
Proof.
  revert label. induction fuel as [|fuel IH]; intros label; simpl.
  - intros _. exists label. constructor.
  - destruct (lookup_label doc label) as [[| | | | | |items]|e|] eqn:El; try done.
    + destruct (dict_get "*" items) as [[| | | | |l|]|] eqn:Ed; try done.
      * destruct (merge_includes (resolve_spec doc fuel) l ∅) as [m|e|] eqn:Em.
        -- intros H. by apply own_options_total in H.
        -- done.
        -- intros _. apply merge_includes_diverge in Em as (i & Hi & Hd).
           destruct (IH _ Hd) as [q Hq]. exists q.
           apply nsteps_l with i; [|done].
           unfold includes, include_list. by rewrite El, Ed.
      * intros H. by apply own_options_total in H.
    + by apply lookup_label_total in El.
Qed.

(** A result for a profile comes from results for its includes, with less fuel. *)
Lemma ret_includes fuel p q r :
  resolve_spec doc (S fuel) p = Ret r → includes doc p q →
  ∃ r', resolve_spec doc fuel q = Ret r'.
Proof.
  simpl. unfold includes, include_list.
  destruct (lookup_label doc p) as [[| | | | | |items]|e|]; try done;
    try (intros _ H; by apply elem_of_nil in H).
  destruct (dict_get "*" items) as [[| | | | |l|]|]; try done;
    try (intros _ H; by apply elem_of_nil in H).
  destruct (merge_includes (resolve_spec doc fuel) l ∅) as [m|e|] eqn:Em; try done.
  intros _ Hq. by eapply merge_includes_ret.
Qed.

Lemma ret_fuel_pos fuel p r : resolve_spec doc fuel p = Ret r → ∃ fuel', fuel = S fuel'.
Proof. destruct fuel; [done|eauto]. Qed.

Lemma ret_tc fuel p q r :
  tc (includes doc) p q → resolve_spec doc fuel p = Ret r →
  ∃ fuel' r', (fuel' < fuel)%nat ∧ resolve_spec doc fuel' q = Ret r'.
Proof.
  intros Htc. revert fuel r. induction Htc as [p q Hpq|p q z Hpq _ IH]; intros fuel r Hr.
  - destruct (ret_fuel_pos _ _ _ Hr) as [n ->].
    destruct (ret_includes _ _ _ _ Hr Hpq) as [r' Hr']. exists n, r'. split; [lia|done].
  - destruct (ret_fuel_pos _ _ _ Hr) as [n ->].
    destruct (ret_includes _ _ _ _ Hr Hpq) as [r' Hr'].
    destruct (IH _ _ Hr') as (m & r'' & Hm & Hr''). exists m, r''. split; [lia|done].
Qed.

Lemma ret_rtc fuel p q r :
  rtc (includes doc) p q → resolve_spec doc fuel p = Ret r →
  ∃ fuel' r', resolve_spec doc fuel' q = Ret r'.
Proof.
  intros Hrtc Hr. apply rtc_tc in Hrtc as [<-|Htc]; [by eauto|].
  destruct (ret_tc _ _ _ _ Htc Hr) as (m & r' & _ & Hr'). eauto.
Qed.

(** A profile on a cycle of includes has no result, whatever the fuel. *)
Lemma cycle_no_result q fuel r :
  tc (includes doc) q q → resolve_spec doc fuel q ≠ Ret r.
Proof.
  intros Hc. revert r. induction (lt_wf fuel) as [fuel _ IH]. intros r Hr.
  destruct (ret_tc _ _ _ _ Hc Hr) as (m & r' & Hm & Hr'). by eapply IH.
Qed.

Lemma dict_get_Some_key k (items : list (string * json)) v :
  dict_get k items = Some v → k ∈ items.*1.
Proof.
  induction items as [|[k' v'] items IH]; simpl; [done|].
  destruct (decide (k' = k)) as [->|]; [intros _; by left|].
  intros H. right. by apply IH.
Qed.

(** Only a profile of the document has includes. *)
Lemma includes_source p q :
  includes doc p q → ∃ s, p = JStr s ∧ s ∈ doc.*1.
Proof.
  unfold includes, include_list.
  destruct p as [| | | |s| |]; simpl; try (intros H; by apply elem_of_nil in H).
  destruct (dict_get s doc) as [c|] eqn:E; [|intros H; by apply elem_of_nil in H].
  intros _. exists s. split; [done|]. by eapply dict_get_Some_key.
Qed.

(** A chain of includes longer than the document passes twice through a
    profile. *)
Lemma chain_cycle (n : nat) x y (visited : list string) :
  nsteps (includes doc) n x y →
  NoDup visited →
  (∀ v, v ∈ visited → v ∈ doc.*1) →
  (∀ v, v ∈ visited → tc (includes doc) (JStr v) x) →
  (length doc < n + length visited)%nat →
  ∃ z, rtc (includes doc) x z ∧ tc (includes doc) z z.
Proof.
  intros Hn. revert visited.
  induction Hn as [x|n x x' y Hstep _ IH]; intros visited Hnd Hsub Hreach Hlen.
  - exfalso. apply NoDup_submseteq in Hsub; [|done].
    apply submseteq_length in Hsub. rewrite length_fmap in Hsub. simpl in Hlen. lia.
  - destruct (includes_source _ _ Hstep) as (s & -> & Hs).
    destruct (decide (s ∈ visited)) as [Hin|Hnin].
    + exists (JStr s). split; [done|by apply Hreach].
    + destruct (IH (s :: visited)) as (z & Hz & Hc).
      * by constructor.
      * intros v Hv. apply elem_of_cons in Hv as [->|Hv]; [done|by apply Hsub].
      * intros v Hv. apply elem_of_cons in Hv as [->|Hv]; [by apply tc_once|].
        eapply tc_r; [by apply Hreach|done].
      * simpl. lia.
      * exists z. split; [by eapply rtc_l|done].
Qed.

(** Without a cycle of includes within reach of [p], the fuel
    [S (length doc)] is enough. *)
Lemma acyclic_enough_fuel p :
  (∀ q, rtc (includes doc) p q → ¬ tc (includes doc) q q) →
  resolve_spec doc (S (length doc)) p ≠ Diverge.
Proof.
  intros Hacyclic Hd. apply diverge_chain in Hd as [y Hy].
  destruct (chain_cycle _ _ _ [] Hy) as (z & Hz & Hc).
  - constructor.
  - intros v Hv. by apply elem_of_nil in Hv.
  - intros v Hv. by apply elem_of_nil in Hv.
  - simpl. lia.
  - by apply (Hacyclic z).
Qed.

(** Recursion along first includes. *)
Lemma first_include_diverges fuel p q :
  first_include doc p q →
  resolve_spec doc fuel q = Diverge →
  resolve_spec doc (S fuel) p = Diverge.
Proof.
  unfold first_include, include_list. simpl.
  destruct (lookup_label doc p) as [[| | | | | |items]|e|]; try done.
  destruct (dict_get "*" items) as [[| | | | |l|]|]; try done.
  destruct l as [|i l]; [done|]. simpl. intros [= ->] ->. done.
Qed.

Lemma first_cycle_step p :
  (∃ q, rtc (first_include doc) p q ∧ tc (first_include doc) q q) →
  ∃ p', first_include doc p p' ∧
        ∃ q, rtc (first_include doc) p' q ∧ tc (first_include doc) q q.
Proof.
  intros (q & Hpq & Hc). destruct Hpq as [p|p p' q Hstep Hrest].
  - inversion Hc as [? ? H1|? p' ? H1 H2]; subst.
    + exists p. split; [done|]. exists p. split; [done|by apply tc_once].
    + exists p'. split; [done|]. exists p. split; [by apply tc_rtc|done].
  - exists p'. split; [done|]. by exists q.
Qed.

Lemma first_cycle_diverges fuel p :
  (∃ q, rtc (first_include doc) p q ∧ tc (first_include doc) q q) →
  resolve_spec doc fuel p = Diverge.
Proof.
  revert p. induction fuel as [|fuel IH]; intros p Hp; [done|].
  destruct (first_cycle_step _ Hp) as (p' & Hstep & Hp').
  eapply first_include_diverges; [done|]. by apply IH.
Qed.

End Resolver.

(** ** [apply] *)

Lemma apply_resolve fuel label self :
  apply fuel label self =
  match lookup_label (_configurations self) label with
  | Ret _ =>
      match resolve (_configurations self) fuel label with
      | Ret total => for_each (map_to_list total) (fun kv => setattr kv.1 kv.2) self
      | Raise e => (self, Raise e)
      | Diverge => (self, Diverge)
      end
  | Raise e => (self, Raise e)
  | Diverge => (self, Diverge)
  end.
Proof.
  unfold apply, bind, get, lift, with_fresh_dict, resolve.
  destruct (lookup_label (_configurations self) label) as [c|e|]; [|done|done].
  by destruct (_apply (_configurations self) fuel label ∅) as [t [[]|e|]].
Qed.

Lemma setattr_all (l : list (string * json)) self :
  for_each l (fun kv => setattr kv.1 kv.2) self =
  (mkSession (_configurations self)
     (foldl (fun a kv => <[kv.1 := kv.2]> a) (attrs self) l), Ret tt).
Proof.
  revert self. induction l as [|[k v] l IH]; intros self; simpl.
  - by destruct self.
  - unfold bind, setattr, modify. simpl. by rewrite IH.
Qed.

Lemma foldl_insert_union (l : list (string * json)) (a : gmap string json) :
  NoDup l.*1 →
  foldl (fun a kv => <[kv.1 := kv.2]> a) a l = list_to_map l ∪ a.
Proof.
  revert a. induction l as [|[k v] l IH]; intros a Hnd; simpl.
  - by rewrite (left_id_L ∅ (∪)).
  - apply NoDup_cons in Hnd as [Hk Hnd]. rewrite IH by done.
    rewrite <- insert_union_l. rewrite <- insert_union_r; [done|].
    by apply not_elem_of_list_to_map_1.
Qed.

Lemma setattr_total (total : gmap string json) self :
  for_each (map_to_list total) (fun kv => setattr kv.1 kv.2) self =
  (mkSession (_configurations self) (total ∪ attrs self), Ret tt).
Proof.
  rewrite setattr_all, foldl_insert_union by apply NoDup_fst_map_to_list.
  by rewrite list_to_map_to_list.
Qed.

Lemma own_options_unknown label items acc :
  (∃ k, k ∈ items.*1 ∧ k ≠ "*" ∧ k ∉ _VALID_KEYS) →
  ∃ k, k ∈ items.*1 ∧ k ≠ "*" ∧ (k ∉ _VALID_KEYS) ∧
       own_options label items acc = Raise (ValueError_invalid_key k label).
Proof.
  revert acc. induction items as [|[k v] items IH]; intros acc (k0 & Hin & Hne & Hbad).
  - by apply elem_of_nil in Hin.
  - simpl. destruct (decide (k = "*")) as [->|Hk].
    + apply elem_of_cons in Hin as [->|Hin]; [done|].
      destruct (IH acc) as (k1 & H1 & H2 & H3 & H4); [by eauto|].
      exists k1. split_and!; [by right|done..].
    + destruct (decide (k ∈ _VALID_KEYS)) as [Hv|Hv].
      * apply elem_of_cons in Hin as [->|Hin]; [done|].
        destruct (IH (<[k:=v]> acc)) as (k1 & H1 & H2 & H3 & H4); [by eauto|].
        exists k1. split_and!; [by right|done..].
      * exists k. split_and!; [by left|done..].
Qed.

Lemma merge_includes_all_ret (f : json → res (gmap string json)) l acc :
  Forall (fun j => ∃ r, f j = Ret r) l → ∃ m, merge_includes f l acc = Ret m.
Proof.
  intros H. revert acc. induction H as [|j l [r Hr] _ IH]; intros acc; simpl; [by eauto|].
  rewrite Hr. apply IH.
Qed.

Lemma merge_includes_raise (f : json → res (gmap string json)) pre i post acc e :
  Forall (fun j => ∃ r, f j = Ret r) pre → f i = Raise e →
  merge_includes f (pre ++ i :: post) acc = Raise e.
Proof.
  intros H Hi. revert acc. induction H as [|j l [r Hr] _ IH]; intros acc; simpl.
  - by rewrite Hi.
  - rewrite Hr. apply IH.
Qed.

(** The includes of [scenario_doc]: [prod] includes [default]. *)
Lemma scenario_includes x y :
  includes scenario_doc x y → x = JStr "prod" ∧ y = JStr "default".
Proof.
  unfold includes, include_list, lookup_label.
  destruct x as [| | | |s| |]; simpl; try (intros Hin; by apply elem_of_nil in Hin).
  repeat (case_decide; subst; simpl); try (intros Hin; by apply elem_of_nil in Hin).
  intros Hin. apply list_elem_of_singleton in Hin. by subst.
Qed.

Lemma scenario_acyclic q : ¬ tc (includes scenario_doc) q q.
Proof.
  intros H.
  assert (Hfirst : ∀ x y, tc (includes scenario_doc) x y → x = JStr "prod").
  { intros x y Hxy. destruct Hxy as [x y Hs|x z y Hs _]; by apply scenario_includes in Hs as [? ?]. }
  assert (Hlast : ∀ x y, tc (includes scenario_doc) x y → y = JStr "default").
  { intros x y Hxy. induction Hxy as [x y Hs|x z y _ _ IH]; [|done].
    by apply scenario_includes in Hs as [? ?]. }
  pose proof (Hfirst _ _ H) as E1. pose proof (Hlast _ _ H) as E2. congruence.
Qed.

Lemma loop_first_include : first_include loop_doc (JStr "a") (JStr "a").
Proof. reflexivity. Qed.

Lemma loop_includes : includes loop_doc (JStr "a") (JStr "a").
Proof. unfold includes. vm_compute. by left. Qed.

Lemma guarded_loop_includes : includes guarded_loop_doc (JStr "p") (JStr "p").
Proof. unfold includes. vm_compute. right. by left. Qed.


(** ** The claims on the resolver *)

(** C2.  Resolution is the resolver of the specification: from an empty
    accumulator, every include is resolved in list order and merged, a later
    include over an earlier one, and the non-["*"] keys of the profile are
    laid over the result.  For includes [[A; B]] the result is the own keys
    over [B]'s options over [A]'s, and ["prod"] of the scenario resolves to
    exactly [region] and [instance_type], with any fuel from 2 on. *)
Theorem resolve_merges_includes_then_own_keys :
  (∀ doc fuel label, resolve doc fuel label = resolve_spec doc fuel label) ∧
  (∀ doc fuel P items A B rA rB own,
     dict_get P doc = Some (JDict items) →
     dict_get "*" items = Some (JList [A; B]) →
     resolve doc fuel A = Ret rA →
     resolve doc fuel B = Ret rB →
     own_options (JStr P) items ∅ = Ret own →
     resolve doc (S fuel) (JStr P) = Ret (own ∪ (rB ∪ rA))) ∧
  (∀ n, resolve scenario_doc (2 + n) (JStr "prod")
        = Ret (<["region" := JStr "us-east-1"]>
                 (<["instance_type" := JStr "m4.large"]> ∅))).
Proof.
  split_and!.
  - apply resolve_resolve_spec.
  - intros doc fuel P items A B rA rB own HP Hstar HA HB Hown.
    rewrite resolve_resolve_spec in *. simpl. rewrite HP, Hstar. simpl.
    rewrite HA, HB. rewrite (right_id_L ∅ (∪)).
    apply (own_options_frame _ _ _ (rB ∪ rA)) in Hown.
    by rewrite (left_id_L ∅ (∪)) in Hown.
  - intros n. rewrite (resolve_mono scenario_doc 2); [|lia|].
    + vm_compute. reflexivity.
    + apply not_diverge. vm_compute. reflexivity.
Qed.

Lemma resolve_merges_includes_then_own_keys_witness :
  resolve [ ("a", JDict [("region", JStr "r1"); ("key", JStr "ka")]);
            ("b", JDict [("region", JStr "r2")]);
            ("p", JDict [("*", JList [JStr "a"; JStr "b"]); ("count", JInt 2)]) ]
    2 (JStr "p")
  = Ret ({[ "count" := JInt 2 ]}
         ∪ ({[ "region" := JStr "r2" ]}
            ∪ <["key" := JStr "ka"]> {[ "region" := JStr "r1" ]})).
Proof.
  destruct resolve_merges_includes_then_own_keys as (_ & H & _).
  eapply H; vm_compute; reflexivity.
Defined.

(** C5, the counterexample: a profile with a key that is not an option, whose
    include list names a missing profile, fails with [UnknownProfile], not
    with [UnknownOption]. *)
Lemma unknown_option_masked_by_include :
  dict_get "p" masked_doc
    = Some (JDict [("*", JList [JStr "missing"]); ("bogus", JInt 1)]) ∧
  ("bogus" ∉ _VALID_KEYS) ∧
  (∀ n, resolve masked_doc (2 + n) (JStr "p")
        = Raise (ValueError_not_found (JStr "missing"))) ∧
  classify (ValueError_not_found (JStr "missing")) = UnknownProfile.
Proof.
  split_and!.
  - reflexivity.
  - vm_compute. intros H. discriminate H.
  - intros n. rewrite (resolve_mono masked_doc 2); [|lia|].
    + vm_compute. reflexivity.
    + apply not_diverge. vm_compute. reflexivity.
  - reflexivity.
Qed.

(** C5, amended.  The checks are made in the order of the traversal, and the
    first one that fails decides the error: a name that is not in the
    document fails with [UnknownProfile]; an entry that is not a dict with
    [InvalidProfileShape]; a ["*"] entry that is not a list with
    [InvalidIncludeList]; the error of the first include that fails is the
    error of the including profile; and once the includes, if any, have been
    resolved, a key other than ["*"] that is not an option fails with
    [UnknownOption].  In all these cases there is no result. *)
Theorem resolve_errors_in_check_order (doc : list (string * json)) (fuel : nat)
  (name : string) :
  (dict_get name doc = None →
   resolve doc (S fuel) (JStr name) = Raise (ValueError_not_found (JStr name))) ∧
  (∀ c, dict_get name doc = Some c → (∀ items, c ≠ JDict items) →
   resolve doc (S fuel) (JStr name) = Raise (ValueError_not_a_dict (JStr name))) ∧
  (∀ items v, dict_get name doc = Some (JDict items) →
   dict_get "*" items = Some v → (∀ l, v ≠ JList l) →
   resolve doc (S fuel) (JStr name) = Raise (ValueError_not_a_list (JStr name))) ∧
  (∀ items pre i post e, dict_get name doc = Some (JDict items) →
   dict_get "*" items = Some (JList (pre ++ i :: post)) →
   Forall (fun j => ∃ r, resolve doc fuel j = Ret r) pre →
   resolve doc fuel i = Raise e →
   resolve doc (S fuel) (JStr name) = Raise e) ∧
  (∀ items, dict_get name doc = Some (JDict items) →
   (dict_get "*" items = None ∨
    ∃ l, dict_get "*" items = Some (JList l) ∧
         Forall (fun j => ∃ r, resolve doc fuel j = Ret r) l) →
   (∃ k, k ∈ items.*1 ∧ k ≠ "*" ∧ k ∉ _VALID_KEYS) →
   ∃ k, k ∈ items.*1 ∧ k ≠ "*" ∧ (k ∉ _VALID_KEYS) ∧
        resolve doc (S fuel) (JStr name)
        = Raise (ValueError_invalid_key k (JStr name))).
Proof.
  split_and!.
  - intros H. rewrite resolve_resolve_spec. simpl. by rewrite H.
  - intros c H Hc. rewrite resolve_resolve_spec. simpl. rewrite H.
    destruct c; try done. by destruct (Hc items).
  - intros items v H Hv Hl. rewrite resolve_resolve_spec. simpl. rewrite H, Hv.
    destruct v; try done. by destruct (Hl l).
  - intros items pre i post e H Hstar Hpre Hi. rewrite resolve_resolve_spec. simpl.
    rewrite H, Hstar. rewrite (merge_includes_raise _ pre i post ∅ e); [done| |].
    + eapply Forall_impl; [exact Hpre|]. intros j [r Hr]. exists r.
      by rewrite <- resolve_resolve_spec.
    + by rewrite <- resolve_resolve_spec.
  - intros items H Hinc Hbad. rewrite resolve_resolve_spec. simpl. rewrite H.
    destruct Hinc as [->|(l & -> & Hl)].
    + by apply own_options_unknown.
    + destruct (merge_includes_all_ret (resolve_spec doc fuel) l ∅) as [m ->].
      * eapply Forall_impl; [exact Hl|]. intros j [r Hr]. exists r.
        by rewrite <- resolve_resolve_spec.
      * by apply own_options_unknown.
Qed.

Lemma resolve_errors_in_check_order_witness :
  resolve masked_doc 1 (JStr "missing") = Raise (ValueError_not_found (JStr "missing")) ∧
  resolve masked_doc 2 (JStr "p") = Raise (ValueError_not_found (JStr "missing")) ∧
  ∃ k, k ∈ [("bogus", JInt 1)].*1 ∧ k ≠ "*" ∧ (k ∉ _VALID_KEYS) ∧
       resolve [("q", JDict [("bogus", JInt 1)])] 1 (JStr "q")
       = Raise (ValueError_invalid_key k (JStr "q")).
Proof.
  split_and!.
  - apply (resolve_errors_in_check_order masked_doc 0 "missing"). reflexivity.
  - destruct (resolve_errors_in_check_order masked_doc 1 "p") as (_ & _ & _ & H & _).
    eapply (H _ [] (JStr "missing") []); [reflexivity|reflexivity|constructor|].
    vm_compute. reflexivity.
  - destruct (resolve_errors_in_check_order [("q", JDict [("bogus", JInt 1)])] 0 "q")
      as (_ & _ & _ & _ & H).
    apply H; [reflexivity|by left|].
    exists "bogus". split_and!; [by left|done|].
    vm_compute. intros Hin. discriminate Hin.
Defined.

(** C8, the counterexample: ["p"] includes itself, so a cycle of includes is
    within its reach, and resolving it terminates all the same, because the
    include list names a missing profile first. *)
Lemma cycle_behind_a_missing_profile :
  tc (includes guarded_loop_doc) (JStr "p") (JStr "p") ∧
  (∀ n, resolve guarded_loop_doc (2 + n) (JStr "p")
        = Raise (ValueError_not_found (JStr "missing"))).
Proof.
  split.
  - apply tc_once, guarded_loop_includes.
  - intros n. rewrite (resolve_mono guarded_loop_doc 2); [|lia|].
    + vm_compute. reflexivity.
    + apply not_diverge. vm_compute. reflexivity.
Qed.

(** C8, amended.  An answer does not depend on the fuel that was enough for
    it.  When no cycle of includes is within reach of [p], resolution
    terminates: any fuel above the size of the document is enough.  When a
    cycle of includes is within reach of [p], resolution has no result: it
    recurses for ever or raises the error of a profile that is visited
    before the cycle is closed.  When the cycle is reached and closed through
    first includes, it recurses for ever. *)
Theorem resolution_terminates_unless_cyclic (doc : list (string * json)) (p : json) :
  (∀ fuel fuel' : nat, (fuel ≤ fuel')%nat → resolve doc fuel p ≠ Diverge →
     resolve doc fuel' p = resolve doc fuel p) ∧
  ((∀ q, rtc (includes doc) p q → ¬ tc (includes doc) q q) →
     ∀ fuel : nat, (length doc < fuel)%nat → resolve doc fuel p ≠ Diverge) ∧
  ((∃ q, rtc (includes doc) p q ∧ tc (includes doc) q q) →
     ∀ fuel r, resolve doc fuel p ≠ Ret r) ∧
  ((∃ q, rtc (first_include doc) p q ∧ tc (first_include doc) q q) →
     ∀ fuel, resolve doc fuel p = Diverge).
Proof.
  split_and!.
  - intros fuel fuel'. apply resolve_mono.
  - intros Hacyclic fuel Hfuel. pose proof (acyclic_enough_fuel doc p Hacyclic) as H.
    rewrite resolve_resolve_spec.
    rewrite (resolve_spec_mono doc (S (length doc))); [done|lia|done].
  - intros (q & Hpq & Hc) fuel r Hr. rewrite resolve_resolve_spec in Hr.
    destruct (ret_rtc doc _ _ _ _ Hpq Hr) as (m & r' & Hr').
    by apply (cycle_no_result doc q m r').
  - intros H fuel. rewrite resolve_resolve_spec. by apply first_cycle_diverges.
Qed.

Lemma resolution_terminates_unless_cyclic_witness :
  resolve scenario_doc 3 (JStr "prod") ≠ Diverge ∧
  (∀ fuel r, resolve loop_doc fuel (JStr "a") ≠ Ret r) ∧
  (∀ fuel, resolve loop_doc fuel (JStr "a") = Diverge).
Proof.
  split_and!.
  - destruct (resolution_terminates_unless_cyclic scenario_doc (JStr "prod"))
      as (_ & H & _).
    apply H; [|simpl; lia]. intros q _. apply scenario_acyclic.
  - destruct (resolution_terminates_unless_cyclic loop_doc (JStr "a"))
      as (_ & _ & H & _).
    apply H. exists (JStr "a"). split; [done|]. apply tc_once, loop_includes.
  - destruct (resolution_terminates_unless_cyclic loop_doc (JStr "a"))
      as (_ & _ & _ & H).
    apply H. exists (JStr "a"). split; [done|]. apply tc_once, loop_first_include.
Defined.

Lemma lookup_label_raise doc fuel label e :
  lookup_label doc label = Raise e → resolve doc (S fuel) label = Raise e.
Proof. intros H. rewrite resolve_resolve_spec. simpl. by rewrite H. Qed.

(** C9.  When [apply] raises, or recurses for ever, the session is the one
    it was called on; an error of the resolution is raised by [apply]; and
    when [apply] returns,
    the whole resolution has returned [total] and the attributes are
    [total] over the former ones. *)
Theorem apply_raise_keeps_attributes (fuel : nat) (label : json) (self : Session) :
  (∀ self' e, apply fuel label self = (self', Raise e) → self' = self) ∧
  (∀ self', apply fuel label self = (self', Diverge) → self' = self) ∧
  (∀ e, resolve (_configurations self) fuel label = Raise e →
        apply fuel label self = (self, Raise e)) ∧
  (∀ self', apply fuel label self = (self', Ret tt) →
        ∃ total, resolve (_configurations self) fuel label = Ret total ∧
                 attrs self' = total ∪ attrs self).
Proof.
  rewrite apply_resolve. split_and!.
  - intros self' e.
    destruct (lookup_label (_configurations self) label) as [c|e'|]; [|congruence..].
    destruct (resolve (_configurations self) fuel label) as [total|e'|]; [|congruence..].
    rewrite setattr_total. congruence.
  - intros self'.
    destruct (lookup_label (_configurations self) label) as [c|e'|]; [|congruence..].
    destruct (resolve (_configurations self) fuel label) as [total|e'|]; [|congruence..].
    rewrite setattr_total. congruence.
  - intros e Hr. destruct fuel as [|fuel]; [done|].
    destruct (lookup_label (_configurations self) label) as [c|e'|] eqn:El.
    + by rewrite Hr.
    + rewrite (lookup_label_raise _ _ _ _ El) in Hr. congruence.
    + by apply lookup_label_total in El.
  - intros self'.
    destruct (lookup_label (_configurations self) label) as [c|e'|]; [|congruence..].
    destruct (resolve (_configurations self) fuel label) as [total|e'|]; [|congruence..].
    rewrite setattr_total. intros [= <-]. by exists total.
Qed.

Lemma apply_raise_keeps_attributes_witness :
  apply 3 (JStr "p") (mkSession masked_doc init_attrs)
  = (mkSession masked_doc init_attrs, Raise (ValueError_not_found (JStr "missing"))) ∧
  ∃ total, resolve scenario_doc 3 (JStr "prod") = Ret total ∧
           attrs (apply 3 (JStr "prod") (mkSession scenario_doc init_attrs)).1
           = total ∪ init_attrs.
Proof.
  split.
  - destruct (apply_raise_keeps_attributes 3 (JStr "p") (mkSession masked_doc init_attrs))
      as (_ & _ & H & _).
    apply H. vm_compute. reflexivity.
  - destruct (apply_raise_keeps_attributes 3 (JStr "prod") (mkSession scenario_doc init_attrs))
      as (_ & _ & _ & H).
    apply H. rewrite apply_resolve. simpl lookup_label. cbv iota.
    rewrite (resolve_mono scenario_doc 2); [|lia|apply not_diverge; vm_compute; reflexivity].
    assert (E : resolve scenario_doc 2 (JStr "prod")
                = Ret (<["region" := JStr "us-east-1"]>
                         (<["instance_type" := JStr "m4.large"]> ∅)))
      by (vm_compute; reflexivity).
    rewrite E. by rewrite setattr_total.
Defined.

(** * Properties of the configuration files *)

Section ConfigStoreFacts.

Variable expanduser : string → string.
Variable read_file : string → option string.
Variable decode : string → option json.

#[local] Abbreviation skipped := (skipped expanduser read_file decode).

Lemma first_decoded_skip pre rest :
  Forall skipped pre →
  first_decoded expanduser read_file decode (pre ++ rest)
  = first_decoded expanduser read_file decode rest.
Proof.
  induction 1 as [|f pre Hf _ IH]; [done|]. simpl. unfold skipped in Hf.
  destruct (read_file (expanduser f)) as [body|]; [|done]. by rewrite Hf.
Qed.

(** The loop of the package returns the first candidate that is read and
    decoded, and the empty document when there is none. *)
Lemma load_configurations_first args pre f post body document :
  candidates args = pre ++ f :: post →
  Forall skipped pre →
  read_file (expanduser f) = Some body →
  decode body = Some document →
  load_configurations expanduser read_file decode args = document.
Proof.
  intros Hc Hpre Hr Hd. unfold load_configurations.
  rewrite Hc, first_decoded_skip by done. simpl. by rewrite Hr, Hd.
Qed.

Lemma load_configurations_none args :
  Forall skipped (candidates args) →
  load_configurations expanduser read_file decode args = JDict [].
Proof.
  intros H. unfold load_configurations.
  rewrite <- (app_nil_r (candidates args)). by rewrite first_decoded_skip.
Qed.

Lemma read_bodies_last pre f post body b0 :
  read_file (expanduser f) = Some body →
  Forall (fun g => read_file (expanduser g) = None) post →
  read_bodies expanduser read_file (pre ++ f :: post) b0 = Some body.
Proof.
  intros Hr Hpost. revert b0. induction pre as [|g pre IH]; intros b0; simpl.
  - rewrite Hr. clear Hr. revert body. induction Hpost as [|g post Hg _ IH]; intros body; simpl; [done|].
    by rewrite Hg.
  - by destruct (read_file (expanduser g)).
Qed.

(** The loop of [foolaunch.py] keeps the last candidate that is read, and
    decodes it outside the [try]. *)
Lemma _load_configurations_last args pre f post body :
  candidates args = pre ++ f :: post →
  read_file (expanduser f) = Some body →
  Forall (fun g => read_file (expanduser g) = None) post →
  body ≠ "" →
  _load_configurations expanduser read_file decode args
  = match decode body with
    | Some document => Ret document
    | None => Raise ValueError_decode
    end.
Proof.
  intros Hc Hr Hpost Hne. unfold _load_configurations.
  rewrite Hc, (read_bodies_last pre f post body None) by done.
  destruct (String.eqb_spec body ""); done.
Qed.

End ConfigStoreFacts.

(** C1.  With [./.foolaunch] and [/etc/foolaunch] both readable, the loader of
    [foolaunch.py] returns the document of [/etc/foolaunch], the last
    candidate, where the loader of the package returns the document of
    [./.foolaunch], the first one; and a last candidate that cannot be
    decoded makes it raise, where the loader of the package skips it. *)
Theorem _load_configurations_last_readable_wins :
  (∀ loads, _load_configurations id two_files loads []
            = match loads body_b with
              | Some document => Ret document
              | None => Raise ValueError_decode
              end) ∧
  _load_configurations id two_files decode_two [] = Ret (JDict [("b", JDict [])]) ∧
  load_configurations id two_files decode_two [] = JDict [("a", JDict [])] ∧
  _load_configurations id garbled_files decode_two [] = Raise ValueError_decode ∧
  load_configurations id garbled_files decode_two [] = JDict [("a", JDict [])].
Proof.
  split_and!; vm_compute; reflexivity.
Qed.

(** * Properties of the block-device layout *)



Lemma device_letters_NoDup : NoDup _DEVICE_LETTER.
Proof. apply (bool_decide_unpack _). vm_compute. reflexivity. Qed.

Lemma volume_count_bound ity count :
  _EC2_INSTANCE_VOLUME_COUNT !! ity = Some count → (count ≤ 24)%nat.
Proof.
  intros H. apply elem_of_list_to_map_2 in H.
  match type of H with
  | _ ∈ ?l => assert (Hall : Forall (fun kv : string * nat => (kv.2 ≤ 24)%nat) l)
                by (repeat constructor; simpl; lia)
  end.
  rewrite Forall_forall in Hall. apply (Hall _ H).
Qed.

Lemma device_path_inj (i j : nat) :
  (i < 701)%nat → (j < 701)%nat → device_path i = device_path j → i = j.
Proof.
  intros Hi Hj. unfold device_path.
  destruct (_DEVICE_LETTER !! i) as [li|] eqn:Ei; last first.
  { apply lookup_ge_None in Ei. change (length _DEVICE_LETTER) with 701%nat in Ei. lia. }
  destruct (_DEVICE_LETTER !! j) as [lj|] eqn:Ej; last first.
  { apply lookup_ge_None in Ej. change (length _DEVICE_LETTER) with 701%nat in Ej. lia. }
  cbv [default String.append]. intros [= ->]. eapply NoDup_lookup; [apply device_letters_NoDup|done..].
Qed.

Lemma device_path_not_root (i : nat) : device_path i ≠ "/dev/xvda".
Proof. unfold device_path. cbv [String.append]. intros [= H]. Qed.

Lemma add_ephemerals (start n : nat) (m : gmap string BlockDeviceType) :
  (start + n ≤ 701)%nat →
  for_each (seq start n) add_ephemeral m
  = (foldl (fun m i => <[device_path i := ephemeral i]> m) m (seq start n), Ret tt).
Proof.
  revert start m. induction n as [|n IH]; intros start m Hle; simpl; [done|].
  unfold bind, add_ephemeral at 1, device_path at 2.
  destruct (_DEVICE_LETTER !! start) as [l|] eqn:El; last first.
  { apply lookup_ge_None in El. change (length _DEVICE_LETTER) with 701%nat in El. lia. }
  unfold modify. simpl. rewrite IH by lia. done.
Qed.

Lemma ephemerals_lookup_other (start n : nat) (m : gmap string BlockDeviceType) k :
  (∀ i, (start ≤ i < start + n)%nat → device_path i ≠ k) →
  foldl (fun m i => <[device_path i := ephemeral i]> m) m (seq start n) !! k = m !! k.
Proof.
  revert start m. induction n as [|n IH]; intros start m Hk; simpl; [done|].
  rewrite IH; [|intros i Hi; apply Hk; lia].
  rewrite lookup_insert_ne; [done|]. apply Hk. lia.
Qed.


Section DeviceMapperFacts.

Variable py_ne : json → json → bool.

#[local] Abbreviation root_entry := (root_entry py_ne).

Lemma add_root_volume_spec image root_volume_size :
  add_root_volume py_ne image root_volume_size ∅
  = (root_entry image root_volume_size,
     if truthy root_volume_size then
       match block_device_mapping image !! "/dev/xvda" with
       | Some _ => Ret tt
       | None => Raise (KeyError (JStr "/dev/xvda"))
       end
     else Ret tt).
Proof.
  unfold add_root_volume, root_entry, bind, lift, getitem.
  destruct (truthy root_volume_size); [|done].
  destruct (block_device_mapping image !! "/dev/xvda") as [root|]; [|done].
  by destruct (py_ne (size root) root_volume_size).
Qed.

(** With a known instance type, and a root device at [/dev/xvda] when a size
    is asked for, the mapping is the root entry and the ephemeral volumes. *)
Lemma _make_block_device_map_known image ity root_volume_size count :
  _EC2_INSTANCE_VOLUME_COUNT !! ity = Some count →
  (truthy root_volume_size = true → is_Some (block_device_mapping image !! "/dev/xvda")) →
  let m := foldl (fun m i => <[device_path i := ephemeral i]> m)
             (root_entry image root_volume_size) (seq 0 count) in
  _make_block_device_map py_ne image (JStr ity) root_volume_size
  = Ret (if decide (0 < base.size m)%nat then Some m else None).
Proof.
  intros Hc Hroot m. unfold _make_block_device_map, make_block_device_map_body, bind.
  rewrite add_root_volume_spec.
  assert (E : (if truthy root_volume_size then
                 match block_device_mapping image !! "/dev/xvda" with
                 | Some _ => Ret tt
                 | None => Raise (KeyError (JStr "/dev/xvda"))
                 end
               else Ret tt) = Ret tt).
  { destruct (truthy root_volume_size); [|done]. by destruct Hroot as [? ->]. }
  rewrite E. unfold lift, getitem. rewrite Hc.
  rewrite add_ephemerals by (apply volume_count_bound in Hc; lia).
  unfold get. fold m. by destruct (decide (0 < base.size m)%nat).
Qed.

Lemma _make_block_device_map_unknown image ity root_volume_size :
  _EC2_INSTANCE_VOLUME_COUNT !! ity = None →
  _make_block_device_map py_ne image (JStr ity) root_volume_size
  = if truthy root_volume_size then
      match block_device_mapping image !! "/dev/xvda" with
      | Some _ => Raise (KeyError (JStr ity))
      | None => Raise (KeyError (JStr "/dev/xvda"))
      end
    else Raise (KeyError (JStr ity)).
Proof.
  intros Hc. unfold _make_block_device_map, make_block_device_map_body, bind.
  rewrite add_root_volume_spec. unfold lift, getitem. rewrite Hc.
  destruct (truthy root_volume_size); [|done].
  by destruct (block_device_mapping image !! "/dev/xvda").
Qed.

Lemma _make_block_device_map_no_root image instance_type root_volume_size :
  truthy root_volume_size = true →
  block_device_mapping image !! "/dev/xvda" = None →
  _make_block_device_map py_ne image instance_type root_volume_size
  = Raise (KeyError (JStr "/dev/xvda")).
Proof.
  intros Ht Hn. unfold _make_block_device_map, make_block_device_map_body, bind.
  rewrite add_root_volume_spec. by rewrite Ht, Hn.
Qed.

End DeviceMapperFacts.

Lemma volume_count_pos ity count :
  _EC2_INSTANCE_VOLUME_COUNT !! ity = Some count → (1 ≤ count)%nat.
Proof.
  intros H. apply elem_of_list_to_map_2 in H.
  match type of H with
  | _ ∈ ?l => assert (Hall : Forall (fun kv : string * nat => (1 ≤ kv.2)%nat) l)
                by (repeat constructor; simpl; lia)
  end.
  rewrite Forall_forall in Hall. apply (Hall _ H).
Qed.



(** C7, the counterexample: [m4.large] is not in the table, a root volume
    size is asked for, and the image has its root device at [/dev/sda1]; the
    error is the one of the missing [/dev/xvda], not the one of the
    instance type. *)
Lemma unknown_type_behind_missing_root_device :
  _EC2_INSTANCE_VOLUME_COUNT !! "m4.large" = None ∧
  (∀ py_ne, _make_block_device_map py_ne other_image (JStr "m4.large") (JInt 100)
            = Raise (KeyError (JStr "/dev/xvda"))) ∧
  KeyError (JStr "/dev/xvda") ≠ KeyError (JStr "m4.large").
Proof. split_and!; [vm_compute; reflexivity|intros; vm_compute; reflexivity|discriminate]. Qed.

(** C7, amended.  For an instance type that is not in the table, no mapping
    is returned.  The error is the one of the instance type when no root
    volume size is asked for, and when one is asked for and the image has a
    device [/dev/xvda]; when a size is asked for and the image has no
    [/dev/xvda], the error is the one of the missing device. *)
Theorem unknown_instance_type_fails (py_ne : json → json → bool) (image : Image)
  (ity : string) (root_volume_size : json) :
  _EC2_INSTANCE_VOLUME_COUNT !! ity = None →
  _make_block_device_map py_ne image (JStr ity) root_volume_size
  = if truthy root_volume_size then
      match block_device_mapping image !! "/dev/xvda" with
      | Some _ => Raise (KeyError (JStr ity))
      | None => Raise (KeyError (JStr "/dev/xvda"))
      end
    else Raise (KeyError (JStr ity)).
Proof. apply _make_block_device_map_unknown. Qed.

Lemma unknown_instance_type_fails_witness :
  _make_block_device_map ne_sizes amzn_image (JStr "m4.large") (JInt 100)
  = Raise (KeyError (JStr "m4.large")).
Proof.
  apply (unknown_instance_type_fails ne_sizes amzn_image "m4.large" (JInt 100)).
  vm_compute. reflexivity.
Defined.

(** * Properties of the launch *)

Section Logs.

Context {W : Type}.
Implicit Types (P : call → Prop) (st : W * list call).

Lemma logs_ret {A} (a : A) P (Q : A → Prop) :
  Q a → logs (ret (St := W * list call) a) P Q.
Proof.
  intros Ha st. exists []. simpl. rewrite app_nil_r.
  split_and!; [done|constructor|]. by intros ? [= <-].
Qed.

Lemma logs_lift {A} (r : res A) P (Q : A → Prop) :
  (∀ a, r = Ret a → Q a) → logs (lift (St := W * list call) r) P Q.
Proof.
  intros Hr st. exists []. simpl. rewrite app_nil_r. split_and!; [done|constructor|done].
Qed.

Lemma logs_raise {A} e P (Q : A → Prop) : logs (raise (St := W * list call) e) P Q.
Proof. apply (logs_lift (Raise e)). by intros. Qed.

Lemma logs_diverge {A} P (Q : A → Prop) : logs (diverge (St := W * list call)) P Q.
Proof. apply (logs_lift Diverge). by intros. Qed.

Lemma logs_bind {A B} (m : M (W * list call) A) (k : A → M (W * list call) B)
  P (Q : A → Prop) (R : B → Prop) :
  logs m P Q → (∀ a, Q a → logs (k a) P R) → logs (bind m k) P R.
Proof.
  intros Hm Hk st. destruct (Hm st) as (ext & E & HP & HQ). unfold bind.
  destruct (m st) as [st1 [a| |]]; simpl in *.
  - destruct (Hk a (HQ a eq_refl) st1) as (ext' & E' & HP' & HR).
    exists (ext ++ ext'). rewrite E', E, (assoc_L (++)).
    split_and!; [done|by apply Forall_app|done].
  - exists ext. split_and!; [done..|]. by intros.
  - exists ext. split_and!; [done..|]. by intros.
Qed.

Lemma logs_seq {A B} (m : M (W * list call) A) (k : A → M (W * list call) B)
  P (R : B → Prop) :
  logs m P (fun _ => True) → (∀ a, logs (k a) P R) → logs (bind m k) P R.
Proof. intros Hm Hk. eapply logs_bind; [exact Hm|]. intros a _. apply Hk. Qed.

Lemma logs_weaken {A} (m : M (W * list call) A) P P' (Q Q' : A → Prop) :
  logs m P Q → (∀ c, P c → P' c) → (∀ a, Q a → Q' a) → logs m P' Q'.
Proof.
  intros Hm HP HQ st. destruct (Hm st) as (ext & E & F & G). exists ext.
  split_and!; [done|by eapply Forall_impl|]. intros a Ha. by apply HQ, G.
Qed.

Lemma logs_request {T} (c : call) (endpoint : W → W * res T) P (Q : T → Prop) :
  P c → (∀ w w' a, endpoint w = (w', Ret a) → Q a) → logs (request c endpoint) P Q.
Proof.
  intros Hc HQ [w tr]. exists [c]. unfold request. simpl.
  destruct (endpoint w) as [w' r] eqn:E. simpl.
  split_and!; [done|by constructor|]. intros a ->. by eapply HQ.
Qed.

Lemma logs_method {T} conn name (m : M (W * list call) T) P (Q : T → Prop) :
  logs m P Q → logs (method conn name m) P Q.
Proof. intros Hm. destruct conn; [done|apply logs_raise]. Qed.

Lemma logs_getattr self name P (Q : json → Prop) :
  (∀ v, attrs self !! name = Some v → Q v) → logs (getattr (W := W) self name) P Q.
Proof.
  intros HQ. apply logs_lift. intros a. destruct (attrs self !! name); [|done].
  intros [= <-]. by apply HQ.
Qed.

Lemma logs_for_each {A} (l : list A) (body : A → M (W * list call) unit) P :
  (∀ x, logs (body x) P (fun _ => True)) → logs (for_each l body) P (fun _ => True).
Proof.
  intros Hb. induction l as [|x l IH]; simpl; [by apply logs_ret|].
  eapply logs_bind; [apply Hb|]. by intros.
Qed.

End Logs.

(** One step of a proof that a computation logs calls of a given kind only. *)
Ltac logs_step :=
  first
    [ apply logs_ret; exact I
    | apply logs_raise
    | apply logs_diverge
    | apply logs_method
    | apply logs_getattr; intros; exact I
    | apply logs_lift; intros; exact I
    | apply logs_request; [solve [auto]|intros; exact I]
    | apply logs_seq; [|intros ?]
    | match goal with
      | |- logs (if ?b then _ else _) _ _ => destruct b
      | |- logs (match ?x with _ => _ end) _ _ => destruct x
      end ].

Section LaunchFacts.

Context (py_ne : json → json → bool) (prices : gmap (string * string) float).
Context {W : Type} (cloud : Cloud W).

Lemma connect_logs self P (Q : option string → Prop) :
  (∀ c, is_lookup c = true → P c) →
  (∀ region profile w w' c,
     connect_to_region cloud "ec2" region profile w = (w', Ret c) → Q c) →
  logs (connect cloud self) P (fun conn => Q (ec2 conn)).
Proof.
  intros HP HQ. unfold connect.
  apply logs_seq; [apply logs_getattr; intros; exact I|intros region].
  apply logs_seq; [apply logs_getattr; intros; exact I|intros profile].
  eapply (logs_bind _ _ _ Q).
  { apply logs_request; [by apply HP|]. intros w w' a. apply HQ. }
  intros c_ec2 Hc. repeat logs_step; try (by apply HP). by apply logs_ret.
Qed.

Lemma wait_spot_logs fuel ec2 rid P :
  (∀ c, is_creation c = true → P c) →
  logs (wait_spot cloud fuel ec2 rid) P (fun _ => True).
Proof.
  intros HP. induction fuel as [|fuel IH]; simpl; [apply logs_diverge|].
  apply logs_seq; [apply logs_request; [by apply HP|intros; exact I]|intros ?].
  apply logs_seq;
    [apply logs_method, logs_request; [by apply HP|intros; exact I]|intros found].
  destruct found as [|spot ?]; [apply logs_raise|].
  destruct (String.eqb (state spot) "open"); [done|by apply logs_ret].
Qed.

Lemma collect_spot_logs fuel ec2 rids ids P :
  (∀ c, is_creation c = true → P c) →
  logs (collect_spot cloud fuel ec2 rids ids) P (fun _ => True).
Proof.
  intros HP. revert ids. induction rids as [|rid rids IH]; intros ids; simpl.
  - by apply logs_ret.
  - apply logs_seq; [by apply wait_spot_logs|intros spot].
    destruct (negb _); apply IH.
Qed.

Lemma create_instances_logs fuel self conn image kw P :
  (∀ c, is_creation c = true → P c) →
  logs (create_instances prices cloud fuel self conn image kw) P (fun _ => True).
Proof.
  intros HP. unfold create_instances, create_spot, create_on_demand.
  apply logs_seq; [apply logs_getattr; intros; exact I|intros spot].
  destruct (truthy spot).
  - cbv zeta. repeat logs_step; try (by apply HP). by apply collect_spot_logs.
  - cbv zeta. repeat logs_step; by apply HP.
Qed.

Lemma plan_logs self P (Q : option string → Prop) :
  (∀ c, is_lookup c = true → P c) →
  (∀ region profile w w' c,
     connect_to_region cloud "ec2" region profile w = (w', Ret c) → Q c) →
  logs (plan py_ne cloud self) P (fun planned => Q (ec2 planned.1.1)).
Proof.
  intros HP HQ. unfold plan.
  eapply logs_bind; [by apply connect_logs|intros conn Hconn].
  unfold _lookup_ami_id, find_subnet_id, _lookup_security_group_ids, make_create_kwargs.
  cbv zeta.
  do 9 (apply logs_seq; [repeat logs_step; by apply HP|intros ?]).
  by apply logs_ret.
Qed.

Lemma launch_logs fuel self P (Q : option string → Prop)
  (R : _Connections * list Instance → Prop) :
  (∀ c, is_lookup c = true → P c) →
  (∀ region profile w w' c,
     connect_to_region cloud "ec2" region profile w = (w', Ret c) → Q c) →
  (∀ conn image kw, Q (ec2 conn) →
     logs (let! instance_ids := create_instances prices cloud fuel self conn image kw in
           finalize cloud self conn instance_ids) P R) →
  logs (launch py_ne prices cloud fuel self) P R.
Proof.
  intros HP HQ Hrest. unfold launch.
  eapply logs_bind; [by apply plan_logs|]. intros [[conn image] kw] Hq.
  by apply Hrest.
Qed.

Lemma finalize_dry_logs self conn ids d :
  attrs self !! "dry_run" = Some d → truthy d = true →
  logs (finalize cloud self conn ids) (dry_call d) (fun _ => True).
Proof.
  intros Hd Ht. unfold finalize. destruct ids as [|i ids]; [by apply logs_ret|].
  assert (Hread : ∀ P, logs (getattr (W := W) self "dry_run") P (fun v => v = d)).
  { intros P. apply logs_getattr. intros v Hv. congruence. }
  apply logs_seq; [apply logs_getattr; intros; exact I|intros name].
  apply logs_seq.
  { destruct (truthy name); [|by apply logs_ret].
    apply logs_method. eapply logs_bind; [apply Hread|]. intros v ->.
    apply logs_request; [done|intros; exact I]. }
  intros _. apply logs_seq; [apply logs_getattr; intros; exact I|intros tags].
  apply logs_seq.
  { destruct (truthy tags); [|by apply logs_ret].
    apply logs_method. eapply logs_bind; [apply Hread|]. intros v ->.
    apply logs_request; [done|intros; exact I]. }
  intros _. eapply logs_bind; [apply Hread|]. intros v ->. rewrite Ht. simpl.
  apply logs_seq; [by apply logs_ret|intros _].
  apply logs_seq; [apply logs_method, logs_request; [done|intros; exact I]|intros ?].
  by apply logs_ret.
Qed.


(** ** Returned values *)

Lemma bind_ret_inv {St A B} (m : M St A) (k : A → M St B) st st' b :
  bind m k st = (st', Ret b) → ∃ a st1, m st = (st1, Ret a) ∧ k a st1 = (st', Ret b).
Proof.
  unfold bind. destruct (m st) as [st1 [a|e|]]; [|done..]. intros H. by exists a, st1.
Qed.

Lemma request_ret_inv {T} (c : call) (endpoint : W → W * res T) st st' a :
  request c endpoint st = (st', Ret a) →
  endpoint st.1 = (st'.1, Ret a) ∧ st'.2 = st.2 ++ [c].
Proof.
  unfold request. destruct (endpoint st.1) as [w' r]. intros [= <- ->]. done.
Qed.

Lemma method_ret_inv {T} conn name (m : M (W * list call) T) st st' a :
  method conn name m st = (st', Ret a) → m st = (st', Ret a).
Proof. by destruct conn. Qed.

(** With instance ids, [finalize] returns the connections it was given and
    the instances of the reservations that [get_all_instances] answers for
    these ids, its last call. *)
Lemma finalize_returns self conn ids st st' r :
  ids ≠ [] →
  finalize cloud self conn ids st = (st', Ret r) →
  r.1 = conn ∧
  ∃ w reservations tr,
    get_all_instances cloud ids w = (st'.1, Ret reservations) ∧
    r.2 = concat reservations ∧
    st'.2 = tr ++ [GetAllInstances ids].
Proof.
  intros Hne. unfold finalize. destruct ids as [|i ids]; [done|].
  intros H.
  apply bind_ret_inv in H as (name & st1 & _ & H).
  apply bind_ret_inv in H as (? & st2 & _ & H).
  apply bind_ret_inv in H as (tags & st3 & _ & H).
  apply bind_ret_inv in H as (? & st4 & _ & H).
  apply bind_ret_inv in H as (dry_run & st5 & _ & H).
  apply bind_ret_inv in H as (? & st6 & _ & H).
  apply bind_ret_inv in H as (reservations & st7 & Hget & H).
  apply method_ret_inv, request_ret_inv in Hget as [Hget Htr].
  injection H as <- <-. split; [done|]. by exists st6.1, reservations, st6.2.
Qed.

(** ** Polling *)

(** [wait_spot] returns a request that is no longer open, after at least
    one poll and at most as many polls as the fuel; every poll is a pause of
    five seconds and a question about this request. *)
Lemma wait_spot_returns (fuel : nat) ec2 rid st st' spot :
  wait_spot cloud fuel ec2 rid st = (st', Ret spot) →
  state spot ≠ "open" ∧
  ∃ k : nat, (1 ≤ k ≤ fuel)%nat ∧ st'.2 = st.2 ++ poll_calls k rid.
Proof.
  revert st. induction fuel as [|fuel IH]; intros st; simpl; [done|].
  intros H.
  apply bind_ret_inv in H as ([] & st1 & Hsleep & H).
  apply bind_ret_inv in H as (found & st2 & Hget & H).
  apply request_ret_inv in Hsleep as [_ Htr1].
  apply method_ret_inv, request_ret_inv in Hget as [_ Htr2].
  destruct found as [|s found]; [done|].
  destruct (String.eqb_spec (state s) "open") as [Hopen|Hopen].
  - destruct (IH _ H) as (Hs & k & Hk & Htr). split; [done|].
    exists (S k). split; [lia|]. rewrite Htr, Htr2, Htr1. simpl.
    by rewrite <- !(assoc_L (++)).
  - injection H as <- <-. split; [done|]. exists 1%nat. split; [lia|].
    rewrite Htr2, Htr1. simpl. by rewrite <- !(assoc_L (++)).
Qed.

(** While the answer is [open], the request is polled again. *)
Lemma wait_spot_open (fuel : nat) region rid st w1 w2 spot found :
  sleep cloud 5 st.1 = (w1, Ret tt) →
  get_all_spot_instance_requests cloud rid w1 = (w2, Ret (spot :: found)) →
  state spot = "open" →
  wait_spot cloud (S fuel) (Some region) rid st
  = wait_spot cloud fuel (Some region) rid
      (w2, st.2 ++ [Sleep 5; GetAllSpotInstanceRequests rid]).
Proof.
  intros Hs Hg Ho. simpl. unfold bind, request, method. simpl. rewrite Hs. simpl.
  rewrite Hg, Ho. simpl. by rewrite <- (assoc_L (++)).
Qed.

(** The ids that [collect_spot] returns are those of the requests that are
    active when they are no longer open, in the order of the batch. *)
Lemma collect_spot_polled (fuel : nat) ec2 rids ids st st' result :
  collect_spot cloud fuel ec2 rids ids st = (st', Ret result) ↔
  ∃ spots, polled cloud fuel ec2 rids st spots st' ∧
           result = ids ++ map instance_id (List.filter is_active spots).
Proof.
  revert ids st result. induction rids as [|rid rids IH]; intros ids st result; simpl.
  - split.
    + intros [= <- <-]. exists []. split; [constructor|by rewrite app_nil_r].
    + intros (spots & Hp & ->). inversion Hp; subst. simpl. by rewrite app_nil_r.
  - split.
    + intros H. apply bind_ret_inv in H as (spot & st1 & Hw & H).
      change (String.eqb (state spot) "active") with (is_active spot) in H.
      destruct (is_active spot) eqn:Ea; simpl in H.
      * apply IH in H as (spots & Hp & ->). exists (spot :: spots).
        split; [by econstructor|]. simpl. rewrite Ea. simpl.
        by rewrite <- (assoc_L (++)).
      * apply IH in H as (spots & Hp & ->). exists (spot :: spots).
        split; [by econstructor|]. simpl. by rewrite Ea.
    + intros (spots & Hp & ->). inversion Hp as [|? ? ? spot st1 spots' ? Hw Hp']; subst.
      unfold bind. rewrite Hw. simpl.
      change (String.eqb (state spot) "active") with (is_active spot).
      destruct (is_active spot) eqn:Ea; simpl.
      * apply IH. exists spots'. split; [done|]. by rewrite <- (assoc_L (++)).
      * apply IH. by exists spots'.
Qed.

(** ** Fuel *)

Lemma stable_const {St A} (m : M St A) : stable (fun _ => m).
Proof. by intros n st _. Qed.

Lemma stable_bind {St A B} (m : nat → M St A) (k : nat → A → M St B) :
  stable m → (∀ a, stable (fun n => k n a)) → stable (fun n => bind (m n) (k n)).
Proof.
  intros Hm Hk n st. unfold bind. specialize (Hm n st).
  destruct (m n st) as [st1 [a|e|]] eqn:E; simpl in *.
  - rewrite Hm by done. apply Hk.
  - by rewrite Hm.
  - done.
Qed.

Lemma stable_iter {St A} (f : nat → M St A) (n k : nat) st :
  stable f → is_diverge (f n st).2 = false → f (k + n)%nat st = f n st.
Proof.
  intros Hf Hn. induction k as [|k IH]; [done|]. simpl. rewrite Hf; [done|]. by rewrite IH.
Qed.

Lemma wait_spot_stable ec2 rid : stable (fun n => wait_spot cloud n ec2 rid).
Proof.
  intros n. induction n as [|n IH]; intros st; [done|].
  change (wait_spot cloud (S (S n)) ec2 rid st) with
    ((request (Sleep 5) (sleep cloud 5) >>
      let! found := method ec2 "get_all_spot_instance_requests"
                      (request (GetAllSpotInstanceRequests rid)
                         (get_all_spot_instance_requests cloud rid)) in
      match found with
      | spot :: _ => if String.eqb (state spot) "open"
                     then wait_spot cloud (S n) ec2 rid else ret spot
      | [] => raise IndexError
      end) st).
  simpl. unfold bind.
  destruct (request (Sleep 5) (sleep cloud 5) st) as [st1 [[]|e|]]; [|done..].
  destruct (method ec2 _ _ st1) as [st2 [found|e|]]; [|done..].
  destruct found as [|spot found]; [done|].
  destruct (String.eqb (state spot) "open"); [apply IH|done].
Qed.

Lemma collect_spot_stable ec2 rids ids :
  stable (fun n => collect_spot cloud n ec2 rids ids).
Proof.
  revert ids. induction rids as [|rid rids IH]; intros ids; simpl.
  - apply stable_const.
  - apply (stable_bind (fun n => wait_spot cloud n ec2 rid)); [apply wait_spot_stable|].
    intros spot. destruct (negb _); apply IH.
Qed.

Lemma create_instances_stable self conn image kw :
  stable (fun n => create_instances prices cloud n self conn image kw).
Proof.
  unfold create_instances, create_spot.
  apply (stable_bind (fun _ => _)); [apply stable_const|]. intros spot.
  destruct (truthy spot); [|apply stable_const]. cbv zeta.
  repeat (apply (stable_bind (fun _ => _)); [apply stable_const|]; intros ?).
  apply collect_spot_stable.
Qed.

Lemma launch_stable self : stable (fun n => launch py_ne prices cloud n self).
Proof.
  unfold launch.
  apply (stable_bind (fun _ => _)); [apply stable_const|]. intros [[conn image] kw].
  apply stable_bind; [apply create_instances_stable|]. intros ids. apply stable_const.
Qed.

(** [launch] returns what [finalize] returns for the ids that the creation
    step returns after the plan. *)
Lemma launch_ret_inv (fuel : nat) self st st' r :
  launch py_ne prices cloud fuel self st = (st', Ret r) →
  ∃ conn image kw st1 ids st2,
    plan py_ne cloud self st = (st1, Ret (conn, image, kw)) ∧
    create_instances prices cloud fuel self conn (image_id image) kw st1
    = (st2, Ret ids) ∧
    finalize cloud self conn ids st2 = (st', Ret r).
Proof.
  unfold launch. intros H.
  apply bind_ret_inv in H as ([[conn image] kw] & st1 & Hplan & H).
  apply bind_ret_inv in H as (ids & st2 & Hcreate & H).
  by exists conn, image, kw, st1, ids, st2.
Qed.

(** ** The price of a spot request *)

Lemma create_spot_unlisted (fuel : nat) self conn image kw st count ity region :
  attrs self !! "count" = Some count →
  attrs self !! "instance_type" = Some (JStr ity) →
  ec2 conn = Some region →
  prices !! (ity, region) = None →
  create_spot prices cloud fuel self conn image kw st
  = (st, Raise (KeyError_pair (JStr ity) region)).
Proof.
  intros Hc Hi Hr Hp. unfold create_spot, bind, getattr, lift, price_lookup.
  rewrite Hc, Hi, Hr. simpl. by rewrite Hp.
Qed.

Lemma create_spot_listed (fuel : nat) self conn image kw st count ity region listed price :
  attrs self !! "count" = Some count →
  attrs self !! "instance_type" = Some (JStr ity) →
  ec2 conn = Some region →
  prices !! (ity, region) = Some listed →
  attrs self !! "price" = Some price →
  let bid := if truthy price then price else JFloat listed in
  let kw' := set_if (truthy count) "count" (KV count) kw in
  create_spot prices cloud fuel self conn image kw st
  = (let! result := request (RequestSpotInstances bid image kw')
                      (request_spot_instances cloud bid image kw') in
     collect_spot cloud fuel (Some region) (map request_id result) []) st.
Proof.
  intros Hc Hi Hr Hp Hprice. unfold create_spot, bind, getattr, lift, price_lookup, method.
  rewrite Hc, Hi, Hr. simpl. rewrite Hp, Hprice. done.
Qed.

Lemma create_instances_unlisted_logs (fuel : nat) self conn image kw spot ity :
  attrs self !! "spot" = Some spot → truthy spot = true →
  attrs self !! "instance_type" = Some (JStr ity) →
  (∀ region, ec2 conn = Some region → prices !! (ity, region) = None) →
  logs (create_instances prices cloud fuel self conn image kw)
    (fun c => is_spot_request c = false) (fun _ => False).
Proof.
  intros Hs Ht Hi Hp. unfold create_instances.
  eapply (logs_bind _ _ _ (fun v => v = spot)).
  { apply logs_getattr. intros v Hv. congruence. }
  intros v ->. rewrite Ht. unfold create_spot. cbv zeta.
  apply logs_seq; [apply logs_getattr; intros; exact I|intros count].
  eapply (logs_bind _ _ _ (fun v => v = JStr ity)).
  { apply logs_getattr. intros v Hv. congruence. }
  intros v ->.
  eapply (logs_bind _ _ _ (fun r => ec2 conn = Some r)).
  { destruct (ec2 conn) as [r|]; [by apply logs_ret|apply logs_raise]. }
  intros region Hr.
  eapply (logs_bind _ _ _ (fun _ => False)); [|done].
  apply logs_lift. intros a. unfold price_lookup. by rewrite (Hp _ Hr).
Qed.

End LaunchFacts.

(** * Computations that succeed *)

Section Succeeds.

Context {W : Type}.

Lemma succeeds_ret {A} (a : A) (Q : A → Prop) :
  Q a → succeeds (ret (St := W * list call) a) [] Q.
Proof. intros Ha [w tr]. exists w, a. simpl. by rewrite app_nil_r. Qed.

Lemma succeeds_lift {A} (r : res A) (a : A) (Q : A → Prop) :
  r = Ret a → Q a → succeeds (lift (St := W * list call) r) [] Q.
Proof. intros -> Ha [w tr]. exists w, a. simpl. by rewrite app_nil_r. Qed.

Lemma succeeds_bind {A B} (m : M (W * list call) A) (k : A → M (W * list call) B)
  e1 e2 (Q : A → Prop) (R : B → Prop) :
  succeeds m e1 Q → (∀ a, Q a → succeeds (k a) e2 R) → succeeds (bind m k) (e1 ++ e2) R.
Proof.
  intros Hm Hk st. destruct (Hm st) as (w1 & a & E & Ha). unfold bind. rewrite E.
  destruct (Hk a Ha (w1, st.2 ++ e1)) as (w2 & b & E' & Hb). rewrite E'.
  exists w2, b. simpl. by rewrite (assoc_L (++)).
Qed.

Lemma succeeds_request {T} (c : call) (endpoint : W → W * res T) (Q : T → Prop) :
  (∀ w, ∃ w' a, endpoint w = (w', Ret a) ∧ Q a) → succeeds (request c endpoint) [c] Q.
Proof.
  intros H [w tr]. destruct (H w) as (w' & a & E & Ha). exists w', a.
  unfold request. simpl. by rewrite E.
Qed.

Lemma succeeds_getattr (self : Session) (name : string) (v : json) :
  attrs self !! name = Some v → succeeds (getattr (W := W) self name) [] (fun a => a = v).
Proof. intros H. unfold getattr. rewrite H. by apply (succeeds_lift _ v). Qed.

Lemma succeeds_for_each {A} (l : list A) (body : A → M (W * list call) unit)
  (c : A → call) :
  (∀ x, succeeds (body x) [c x] (fun _ => True)) →
  succeeds (for_each l body) (map c l) (fun _ => True).
Proof.
  intros Hb. induction l as [|x l IH]; simpl; [by apply succeeds_ret|].
  apply (succeeds_bind _ _ [c x] (map c l) (fun _ => True)); [apply Hb|by intros].
Qed.

End Succeeds.

Section Settled.

Context (py_ne : json → json → bool) (prices : gmap (string * string) float).
Context {W : Type} (cloud : Cloud W).

(** An answer that is not [open] ends the wait: the request is returned,
    whatever its state, after the pause and the question. *)
Lemma wait_spot_settled (fuel : nat) region rid st w1 w2 spot found :
  sleep cloud 5 st.1 = (w1, Ret tt) →
  get_all_spot_instance_requests cloud rid w1 = (w2, Ret (spot :: found)) →
  state spot ≠ "open" →
  wait_spot cloud (S fuel) (Some region) rid st
  = ((w2, st.2 ++ [Sleep 5; GetAllSpotInstanceRequests rid]), Ret spot).
Proof.
  intros Hs Hg Hn. simpl. unfold bind, request, method. rewrite Hs. simpl.
  rewrite Hg. simpl. destruct (String.eqb_spec (state spot) "open"); [done|].
  unfold ret. by rewrite <- (assoc_L (++)).
Qed.

(** Once the wait for a request has returned, the batch goes on with the
    requests that remain: with the instance id of the request when it is
    [active], without it in every other state. *)
Lemma collect_spot_next (fuel : nat) ec2 rid rids ids st st1 spot :
  wait_spot cloud fuel ec2 rid st = (st1, Ret spot) →
  collect_spot cloud fuel ec2 (rid :: rids) ids st
  = collect_spot cloud fuel ec2 rids
      (if is_active spot then ids ++ [instance_id spot] else ids) st1.
Proof.
  intros H. simpl. unfold bind. rewrite H. unfold is_active.
  by destruct (String.eqb (state spot) "active").
Qed.

(** When the steps before the creation return, the connection to EC2 is
    there: the image has been looked up through it. *)
Lemma plan_connected self :
  logs (plan py_ne cloud self) (fun _ => True)
    (fun planned => is_Some (ec2 planned.1.1)).
Proof.
  unfold plan.
  apply logs_seq.
  { eapply logs_weaken; [apply (connect_logs cloud self (fun _ => True) (fun _ => True))|..];
      done. }
  intros conn.
  apply logs_seq; [apply logs_getattr; intros; exact I|intros image_name].
  destruct (ec2 conn) as [region|] eqn:Hec2.
  - unfold _lookup_ami_id, find_subnet_id, _lookup_security_group_ids,
      make_create_kwargs. cbv zeta.
    do 8 (apply logs_seq; [repeat logs_step; done|intros ?]).
    apply logs_ret. simpl. by rewrite Hec2.
  - eapply (logs_bind _ _ _ (fun _ => False)); [|done].
    unfold _lookup_ami_id. simpl.
    eapply (logs_bind _ _ _ (fun _ => False)); [apply logs_raise|done].
Qed.

(** What follows the creation in a dry run, with a provider whose tagging
    and lookup requests succeed: the [Name] tag when a name is configured,
    the tags when tags are configured, each with the flag of the session,
    and the lookup of the instances. *)
Lemma finalize_dry_succeeds self conn ids name tags d region :
  ids ≠ [] →
  attrs self !! "name" = Some name →
  attrs self !! "tags" = Some tags →
  attrs self !! "dry_run" = Some d → truthy d = true →
  ec2 conn = Some region →
  (∀ i t f w, ∃ w', create_tags cloud i t f w = (w', Ret tt)) →
  (∀ i w, ∃ w' reservations, get_all_instances cloud i w = (w', Ret reservations)) →
  succeeds (finalize cloud self conn ids)
    (finalize_calls_of ids name tags d [])
    (fun r => r.1 = conn ∧
              ∃ w w' reservations,
                get_all_instances cloud ids w = (w', Ret reservations) ∧
                r.2 = concat reservations).
Proof.
  intros Hids Hname Htags Hdry Ht Hec2 Htag Hget.
  unfold finalize, finalize_calls_of. destruct ids as [|i ids]; [done|].
  set (all := i :: ids) in *. clearbody all. rewrite Hec2. unfold method.
  assert (Htagging : ∀ t,
            succeeds (let! dry_run := getattr self "dry_run" in
                      request (CreateTags all t dry_run) (create_tags cloud all t dry_run))
              [CreateTags all t d] (fun _ => True)).
  { intros t. apply (succeeds_bind _ _ [] [CreateTags all t d] (fun a => a = d)).
    - by apply succeeds_getattr.
    - intros ? ->. apply succeeds_request. intros w.
      destruct (Htag all t d w) as [w' ->]. by exists w', tt. }
  apply (succeeds_bind _ _ [] _ (fun a => a = name)); [by apply succeeds_getattr|].
  intros ? ->.
  apply (succeeds_bind _ _ _ _ (fun _ => True)).
  { destruct (truthy name); [apply Htagging|by apply succeeds_ret]. }
  intros _ _.
  apply (succeeds_bind _ _ [] _ (fun a => a = tags)); [by apply succeeds_getattr|].
  intros ? ->.
  apply (succeeds_bind _ _ _ _ (fun _ => True)).
  { destruct (truthy tags); [apply Htagging|by apply succeeds_ret]. }
  intros _ _.
  apply (succeeds_bind _ _ [] _ (fun a => a = d)); [by apply succeeds_getattr|].
  intros ? ->. rewrite Ht. simpl.
  apply (succeeds_bind _ _ [] _ (fun _ => True)); [by apply succeeds_ret|].
  intros _ _.
  rewrite <- (app_nil_r [GetAllInstances all]).
  apply (succeeds_bind _ _ _ _
           (fun reservations => ∃ w w', get_all_instances cloud all w
                                        = (w', Ret reservations))).
  { apply succeeds_request. intros w. destruct (Hget all w) as (w' & rs & E).
    exists w', rs. split; [done|by exists w, w']. }
  intros rs (w & w' & E). apply succeeds_ret. split; [done|]. by exists w, w', rs.
Qed.

End Settled.

Lemma lookup_dry_call d c : is_lookup c = true → dry_call d c.
Proof. by destruct c. Qed.

Lemma creation_dry_call d c : is_creation c = true → dry_call d c.
Proof. by destruct c. Qed.

Lemma lookup_not_spot_request c : is_lookup c = true → is_spot_request c = false.
Proof. by destruct c. Qed.

Lemma filter_not_active spots :
  Forall (fun s => state s ≠ "active") spots → List.filter is_active spots = [].
Proof.
  induction 1 as [|s spots Hs _ IH]; [done|]. simpl. unfold is_active at 1.
  by destruct (String.eqb_spec (state s) "active").
Qed.

(** ** The claims on the launch *)

(** C3, the counterexample: in a dry run of an on-demand launch that
    creates [i-7], with a name and tags configured, [create_tags] is called
    for the [Name] tag and for the tags, with the dry-run flag; no load
    balancer is asked to register the instance, and the instance is
    returned. *)
Lemma dry_run_still_calls_create_tags :
  attrs dry_session !! "dry_run" = Some (JBool true) ∧
  (∀ fuel,
     List.filter is_tagging
       (launch ne_sizes one_price on_demand_cloud fuel dry_session (∅, [])).1.2
     = [ CreateTags ["i-7"] (JDict [("Name", JStr "web")]) (JBool true);
         CreateTags ["i-7"] (JDict [("team", JStr "ops")]) (JBool true) ]) ∧
  (∀ fuel,
     List.filter is_registration
       (launch ne_sizes one_price on_demand_cloud fuel dry_session (∅, [])).1.2
     = []) ∧
  (∀ fuel,
     (launch ne_sizes one_price on_demand_cloud fuel dry_session (∅, [])).2
     = Ret (us_east_1, [mkInstance "i-7" (JStr "10.0.0.1")])).
Proof. split_and!; intros; vm_compute; reflexivity. Qed.

(** C3, amended.  In a dry run, the launch never asks a load balancer to
    register instances, and every [create_tags] call it makes carries the
    dry-run flag.  What the launch returns is what [get_all_instances]
    answers for the ids of the creation step, its last call, and no
    instance when there is no id.  The tagging requests are still issued:
    when the creation step has produced ids, and the provider answers the
    tagging requests and the lookup, the launch goes on with exactly the
    [Name] tag when a name is configured, then the tags when tags are
    configured, each with the dry-run flag, then the lookup of the
    instances, and returns the instances of that lookup. *)
Theorem dry_run_skips_registration (py_ne : json → json → bool)
  (prices : gmap (string * string) float) {W} (cloud : Cloud W)
  (fuel : nat) (self : Session) (d : json) :
  attrs self !! "dry_run" = Some d → truthy d = true →
  logs (launch py_ne prices cloud fuel self) (dry_call d) (fun _ => True) ∧
  (∀ st st' r,
     launch py_ne prices cloud fuel self st = (st', Ret r) →
     ∃ conn image kw st1 ids st2,
       plan py_ne cloud self st = (st1, Ret (conn, image, kw)) ∧
       create_instances prices cloud fuel self conn (image_id image) kw st1
       = (st2, Ret ids) ∧
       r.1 = conn ∧
       match ids with
       | [] => r.2 = [] ∧ st' = st2
       | _ => ∃ w reservations tr,
                get_all_instances cloud ids w = (st'.1, Ret reservations) ∧
                r.2 = concat reservations ∧
                st'.2 = tr ++ [GetAllInstances ids]
       end) ∧
  (∀ st conn image kw st1 ids st2 name tags,
     plan py_ne cloud self st = (st1, Ret (conn, image, kw)) →
     create_instances prices cloud fuel self conn (image_id image) kw st1
     = (st2, Ret ids) →
     ids ≠ [] →
     attrs self !! "name" = Some name →
     attrs self !! "tags" = Some tags →
     (∀ i t f w, ∃ w', create_tags cloud i t f w = (w', Ret tt)) →
     (∀ i w, ∃ w' reservations, get_all_instances cloud i w = (w', Ret reservations)) →
     ∃ w' reservations,
       launch py_ne prices cloud fuel self st
       = ((w', st2.2
               ++ (if truthy name
                   then [CreateTags ids (JDict [("Name", name)]) d] else [])
               ++ (if truthy tags then [CreateTags ids tags d] else [])
               ++ [GetAllInstances ids]),
          Ret (conn, concat reservations)) ∧
       ∃ w w'', get_all_instances cloud ids w = (w'', Ret reservations)).
Proof.
  intros Hd Ht. split_and!.
  - apply (launch_logs py_ne prices cloud fuel self _ (fun _ => True)).
    + apply lookup_dry_call.
    + done.
    + intros conn image kw _. apply logs_seq.
      * apply create_instances_logs, creation_dry_call.
      * intros ids. by apply finalize_dry_logs.
  - intros st st' r H.
    apply launch_ret_inv in H as (conn & image & kw & st1 & ids & st2 & Hp & Hc & Hf).
    exists conn, image, kw, st1, ids, st2. split_and!; [done..| |].
    + destruct ids as [|i ids]; [by injection Hf as <- <-|].
      by apply finalize_returns in Hf as [? _].
    + destruct ids as [|i ids]; [by injection Hf as <- <-|].
      by apply finalize_returns in Hf as [_ ?].
  - intros st conn image kw st1 ids st2 name tags Hplan Hcreate Hids Hname Htags
      Htag Hget.
    destruct (plan_connected py_ne cloud self st) as (ext & _ & _ & Hconn).
    destruct (Hconn _ (f_equal snd Hplan)) as [region Hec2]. simpl in Hec2.
    destruct (finalize_dry_succeeds cloud self conn ids name tags d region
                Hids Hname Htags Hd Ht Hec2 Htag Hget st2)
      as (w' & [conn' instances] & Hf & Hc & w & w'' & reservations & Hr & Hi).
    simpl in Hc, Hi. subst conn' instances.
    exists w', reservations. split; [|by exists w, w''].
    unfold launch, bind. rewrite Hplan. unfold bind. rewrite Hcreate, Hf.
    unfold finalize_calls_of. simpl. done.
Qed.

Lemma dry_run_skips_registration_witness :
  Forall (dry_call (JBool true))
    (launch ne_sizes one_price on_demand_cloud 1 dry_session (∅, [])).1.2.
Proof.
  destruct (dry_run_skips_registration ne_sizes one_price on_demand_cloud 1
              dry_session (JBool true)) as (H & _ & _); [reflexivity|reflexivity|].
  destruct (H (∅, [])) as (ext & E & F & _). rewrite E. exact F.
Defined.
(** C4.  A spot request is polled, a pause and a question at a time, until
    its state is no longer [open], and polled again while it is.  An answer
    in any state other than [open] ends the wait and returns the request:
    no state raises an error.  Once the wait for a request has returned, the
    batch goes on with the requests that remain, with the instance id of the
    request when it is [active] and without it in every other state.  The
    ids that a batch yields are thus the instance ids of the requests that
    are [active] when they are no longer open, in the order of the batch.
    When no request ends [active], the ids are empty and the launch returns
    no instance, without any further call.  When the first of two requests
    ends [cancelled] and the second [active] with [i-1], the ids are [i-1]
    alone and the launch returns that instance; when both end [failed] the
    launch returns no instance. *)
Theorem spot_requests_polled_until_settled {W} (cloud : Cloud W) :
  (∀ (fuel : nat) ec2 rid st st' spot,
     wait_spot cloud fuel ec2 rid st = (st', Ret spot) →
     state spot ≠ "open" ∧
     ∃ k : nat, (1 ≤ k ≤ fuel)%nat ∧ st'.2 = st.2 ++ poll_calls k rid) ∧
  (∀ (fuel : nat) region rid st w1 w2 spot found,
     sleep cloud 5 st.1 = (w1, Ret tt) →
     get_all_spot_instance_requests cloud rid w1 = (w2, Ret (spot :: found)) →
     state spot = "open" →
     wait_spot cloud (S fuel) (Some region) rid st
     = wait_spot cloud fuel (Some region) rid
         (w2, st.2 ++ [Sleep 5; GetAllSpotInstanceRequests rid])) ∧
  (∀ (fuel : nat) region rid st w1 w2 spot found,
     sleep cloud 5 st.1 = (w1, Ret tt) →
     get_all_spot_instance_requests cloud rid w1 = (w2, Ret (spot :: found)) →
     state spot ≠ "open" →
     wait_spot cloud (S fuel) (Some region) rid st
     = ((w2, st.2 ++ [Sleep 5; GetAllSpotInstanceRequests rid]), Ret spot)) ∧
  (∀ (fuel : nat) ec2 rid rids ids st st1 spot,
     wait_spot cloud fuel ec2 rid st = (st1, Ret spot) →
     collect_spot cloud fuel ec2 (rid :: rids) ids st
     = collect_spot cloud fuel ec2 rids
         (if is_active spot then ids ++ [instance_id spot] else ids) st1) ∧
  (∀ (fuel : nat) ec2 rids ids st st' result,
     collect_spot cloud fuel ec2 rids ids st = (st', Ret result) ↔
     ∃ spots, polled cloud fuel ec2 rids st spots st' ∧
              result = ids ++ map instance_id (List.filter is_active spots)) ∧
  (∀ (fuel : nat) ec2 rids st spots st' self conn,
     polled cloud fuel ec2 rids st spots st' →
     Forall (fun s => state s ≠ "active") spots →
     (let! instance_ids := collect_spot cloud fuel ec2 rids [] in
      finalize cloud self conn instance_ids) st
     = (st', Ret (conn, []))) ∧
  (∀ n tr,
     (collect_spot (spot_cloud cancelled_then_active) (2 + n) (Some "us-east-1")
        ["sir-1"; "sir-2"] [] (∅, tr)).2 = Ret ["i-1"]) ∧
  (∀ n,
     (launch ne_sizes one_price (spot_cloud cancelled_then_active) (2 + n)
        spot_session (∅, [])).2
     = Ret (us_east_1, [mkInstance "i-1" (JStr "10.0.0.1")])) ∧
  (∀ n,
     (launch ne_sizes one_price (spot_cloud all_failed) (3 + n)
        spot_session (∅, [])).2
     = Ret (us_east_1, [])).
Proof.
  split_and!.
  - apply wait_spot_returns.
  - apply wait_spot_open.
  - apply wait_spot_settled.
  - apply collect_spot_next.
  - apply collect_spot_polled.
  - intros fuel ec2 rids st spots st' self conn Hp Hf.
    assert (H : collect_spot cloud fuel ec2 rids [] st = (st', Ret [])).
    { apply collect_spot_polled. exists spots. split; [done|].
      by rewrite filter_not_active. }
    unfold bind. by rewrite H.
  - intros n tr. replace (2 + n)%nat with (n + 2)%nat by lia.
    rewrite (stable_iter (fun k => collect_spot _ k _ _ _) 2 n);
      [vm_compute; reflexivity|apply collect_spot_stable|vm_compute; reflexivity].
  - intros n. replace (2 + n)%nat with (n + 2)%nat by lia.
    rewrite (stable_iter (fun k => launch _ _ _ k _) 2 n);
      [vm_compute; reflexivity|apply launch_stable|vm_compute; reflexivity].
  - intros n. replace (3 + n)%nat with (n + 3)%nat by lia.
    rewrite (stable_iter (fun k => launch _ _ _ k _) 3 n);
      [vm_compute; reflexivity|apply launch_stable|vm_compute; reflexivity].
Qed.

Lemma spot_requests_polled_until_settled_witness :
  ∃ st',
    (let! instance_ids :=
       collect_spot (spot_cloud all_failed) 3 (Some "us-east-1") ["sir-1"; "sir-2"] [] in
     finalize (spot_cloud all_failed) spot_session us_east_1 instance_ids) (∅, [])
    = (st', Ret (us_east_1, [])).
Proof.
  destruct (spot_requests_polled_until_settled (spot_cloud all_failed))
    as (_ & _ & _ & _ & _ & H & _).
  eexists.
  apply (H 3%nat (Some "us-east-1") ["sir-1"; "sir-2"] (∅, [])
           [mkSpotInstanceRequest "sir-1" "failed" "";
            mkSpotInstanceRequest "sir-2" "failed" ""]).
  - eapply polled_cons; [vm_compute; reflexivity|].
    eapply polled_cons; [vm_compute; reflexivity|]. apply polled_nil.
  - repeat constructor; discriminate.
Defined.

(** C10, the counterexample: the pair is in the table, with the price
    [0.5], and the session configures the price [0], as an integer or as a
    float; the bid of the spot request is the listed price, not the
    configured one. *)
Lemma configured_zero_price_is_not_the_bid :
  attrs (spot_session_at (JInt 0)) !! "price" = Some (JInt 0) ∧
  attrs (spot_session_at (JFloat 0)) !! "price" = Some (JFloat 0) ∧
  one_price !! ("d2.xlarge", "us-east-1") = Some 0.5%float ∧
  bids (launch ne_sizes one_price (spot_cloud all_failed) 3
          (spot_session_at (JInt 0)) (∅, [])).1.2
  = [JFloat 0.5] ∧
  bids (launch ne_sizes one_price (spot_cloud all_failed) 3
          (spot_session_at (JFloat 0)) (∅, [])).1.2
  = [JFloat 0.5] ∧
  bids (launch ne_sizes one_price (spot_cloud all_failed) 3
          (spot_session_at (JFloat 2)) (∅, [])).1.2
  = [JFloat 2].
Proof. split_and!; vm_compute; reflexivity. Qed.

(** C10, amended.  In a spot launch the price table is read for the instance
    type and the region of the connection before any request is made.  When
    the pair is not in the table, the spot step raises the error of the
    missing key and logs no call, whatever the configured price, and the
    launch makes no spot request and returns nothing.  When the pair is in
    the table, the first call of the spot step is the spot request, and its
    bid is the configured price when that price is a true value, and the
    listed price when it is not: [None], [0], [0.0] and the empty string
    count as no price. *)
Theorem spot_price_is_looked_up_first (py_ne : json → json → bool)
  (prices : gmap (string * string) float) {W} (cloud : Cloud W)
  (fuel : nat) (self : Session) (ity : string) :
  attrs self !! "instance_type" = Some (JStr ity) →
  (∀ conn image kw st count region,
     attrs self !! "count" = Some count →
     ec2 conn = Some region →
     prices !! (ity, region) = None →
     create_spot prices cloud fuel self conn image kw st
     = (st, Raise (KeyError_pair (JStr ity) region))) ∧
  (∀ conn image kw st count region listed price,
     attrs self !! "count" = Some count →
     ec2 conn = Some region →
     prices !! (ity, region) = Some listed →
     attrs self !! "price" = Some price →
     create_spot prices cloud fuel self conn image kw st
     = (let! result :=
          request
            (RequestSpotInstances (if truthy price then price else JFloat listed)
               image (set_if (truthy count) "count" (KV count) kw))
            (request_spot_instances cloud
               (if truthy price then price else JFloat listed)
               image (set_if (truthy count) "count" (KV count) kw)) in
        collect_spot cloud fuel (Some region) (map request_id result) []) st) ∧
  (∀ st st1 conn image kw spot count region,
     plan py_ne cloud self st = (st1, Ret (conn, image, kw)) →
     attrs self !! "spot" = Some spot → truthy spot = true →
     attrs self !! "count" = Some count →
     ec2 conn = Some region →
     prices !! (ity, region) = None →
     launch py_ne prices cloud fuel self st
     = (st1, Raise (KeyError_pair (JStr ity) region))) ∧
  (∀ spot,
     attrs self !! "spot" = Some spot → truthy spot = true →
     (∀ region profile w w' c,
        connect_to_region cloud "ec2" region profile w = (w', Ret (Some c)) →
        prices !! (ity, c) = None) →
     logs (launch py_ne prices cloud fuel self)
       (fun c => is_spot_request c = false) (fun _ => False)).
Proof.
  intros Hi. split_and!.
  - intros conn image kw st count region Hc Hr Hp. by eapply create_spot_unlisted.
  - intros conn image kw st count region listed price Hc Hr Hp Hprice.
    by apply (create_spot_listed prices cloud fuel self conn image kw st count ity).
  - intros st st1 conn image kw spot count region Hplan Hs Ht Hc Hr Hp.
    unfold launch, bind. rewrite Hplan. unfold create_instances, bind, getattr, lift.
    rewrite Hs. simpl. rewrite Ht.
    by rewrite (create_spot_unlisted prices cloud fuel self conn _ kw st1 count ity region).
  - intros spot Hs Ht Hconn.
    apply (launch_logs py_ne prices cloud fuel self _
             (fun c => ∀ r, c = Some r → prices !! (ity, r) = None)).
    + apply lookup_not_spot_request.
    + intros region profile w w' c Hc r ->. by eapply Hconn.
    + intros conn image kw Hq.
      eapply (logs_bind _ _ _ (fun _ => False)); [|done].
      by eapply create_instances_unlisted_logs.
Qed.

Lemma spot_price_is_looked_up_first_witness :
  (launch ne_sizes ∅ (spot_cloud all_failed) 3 priced_spot_session (∅, [])).2
  = Raise (KeyError_pair (JStr "d2.xlarge") "us-east-1") ∧
  Forall (fun c => is_spot_request c = false)
    (launch ne_sizes ∅ (spot_cloud all_failed) 3 priced_spot_session (∅, [])).1.2 ∧
  ∀ tr,
    create_spot one_price (spot_cloud all_failed) 3 priced_spot_session us_east_1
      "ami-1" ∅ (∅, tr)
    = (let! result :=
         request (RequestSpotInstances (JFloat 2) "ami-1" ∅)
           (request_spot_instances (spot_cloud all_failed) (JFloat 2) "ami-1" ∅) in
       collect_spot (spot_cloud all_failed) 3 (Some "us-east-1")
         (map request_id result) []) (∅, tr).
Proof.
  split_and!.
  - destruct (spot_price_is_looked_up_first ne_sizes ∅ (spot_cloud all_failed) 3
                priced_spot_session "d2.xlarge") as (_ & _ & H & _); [reflexivity|].
    erewrite (H (∅, [])); [reflexivity|vm_compute; reflexivity|reflexivity..].
  - destruct (spot_price_is_looked_up_first ne_sizes ∅ (spot_cloud all_failed) 3
                priced_spot_session "d2.xlarge") as (_ & _ & _ & H); [reflexivity|].
    assert (L : logs (launch ne_sizes ∅ (spot_cloud all_failed) 3 priced_spot_session)
                  (fun c => is_spot_request c = false) (fun _ => False)).
    { apply (H (JBool true)); [reflexivity|reflexivity|]. intros. apply lookup_empty. }
    destruct (L (∅, [])) as (ext & E & F & _). rewrite E. exact F.
  - intros tr.
    destruct (spot_price_is_looked_up_first ne_sizes one_price (spot_cloud all_failed) 3
                priced_spot_session "d2.xlarge") as (_ & H & _ & _); [reflexivity|].
    apply (H us_east_1 "ami-1" ∅ (∅, tr) JNull "us-east-1" 0.5%float (JFloat 2));
      reflexivity.
Defined.

(** * Further properties of the resolver *)

Section ResolverMore.

Variable doc : list (string * json).

Lemma own_options_keys label items acc r :
  own_options label items acc = Ret r →
  ∀ k, is_Some (r !! k) → is_Some (acc !! k) ∨ is_option k.
Proof.
  revert acc. induction items as [|[k' v] items IH]; intros acc; simpl.
  - intros [= <-] k Hk. by left.
  - destruct (decide (k' = "*")) as [->|Hne]; [apply IH|].
    destruct (decide (k' ∈ _VALID_KEYS)) as [Hv|]; [|done].
    intros H k Hk. destruct (IH _ H k Hk) as [Hin|Ho]; [|by right].
    destruct (decide (k' = k)) as [<-|Hkk]; [by right|].
    left. by rewrite lookup_insert_ne in Hin.
Qed.

Lemma merge_includes_keys (f : json → res (gmap string json)) l acc r :
  (∀ i ri, f i = Ret ri → ∀ k, is_Some (ri !! k) → is_option k) →
  merge_includes f l acc = Ret r →
  ∀ k, is_Some (r !! k) → is_Some (acc !! k) ∨ is_option k.
Proof.
  intros Hf. revert acc. induction l as [|i l IH]; intros acc; simpl.
  - intros [= <-] k Hk. by left.
  - destruct (f i) as [ri| |] eqn:E; [|done..].
    intros H k Hk. destruct (IH _ H k Hk) as [Hin|Ho]; [|by right].
    apply lookup_union_is_Some in Hin as [Hin|Hin]; [|by left].
    right. by eapply Hf.
Qed.

Lemma resolve_spec_keys fuel label r :
  resolve_spec doc fuel label = Ret r → ∀ k, is_Some (r !! k) → is_option k.
Proof.
  revert label r. induction fuel as [|fuel IH]; intros label r; simpl; [done|].
  destruct (lookup_label doc label) as [[| | | | | |items]| |]; try done.
  destruct (dict_get "*" items) as [[| | | | |l|]|]; try done.
  - destruct (merge_includes (resolve_spec doc fuel) l ∅) as [m| |] eqn:Em; [|done..].
    intros H k Hk. destruct (own_options_keys _ _ _ _ H k Hk) as [Hin|]; [|done].
    destruct (merge_includes_keys _ _ _ _ IH Em k Hin) as [Hin'|]; [|done].
    rewrite lookup_empty in Hin'. by destruct Hin'.
  - intros H k Hk. destruct (own_options_keys _ _ _ _ H k Hk) as [Hin|]; [|done].
    rewrite lookup_empty in Hin. by destruct Hin.
Qed.

(** The own keys of a profile, when they are distinct. *)
Lemma own_options_lookup label items acc r k :
  own_options label items acc = Ret r → NoDup items.*1 →
  r !! k = match dict_get k items with
           | Some v => if decide (k = "*") then acc !! k else Some v
           | None => acc !! k
           end.
Proof.
  revert acc. induction items as [|[k' v] items IH]; intros acc; simpl.
  - by intros [= <-] _.
  - intros H Hnd. apply NoDup_cons in Hnd as [Hk' Hnd].
    assert (Hfresh : k' = k → dict_get k items = None).
    { intros <-. destruct (dict_get k' items) eqn:E; [|done].
      by apply dict_get_Some_key in E. }
    destruct (decide (k' = "*")) as [->|Hne].
    + rewrite (IH _ H Hnd). destruct (decide ("*" = k)) as [<-|]; [|done].
      rewrite Hfresh by done. by rewrite decide_True.
    + destruct (decide (k' ∈ _VALID_KEYS)); [|done].
      rewrite (IH _ H Hnd). destruct (decide (k' = k)) as [<-|Hkk].
      * rewrite Hfresh by done. rewrite lookup_insert_eq. by rewrite decide_False.
      * rewrite lookup_insert_ne by done. done.
Qed.

End ResolverMore.

Lemma resolve_keys (doc : list (string * json)) (fuel : nat) label total k :
  resolve doc fuel label = Ret total → is_Some (total !! k) → is_option k.
Proof. rewrite resolve_resolve_spec. intros H. by eapply resolve_spec_keys. Qed.

(** X1.  Resolved options are options: every key of a result of [resolve] is
    in [_VALID_KEYS] and is not ["*"]. *)
Theorem resolved_keys_are_options (doc : list (string * json)) (fuel : nat)
  (label : json) (total : gmap string json) :
  resolve doc fuel label = Ret total →
  ∀ k, is_Some (total !! k) → k ∈ _VALID_KEYS ∧ k ≠ "*".
Proof. rewrite resolve_resolve_spec. apply resolve_spec_keys. Qed.

Lemma resolved_keys_are_options_witness :
  "region" ∈ _VALID_KEYS ∧ "region" ≠ "*".
Proof.
  apply (resolved_keys_are_options scenario_doc 2 (JStr "prod")
           (<["region" := JStr "us-east-1"]> (<["instance_type" := JStr "m4.large"]> ∅))).
  - vm_compute. reflexivity.
  - exists (JStr "us-east-1"). vm_compute. reflexivity.
Defined.

Lemma apply_ret (fuel : nat) label self self' :
  apply fuel label self = (self', Ret tt) →
  ∃ total, resolve (_configurations self) fuel label = Ret total ∧
           self' = mkSession (_configurations self) (total ∪ attrs self).
Proof.
  rewrite apply_resolve.
  destruct (lookup_label (_configurations self) label) as [c| |]; [|done..].
  destruct (resolve (_configurations self) fuel label) as [total| |]; [|done..].
  rewrite setattr_total. intros [= <-]. by exists total.
Qed.

Lemma apply_ret_of_resolve (fuel : nat) label self total :
  resolve (_configurations self) fuel label = Ret total →
  apply fuel label self
  = (mkSession (_configurations self) (total ∪ attrs self), Ret tt).
Proof.
  intros Hr. rewrite apply_resolve, Hr.
  destruct (lookup_label (_configurations self) label) as [c|e|] eqn:El.
  - apply setattr_total.
  - destruct fuel as [|fuel]; [done|].
    by rewrite (lookup_label_raise _ _ _ _ El) in Hr.
  - by apply lookup_label_total in El.
Qed.

(** X2.  [apply] writes options only: when it returns, the document of the
    session is the same, every attribute whose name is not an option keeps
    its value, [dry_run] among them, and no attribute is removed. *)
Theorem apply_writes_options_only (fuel : nat) (label : json) (self self' : Session) :
  apply fuel label self = (self', Ret tt) →
  _configurations self' = _configurations self ∧
  (∀ k, ¬ (k ∈ _VALID_KEYS ∧ k ≠ "*") → attrs self' !! k = attrs self !! k) ∧
  attrs self' !! "dry_run" = attrs self !! "dry_run" ∧
  (∀ k, is_Some (attrs self !! k) → is_Some (attrs self' !! k)).
Proof.
  intros H. apply apply_ret in H as (total & Hr & ->). simpl.
  assert (Hframe : ∀ k, ¬ (k ∈ _VALID_KEYS ∧ k ≠ "*") →
                        (total ∪ attrs self) !! k = attrs self !! k).
  { intros k Hk. rewrite lookup_union_r; [done|].
    destruct (total !! k) eqn:E; [|done]. destruct Hk.
    by apply (resolve_keys _ _ _ _ k Hr). }
  split_and!; [done|done| |].
  - apply Hframe. intros [Hin _]. revert Hin. vm_compute. intros Hin. discriminate Hin.
  - intros k Hk. apply lookup_union_is_Some. by right.
Qed.

Lemma apply_writes_options_only_witness :
  attrs (apply 2 (JStr "prod") (mkSession scenario_doc init_attrs)).1 !! "dry_run"
  = Some (JBool false).
Proof.
  destruct (apply_writes_options_only 2 (JStr "prod") (mkSession scenario_doc init_attrs)
              (apply 2 (JStr "prod") (mkSession scenario_doc init_attrs)).1)
    as (_ & _ & H & _).
  - rewrite (apply_ret_of_resolve 2 (JStr "prod") _
               (<["region" := JStr "us-east-1"]> (<["instance_type" := JStr "m4.large"]> ∅)));
      [reflexivity|vm_compute; reflexivity].
  - rewrite H. reflexivity.
Defined.

(** X3.  Applying a profile a second time changes nothing: the session after
    the first [apply] is a fixed point of [apply] for that profile. *)
Theorem apply_twice (fuel : nat) (label : json) (self self1 : Session) :
  apply fuel label self = (self1, Ret tt) →
  apply fuel label self1 = (self1, Ret tt).
Proof.
  intros H. apply apply_ret in H as (total & Hr & ->).
  rewrite (apply_ret_of_resolve fuel label _ total) by done. simpl.
  by rewrite (assoc_L (∪)), (idemp_L (∪)).
Qed.

Lemma apply_twice_witness :
  apply 2 (JStr "prod") (apply 2 (JStr "prod") (mkSession scenario_doc init_attrs)).1
  = ((apply 2 (JStr "prod") (mkSession scenario_doc init_attrs)).1, Ret tt).
Proof.
  apply (apply_twice 2 (JStr "prod") (mkSession scenario_doc init_attrs)).
  rewrite (apply_ret_of_resolve 2 (JStr "prod") _
             (<["region" := JStr "us-east-1"]> (<["instance_type" := JStr "m4.large"]> ∅)));
    [reflexivity|vm_compute; reflexivity].
Defined.

(** X4.  Two profiles applied one after the other: the attributes are the
    options of the second over the options of the first over the former
    attributes, so an option of the second profile has the second's value
    and an option only the first one sets keeps the first's. *)
Theorem apply_then_apply (fuel : nat) (a b : json) (self self1 self2 : Session) :
  apply fuel a self = (self1, Ret tt) →
  apply fuel b self1 = (self2, Ret tt) →
  ∃ ta tb,
    resolve (_configurations self) fuel a = Ret ta ∧
    resolve (_configurations self) fuel b = Ret tb ∧
    attrs self2 = tb ∪ (ta ∪ attrs self) ∧
    (∀ k v, tb !! k = Some v → attrs self2 !! k = Some v) ∧
    (∀ k v, tb !! k = None → ta !! k = Some v → attrs self2 !! k = Some v).
Proof.
  intros Ha Hb. apply apply_ret in Ha as (ta & Hra & ->).
  apply apply_ret in Hb as (tb & Hrb & ->). simpl in *.
  exists ta, tb. split_and!; [done..| |].
  - intros k v Hk. by apply lookup_union_Some_l.
  - intros k v Hb Ha. rewrite lookup_union_r by done. by apply lookup_union_Some_l.
Qed.

Lemma apply_then_apply_witness :
  attrs (mkSession layered_doc
           (list_to_map [("spot", JBool true); ("instance_type", JStr "h1.2xlarge")]
            ∪ (list_to_map [("region", JStr "us-east-1"); ("key", JStr "web");
                            ("instance_type", JStr "d2.xlarge")]
               ∪ init_attrs))) !! "instance_type"
  = Some (JStr "h1.2xlarge") ∧
  attrs (mkSession layered_doc
           (list_to_map [("spot", JBool true); ("instance_type", JStr "h1.2xlarge")]
            ∪ (list_to_map [("region", JStr "us-east-1"); ("key", JStr "web");
                            ("instance_type", JStr "d2.xlarge")]
               ∪ init_attrs))) !! "key"
  = Some (JStr "web").
Proof.
  destruct (apply_then_apply 2 (JStr "web") (JStr "spot")
              (mkSession layered_doc init_attrs)
              (mkSession layered_doc
                 (list_to_map [("region", JStr "us-east-1"); ("key", JStr "web");
                               ("instance_type", JStr "d2.xlarge")]
                  ∪ init_attrs))
              (mkSession layered_doc
                 (list_to_map [("spot", JBool true); ("instance_type", JStr "h1.2xlarge")]
                  ∪ (list_to_map [("region", JStr "us-east-1"); ("key", JStr "web");
                                  ("instance_type", JStr "d2.xlarge")]
                     ∪ init_attrs))))
    as (ta & tb & Ha & Hb & _ & H1 & H2).
  - vm_compute. reflexivity.
  - vm_compute. reflexivity.
  - assert (Ea : ta = list_to_map [("region", JStr "us-east-1"); ("key", JStr "web");
                                   ("instance_type", JStr "d2.xlarge")]).
    { assert (E : resolve layered_doc 2 (JStr "web")
                  = Ret (list_to_map [("region", JStr "us-east-1"); ("key", JStr "web");
                                      ("instance_type", JStr "d2.xlarge")]))
        by (vm_compute; reflexivity).
      simpl in Ha. rewrite E in Ha. by injection Ha. }
    assert (Eb : tb = list_to_map [("spot", JBool true);
                                   ("instance_type", JStr "h1.2xlarge")]).
    { assert (E : resolve layered_doc 2 (JStr "spot")
                  = Ret (list_to_map [("spot", JBool true);
                                      ("instance_type", JStr "h1.2xlarge")]))
        by (vm_compute; reflexivity).
      simpl in Hb. rewrite E in Hb. by injection Hb. }
    subst ta tb. split.
    + apply H1. vm_compute. reflexivity.
    + apply H2; vm_compute; reflexivity.
Defined.

Lemma own_options_valid label items acc :
  Forall (fun kv : string * json => kv.1 ∈ _VALID_KEYS) items →
  ∃ r, own_options label items acc = Ret r.
Proof.
  intros H. revert acc. induction H as [|[k v] items Hk _ IH]; intros acc; simpl.
  - by eexists.
  - destruct (decide (k = "*")); [apply IH|]. simpl in Hk. rewrite decide_True by done.
    apply IH.
Qed.

(** X5.  A profile without an include list, whose keys are distinct and are
    all options, resolves to exactly its own items. *)
Theorem flat_profile_resolves_to_its_items (doc : list (string * json)) (fuel : nat)
  (name : string) (items : list (string * json)) :
  dict_get name doc = Some (JDict items) →
  dict_get "*" items = None →
  NoDup items.*1 →
  Forall (fun kv : string * json => kv.1 ∈ _VALID_KEYS) items →
  resolve doc (S fuel) (JStr name) = Ret (list_to_map items).
Proof.
  intros Hn Hstar Hnd Hv. rewrite resolve_resolve_spec. simpl. rewrite Hn, Hstar.
  destruct (own_options_valid (JStr name) items ∅ Hv) as [r Hr]. rewrite Hr. f_equal.
  apply map_eq. intros k. rewrite (own_options_lookup _ _ _ _ k Hr Hnd).
  destruct (dict_get k items) as [v|] eqn:E.
  - destruct (decide (k = "*")) as [->|]; [congruence|].
    symmetry. apply elem_of_list_to_map_1; [done|].
    clear -E. induction items as [|[k' v'] items IH]; simpl in *; [done|].
    destruct (decide (k' = k)) as [->|]; [injection E as ->; by left|right; by apply IH].
  - rewrite lookup_empty. symmetry. apply not_elem_of_list_to_map_1.
    clear -E. induction items as [|[k' v'] items IH]; simpl in *.
    + apply not_elem_of_nil.
    + destruct (decide (k' = k)); [done|]. apply not_elem_of_cons. split; [done|by apply IH].
Qed.

Lemma flat_profile_resolves_to_its_items_witness :
  resolve scenario_doc 1 (JStr "default") = Ret (list_to_map [("region", JStr "us-east-1")]).
Proof.
  apply (flat_profile_resolves_to_its_items scenario_doc 0 "default").
  - reflexivity.
  - reflexivity.
  - apply (bool_decide_unpack _). vm_compute. reflexivity.
  - apply (bool_decide_unpack _). vm_compute. reflexivity.
Defined.

(** X6.  In a resolved profile whose keys are distinct, a key of the profile
    itself has the profile's value, whatever the includes give for it, and
    every other option has the value the merged includes give. *)
Theorem own_keys_win (doc : list (string * json)) (fuel : nat) (name : string)
  (items : list (string * json)) (includes : list json) (total : gmap string json) :
  dict_get name doc = Some (JDict items) →
  dict_get "*" items = Some (JList includes) →
  NoDup items.*1 →
  resolve doc (S fuel) (JStr name) = Ret total →
  ∃ merged,
    merge_includes (resolve doc fuel) includes ∅ = Ret merged ∧
    (∀ k v, k ≠ "*" → dict_get k items = Some v → total !! k = Some v) ∧
    (∀ k, dict_get k items = None → total !! k = merged !! k).
Proof.
  intros Hn Hstar Hnd. rewrite resolve_resolve_spec. simpl. rewrite Hn, Hstar.
  destruct (merge_includes (resolve_spec doc fuel) includes ∅) as [merged| |] eqn:Em;
    [|done..].
  intros Hown. exists merged. split_and!.
  - rewrite <- Em. clear. generalize (∅ : gmap string json).
    induction includes as [|i l IH]; intros acc; simpl; [done|].
    rewrite resolve_resolve_spec. destruct (resolve_spec doc fuel i); [apply IH|done..].
  - intros k v Hk Hv. rewrite (own_options_lookup _ _ _ _ k Hown Hnd), Hv.
    by rewrite decide_False.
  - intros k Hk. by rewrite (own_options_lookup _ _ _ _ k Hown Hnd), Hk.
Qed.

Lemma own_keys_win_witness :
  ∃ total, resolve layered_doc 2 (JStr "web") = Ret total ∧
           total !! "key" = Some (JStr "web") ∧
           total !! "region" = Some (JStr "us-east-1").
Proof.
  exists (list_to_map [("region", JStr "us-east-1"); ("key", JStr "web");
                       ("instance_type", JStr "d2.xlarge")]).
  assert (E : resolve layered_doc 2 (JStr "web")
              = Ret (list_to_map [("region", JStr "us-east-1"); ("key", JStr "web");
                                  ("instance_type", JStr "d2.xlarge")]))
    by (vm_compute; reflexivity).
  destruct (own_keys_win layered_doc 1 "web"
              [("*", JList [JStr "default"]); ("instance_type", JStr "d2.xlarge");
               ("key", JStr "web")] [JStr "default"]
              (list_to_map [("region", JStr "us-east-1"); ("key", JStr "web");
                            ("instance_type", JStr "d2.xlarge")])
              eq_refl eq_refl) as (m & Hm & H1 & H2).
  - apply (bool_decide_unpack _). vm_compute. reflexivity.
  - exact E.
  - split_and!; [exact E| |].
    + apply H1; [done|reflexivity].
    + rewrite H2 by reflexivity.
      assert (Em : merge_includes (resolve layered_doc 1) [JStr "default"] ∅
                   = Ret (list_to_map [("region", JStr "us-east-1"); ("key", JStr "ops")]))
        by (vm_compute; reflexivity).
      rewrite Em in Hm. injection Hm as <-. vm_compute. reflexivity.
Defined.

(** X7.  [_apply] on a dict [total] that already holds entries: it returns
    exactly when resolution from an empty dict does, it lays the resolved
    options over [total], and it removes nothing; when resolution raises,
    [_apply] raises the same error whatever [total] holds. *)
Theorem _apply_lays_over_total (doc : list (string * json)) (fuel : nat) (label : json)
  (total : gmap string json) :
  (∀ total', _apply doc fuel label total = (total', Ret tt) →
     ∃ r, resolve doc fuel label = Ret r ∧ total' = r ∪ total ∧
          ∀ k, is_Some (total !! k) → is_Some (total' !! k)) ∧
  (∀ r, resolve doc fuel label = Ret r →
     _apply doc fuel label total = (r ∪ total, Ret tt)) ∧
  (∀ e, resolve doc fuel label = Raise e → (_apply doc fuel label total).2 = Raise e).
Proof.
  pose proof (_apply_resolve_spec doc fuel label total) as H.
  rewrite resolve_resolve_spec. split_and!.
  - intros total' Ha. destruct (resolve_spec doc fuel label) as [r| |].
    + rewrite Ha in H. injection H as ->. exists r. split_and!; [done..|].
      intros k Hk. apply lookup_union_is_Some. by right.
    + by rewrite Ha in H.
    + by rewrite Ha in H.
  - intros r Hr. by rewrite Hr in H.
  - intros e He. by rewrite He in H.
Qed.

Lemma _apply_lays_over_total_witness :
  _apply scenario_doc 2 (JStr "prod") {[ "count" := JInt 2 ]}
  = (list_to_map [("region", JStr "us-east-1"); ("instance_type", JStr "m4.large")]
     ∪ {[ "count" := JInt 2 ]}, Ret tt).
Proof.
  destruct (_apply_lays_over_total scenario_doc 2 (JStr "prod") {[ "count" := JInt 2 ]})
    as (_ & H & _).
  apply H. vm_compute. reflexivity.
Defined.

(** X8.  A new session.  Over a document without a ["default"] profile it
    has the initial attributes.  Over a document with one it has the options
    of ["default"] over the initial attributes, and construction fails with
    the error of that profile when it cannot be resolved.  In every new
    session [dry_run] is [False], the document is the one that was loaded,
    and every initial attribute is defined. *)
Theorem new_session (configurations : list (string * json)) (fuel : nat) :
  (dict_get "default" configurations = None →
   __init__ configurations fuel = Ret (mkSession configurations init_attrs)) ∧
  (∀ c total, dict_get "default" configurations = Some c →
   resolve configurations fuel (JStr "default") = Ret total →
   __init__ configurations fuel = Ret (mkSession configurations (total ∪ init_attrs))) ∧
  (∀ c e, dict_get "default" configurations = Some c →
   resolve configurations fuel (JStr "default") = Raise e →
   __init__ configurations fuel = Raise e) ∧
  (∀ self, __init__ configurations fuel = Ret self →
   _configurations self = configurations ∧
   attrs self !! "dry_run" = Some (JBool false) ∧
   ∀ k, is_Some (init_attrs !! k) → is_Some (attrs self !! k)).
Proof.
  unfold __init__. split_and!.
  - by intros ->.
  - intros c total -> Hr.
    by rewrite (apply_ret_of_resolve fuel (JStr "default") (mkSession configurations _) total).
  - intros c e Hd Hr. rewrite Hd, apply_resolve. simpl. by rewrite Hd, Hr.
  - intros self. destruct (dict_get "default" configurations) as [c|].
    + destruct (apply fuel (JStr "default") (mkSession configurations init_attrs))
        as [self' [[]| |]] eqn:Ea; [|done..].
      intros [= <-]. apply apply_ret in Ea as (total & Hr & ->). simpl.
      split_and!; [done| |].
      * rewrite lookup_union_r; [reflexivity|].
        destruct (total !! "dry_run") eqn:E; [|done].
        destruct (resolve_keys _ _ _ _ "dry_run" Hr) as [Hin _]; [by rewrite E|].
        revert Hin. vm_compute. intros Hin. discriminate Hin.
      * intros k Hk. apply lookup_union_is_Some. by right.
    + intros [= <-]. by split_and!.
Qed.

Lemma new_session_witness :
  __init__ scenario_doc 1
  = Ret (mkSession scenario_doc
           (list_to_map [("region", JStr "us-east-1")] ∪ init_attrs)) ∧
  __init__ loop_doc 1 = Ret (mkSession loop_doc init_attrs).
Proof.
  split.
  - destruct (new_session scenario_doc 1) as (_ & H & _).
    apply (H (JDict [("region", JStr "us-east-1")])); [reflexivity|].
    vm_compute. reflexivity.
  - destruct (new_session loop_doc 1) as (H & _). apply H. reflexivity.
Defined.

(** * More on the configuration files *)

Lemma candidates_app (args : list string) :
  candidates args = args ++ default_filenames.
Proof. by destruct args. Qed.

Lemma read_bodies_none (expanduser : string → string)
  (read_file : string → option string) (filenames : list string) (b0 : option string) :
  Forall (fun g => read_file (expanduser g) = None) filenames →
  read_bodies expanduser read_file filenames b0 = b0.
Proof.
  intros H. revert b0. induction H as [|g l Hg _ IH]; intros b0; simpl; [done|].
  by rewrite Hg.
Qed.

(** X9.  The loader of the package tries the explicit paths, then the three
    default files, in that order, and returns the document of the first
    candidate that can be read and decoded: a candidate that cannot be read,
    or whose text cannot be decoded, is passed over.  With no such candidate
    the document is empty. *)
Theorem load_configurations_first_usable (expanduser : string → string)
  (read_file : string → option string) (cjson_decode : string → option json)
  (args : list string) :
  (∀ pre f post body document,
     args ++ default_filenames = pre ++ f :: post →
     Forall (skipped expanduser read_file cjson_decode) pre →
     read_file (expanduser f) = Some body →
     cjson_decode body = Some document →
     load_configurations expanduser read_file cjson_decode args = document) ∧
  (Forall (skipped expanduser read_file cjson_decode) (args ++ default_filenames) →
   load_configurations expanduser read_file cjson_decode args = JDict []).
Proof.
  rewrite <- candidates_app. split.
  - intros pre f post body document. apply load_configurations_first.
  - apply load_configurations_none.
Qed.

(** Two explicit paths that cannot be read are passed over, and the
    document of [./.foolaunch] is returned. *)
Lemma load_configurations_first_usable_witness :
  load_configurations (fun p => p) two_files decode_two ["/etc/foolaunch.bak"; "broken"]
  = JDict [("a", JDict [])].
Proof.
  apply (proj1 (load_configurations_first_usable (fun p => p) two_files decode_two
                  ["/etc/foolaunch.bak"; "broken"])
           ["/etc/foolaunch.bak"; "broken"] "./.foolaunch"
           ["~/.foolaunch"; "/etc/foolaunch"] body_a).
  - reflexivity.
  - repeat constructor.
  - reflexivity.
  - reflexivity.
Defined.

(** X10.  The loader of [foolaunch.py] reads every candidate and keeps the
    text of the last one that can be read: an empty text gives the empty
    document, any other text is decoded, and a text that cannot be decoded
    raises, whatever the candidates before it hold.  With no readable
    candidate the document is empty. *)
Theorem _load_configurations_keeps_last_readable (expanduser : string → string)
  (read_file : string → option string) (ujson_loads : string → option json)
  (args : list string) :
  (∀ pre f post body,
     args ++ default_filenames = pre ++ f :: post →
     read_file (expanduser f) = Some body →
     Forall (fun g => read_file (expanduser g) = None) post →
     _load_configurations expanduser read_file ujson_loads args
     = if String.eqb body "" then Ret (JDict [])
       else match ujson_loads body with
            | Some document => Ret document
            | None => Raise ValueError_decode
            end) ∧
  (Forall (fun g => read_file (expanduser g) = None) (args ++ default_filenames) →
   _load_configurations expanduser read_file ujson_loads args = Ret (JDict [])).
Proof.
  rewrite <- candidates_app. split.
  - intros pre f post body Hc Hr Hpost. unfold _load_configurations.
    by rewrite Hc, (read_bodies_last _ _ pre f post body None).
  - intros H. unfold _load_configurations. by rewrite read_bodies_none.
Qed.

Lemma _load_configurations_keeps_last_readable_witness :
  _load_configurations (fun p => p) garbled_files decode_two []
  = Raise ValueError_decode.
Proof.
  apply (proj1 (_load_configurations_keeps_last_readable (fun p => p) garbled_files
                  decode_two [])
           ["./.foolaunch"; "~/.foolaunch"] "/etc/foolaunch" [] "{").
  - reflexivity.
  - reflexivity.
  - constructor.
Defined.

(** X11.  When [/etc/foolaunch] can be read, the loader of [foolaunch.py]
    gives the same answer whatever paths it is called with: the explicit
    paths and the two other default files have no effect. *)
Theorem _load_configurations_system_file_decides (expanduser : string → string)
  (read_file : string → option string) (ujson_loads : string → option json)
  (args args' : list string) (body : string) :
  read_file (expanduser "/etc/foolaunch") = Some body →
  _load_configurations expanduser read_file ujson_loads args
  = _load_configurations expanduser read_file ujson_loads args'.
Proof.
  intros Hr. unfold _load_configurations. rewrite !candidates_app.
  change default_filenames with (["./.foolaunch"; "~/.foolaunch"] ++ ["/etc/foolaunch"]).
  rewrite !(assoc_L (++)).
  by rewrite !(read_bodies_last expanduser read_file _ "/etc/foolaunch" [] body None).
Qed.

Lemma _load_configurations_system_file_decides_witness :
  _load_configurations (fun p => p) two_files decode_two ["./.foolaunch"]
  = _load_configurations (fun p => p) two_files decode_two [].
Proof.
  apply (_load_configurations_system_file_decides (fun p => p) two_files decode_two
           ["./.foolaunch"] [] body_b).
  reflexivity.
Defined.

(** * More on the block-device mapping *)

Lemma ephemerals_size (start n : nat) (m : gmap string BlockDeviceType) :
  (start + n ≤ 701)%nat →
  (∀ i, (start ≤ i < start + n)%nat → m !! device_path i = None) →
  base.size (foldl (fun m i => <[device_path i := ephemeral i]> m) m (seq start n))
  = (base.size m + n)%nat.
Proof.
  revert start m. induction n as [|n IH]; intros start m Hle Hm; simpl; [lia|].
  rewrite IH; [|lia|].
  - rewrite map_size_insert_None by (apply Hm; lia). lia.
  - intros i Hi. rewrite lookup_insert_ne; [apply Hm; lia|].
    intros E. apply device_path_inj in E; lia.
Qed.

Lemma ephemerals_keys (start n : nat) (m : gmap string BlockDeviceType) k :
  is_Some (foldl (fun m i => <[device_path i := ephemeral i]> m) m (seq start n) !! k) →
  is_Some (m !! k) ∨ ∃ i, (start ≤ i < start + n)%nat ∧ k = device_path i.
Proof.
  revert start m. induction n as [|n IH]; intros start m; simpl; [by left|].
  intros H. apply IH in H as [H|(i & Hi & ->)].
  - destruct (decide (device_path start = k)) as [<-|Hne].
    + right. exists start. split; [lia|done].
    + left. by rewrite lookup_insert_ne in H.
  - right. exists i. split; [lia|done].
Qed.

Lemma root_entry_lookup py_ne image root_volume_size k :
  is_Some (root_entry py_ne image root_volume_size !! k) → k = "/dev/xvda".
Proof.
  unfold root_entry. destruct (truthy root_volume_size); [|by intros [? ?]].
  destruct (block_device_mapping image !! "/dev/xvda") as [root|]; [|by intros [? ?]].
  destruct (py_ne (size root) root_volume_size); [|by intros [? ?]].
  intros [x Hx]. by apply lookup_singleton_Some in Hx as [<- _].
Qed.

(** [_make_block_device_map] returns for an instance type of the table
    only. *)
Lemma _make_block_device_map_returns py_ne image instance_type root_volume_size r :
  _make_block_device_map py_ne image instance_type root_volume_size = Ret r →
  ∃ ity count, instance_type = JStr ity ∧ _EC2_INSTANCE_VOLUME_COUNT !! ity = Some count.
Proof.
  unfold _make_block_device_map, make_block_device_map_body, bind.
  rewrite add_root_volume_spec.
  destruct (truthy root_volume_size).
  - destruct (block_device_mapping image !! "/dev/xvda"); [|done]. unfold lift, getitem.
    destruct instance_type as [| | | |s| |]; try done.
    destruct (_EC2_INSTANCE_VOLUME_COUNT !! s) as [count|] eqn:E; [by eauto|done].
  - unfold lift, getitem.
    destruct instance_type as [| | | |s| |]; try done.
    destruct (_EC2_INSTANCE_VOLUME_COUNT !! s) as [count|] eqn:E; [by eauto|done].
Qed.

(** X12.  What a returned mapping looks like.  [_make_block_device_map]
    returns only for an instance type of the table, and never returns
    [None]: every instance type of the table has a volume.  The devices of
    the mapping are the ephemeral devices of the instance type and, at most,
    [/dev/xvda]; [/dev/xvda] is in the mapping exactly when a root volume
    size is asked for and differs from the size of the image's root device,
    and then it has the size asked for and no ephemeral name; the mapping
    has as many entries as the type has volumes, and one more with a root
    entry. *)
Theorem returned_mapping_shape (py_ne : json → json → bool) (image : Image)
  (instance_type root_volume_size : json)
  (r : option (gmap string BlockDeviceType)) :
  _make_block_device_map py_ne image instance_type root_volume_size = Ret r →
  ∃ ity count m,
    instance_type = JStr ity ∧ _EC2_INSTANCE_VOLUME_COUNT !! ity = Some count ∧
    r = Some m ∧
    (∀ k, is_Some (m !! k) →
          k = "/dev/xvda" ∨ ∃ i, (i < count)%nat ∧ k = device_path i) ∧
    m !! "/dev/xvda"
    = (if truthy root_volume_size then
         match block_device_mapping image !! "/dev/xvda" with
         | Some root =>
             if py_ne (size root) root_volume_size
             then Some (mkBlockDeviceType root_volume_size None)
             else None
         | None => None
         end
       else None) ∧
    base.size m = (count + match m !! "/dev/xvda" with Some _ => 1 | None => 0 end)%nat ∧
    (1 ≤ count)%nat.
Proof.
  intros Hret.
  assert (Hroot : truthy root_volume_size = true →
                  is_Some (block_device_mapping image !! "/dev/xvda")).
  { intros Ht. destruct (block_device_mapping image !! "/dev/xvda") eqn:E; [done|].
    by rewrite (_make_block_device_map_no_root py_ne image instance_type
                  root_volume_size Ht E) in Hret. }
  destruct (_make_block_device_map_returns _ _ _ _ _ Hret) as (ity & count & -> & Hc).
  pose proof (volume_count_bound _ _ Hc) as Hle.
  pose proof (volume_count_pos _ _ Hc) as Hpos.
  rewrite (_make_block_device_map_known py_ne image ity root_volume_size count Hc Hroot)
    in Hret.
  set (m := foldl _ _ _) in Hret.
  assert (Hx : m !! "/dev/xvda" = root_entry py_ne image root_volume_size !! "/dev/xvda").
  { apply ephemerals_lookup_other. intros i _. apply device_path_not_root. }
  assert (Hsize : base.size m
                  = (base.size (root_entry py_ne image root_volume_size) + count)%nat).
  { apply ephemerals_size; [lia|]. intros i _.
    destruct (root_entry py_ne image root_volume_size !! device_path i) eqn:E; [|done].
    exfalso. apply (device_path_not_root i). by eapply root_entry_lookup. }
  exists ity, count, m. split_and!; [done|done| | | | |done].
  - destruct (decide (0 < base.size m)%nat); [congruence|lia].
  - intros k Hk. apply ephemerals_keys in Hk as [Hk|(i & Hi & ->)].
    + left. by eapply root_entry_lookup.
    + right. exists i. split; [lia|done].
  - rewrite Hx. unfold root_entry. destruct (truthy root_volume_size); [|done].
    destruct (block_device_mapping image !! "/dev/xvda") as [root|]; [|done].
    destruct (py_ne (size root) root_volume_size); [|done].
    by rewrite lookup_singleton_eq.
  - rewrite Hsize, Hx. unfold root_entry. destruct (truthy root_volume_size).
    + destruct (block_device_mapping image !! "/dev/xvda") as [root|].
      * destruct (py_ne (size root) root_volume_size).
        -- rewrite lookup_singleton_eq, map_size_singleton. lia.
        -- rewrite lookup_empty, map_size_empty. lia.
      * rewrite lookup_empty, map_size_empty. lia.
    + rewrite lookup_empty, map_size_empty. lia.
Qed.

(** For [d2.xlarge] and a root volume of 100 on an image whose root device
    has size 8: the root entry and three ephemeral volumes. *)
Lemma returned_mapping_shape_witness :
  ∃ m, _make_block_device_map ne_sizes amzn_image (JStr "d2.xlarge") (JInt 100)
       = Ret (Some m) ∧
       m !! "/dev/xvda" = Some (mkBlockDeviceType (JInt 100) None) ∧
       base.size m = 4%nat.
Proof.
  destruct (returned_mapping_shape ne_sizes amzn_image (JStr "d2.xlarge") (JInt 100)
              (Some (foldl (fun m i => <[device_path i := ephemeral i]> m)
                       {[ "/dev/xvda" := mkBlockDeviceType (JInt 100) None ]}
                       (seq 0 3))))
    as (ity & count & m & Hity & Hc & Hm & _ & Hx & Hs & _).
  { vm_compute. reflexivity. }
  injection Hity as <-. injection Hm as <-.
  eexists. split_and!.
  - vm_compute. reflexivity.
  - exact Hx.
  - vm_compute. reflexivity.
Defined.

(** * More on the launch *)

Section LaunchMore.

Context (py_ne : json → json → bool) (prices : gmap (string * string) float).
Context {W : Type} (cloud : Cloud W).

Lemma connect_calls self (names : list string) :
  "connect_to_region" ∈ names →
  logs (connect cloud self) (fun c => method_name c ∈ names) (fun _ => True).
Proof.
  intros Hn. unfold connect.
  repeat (apply logs_seq; [first [apply logs_getattr; intros; exact I
                                 |apply logs_request; [exact Hn|intros; exact I]]
                          |intros ?]).
  by apply logs_ret.
Qed.

End LaunchMore.

(** X13.  A launch goes on only when the image name matches exactly one
    image: when the provider never answers the lookup of the session's
    image with exactly one image, the launch returns nothing, and the only
    requests it makes are the connections and the image lookup. *)
Theorem launch_needs_exactly_one_image (py_ne : json → json → bool)
  (prices : gmap (string * string) float) {W} (cloud : Cloud W)
  (fuel : nat) (self : Session) (name : json) :
  attrs self !! "image" = Some name →
  (∀ w w' images, get_all_images cloud name w = (w', Ret images) →
                  length images ≠ 1%nat) →
  logs (launch py_ne prices cloud fuel self)
    (fun c => method_name c ∈ ["connect_to_region"; "get_all_images"])
    (fun _ => False).
Proof.
  intros Hi Hn. unfold launch.
  eapply (logs_bind _ _ _ (fun _ => False)); [|by intros]. unfold plan.
  apply logs_seq; [apply connect_calls; by repeat constructor|intros conn].
  eapply (logs_bind _ _ _ (fun v => v = name)).
  { apply logs_getattr. intros v Hv. congruence. }
  intros v ->.
  eapply (logs_bind _ _ _ (fun _ => False)); [|by intros].
  unfold _lookup_ami_id.
  eapply (logs_bind _ _ _ (fun images => length images ≠ 1%nat)).
  { apply logs_method, logs_request; [by repeat constructor|exact Hn]. }
  intros [|image [|image' images]] Hl; [apply logs_raise|done|apply logs_raise].
Qed.

Lemma launch_needs_exactly_one_image_witness :
  Forall (fun c => method_name c ∈ ["connect_to_region"; "get_all_images"])
    (launch ne_sizes one_price (scripted [amzn_image; other_image] [] [] (fun _ _ => []))
       1 spot_session (∅, [])).1.2 ∧
  (launch ne_sizes one_price (scripted [amzn_image; other_image] [] [] (fun _ _ => []))
     1 spot_session (∅, [])).2 = Raise RuntimeError_image.
Proof.
  split; [|vm_compute; reflexivity].
  assert (L : logs (launch ne_sizes one_price
                      (scripted [amzn_image; other_image] [] [] (fun _ _ => []))
                      1 spot_session)
                (fun c => method_name c ∈ ["connect_to_region"; "get_all_images"])
                (fun _ => False)).
  { apply (launch_needs_exactly_one_image ne_sizes one_price
             (scripted [amzn_image; other_image] [] [] (fun _ _ => []))
             1 spot_session (JStr "amzn")).
    - reflexivity.
    - intros w w' images [= _ <-]. simpl. lia. }
  destruct (L (∅, [])) as (ext & E & F & _). rewrite E. exact F.
Defined.

(** X14.  A launch needs an instance type of the table of volumes.  For
    every other value of [instance_type] ([None], the value of a session
    that does not configure it, among them) the launch returns nothing and
    creates nothing: the only requests it makes are the connections and the
    lookups of the image and of the subnets. *)
Theorem launch_needs_a_listed_instance_type (py_ne : json → json → bool)
  (prices : gmap (string * string) float) {W} (cloud : Cloud W)
  (fuel : nat) (self : Session) :
  (∀ ity, attrs self !! "instance_type" = Some (JStr ity) →
          _EC2_INSTANCE_VOLUME_COUNT !! ity = None) →
  logs (launch py_ne prices cloud fuel self)
    (fun c => method_name c ∈ ["connect_to_region"; "get_all_images"; "get_all_subnets"])
    (fun _ => False).
Proof.
  intros Hn. unfold launch.
  eapply (logs_bind _ _ _ (fun _ => False)); [|by intros]. unfold plan.
  apply logs_seq; [apply connect_calls; by repeat constructor|intros conn].
  apply logs_seq; [apply logs_getattr; intros; exact I|intros image_name].
  apply logs_seq.
  { unfold _lookup_ami_id. apply logs_seq.
    - apply logs_method, logs_request; [by repeat constructor|intros; exact I].
    - intros [|image [|image' images]]; [apply logs_raise|by apply logs_ret|apply logs_raise]. }
  intros image. apply logs_seq.
  { unfold find_subnet_id. apply logs_seq; [apply logs_getattr; intros; exact I|intros subnet].
    destruct (truthy subnet); [|by apply logs_ret]. apply logs_seq.
    - apply logs_method, logs_request; [by repeat constructor|intros; exact I].
    - intros all. destruct (List.filter _ all) as [|s [|s' l]];
        [by apply logs_ret|by apply logs_ret|apply logs_raise]. }
  intros subnet.
  eapply (logs_bind _ _ _ (fun v => attrs self !! "instance_type" = Some v)).
  { by apply logs_getattr. }
  intros instance_type Hity.
  apply logs_seq; [apply logs_getattr; intros; exact I|intros root_volume_size].
  eapply (logs_bind _ _ _ (fun _ => False)); [|by intros].
  apply logs_lift. intros r Hr.
  apply _make_block_device_map_returns in Hr as (ity & count & -> & Hc).
  by rewrite (Hn ity Hity) in Hc.
Qed.

Lemma launch_needs_a_listed_instance_type_witness :
  Forall (fun c => method_name c ∈ ["connect_to_region"; "get_all_images"; "get_all_subnets"])
    (launch ne_sizes one_price on_demand_cloud 1 untyped_session (∅, [])).1.2 ∧
  (launch ne_sizes one_price on_demand_cloud 1 untyped_session (∅, [])).2
  = Raise (KeyError JNull) ∧
  (launch ne_sizes one_price on_demand_cloud 1 m4_session (∅, [])).2
  = Raise (KeyError (JStr "m4.large")).
Proof.
  split_and!; [|vm_compute; reflexivity..].
  assert (L : logs (launch ne_sizes one_price on_demand_cloud 1 untyped_session)
                (fun c => method_name c
                          ∈ ["connect_to_region"; "get_all_images"; "get_all_subnets"])
                (fun _ => False)).
  { apply (launch_needs_a_listed_instance_type ne_sizes one_price on_demand_cloud 1
             untyped_session).
    intros ity H. vm_compute in H. discriminate H. }
  destruct (L (∅, [])) as (ext & E & F & _). rewrite E. exact F.
Defined.

Lemma lookup_set_if_ne (c : bool) (k k' : string) (v : kwval) (kw : gmap string kwval) :
  k ≠ k' → set_if c k v kw !! k' = kw !! k'.
Proof. intros Hne. unfold set_if. destruct c; [by rewrite lookup_insert_ne|done]. Qed.

Lemma lookup_set_if (c : bool) (k : string) (v : kwval) (kw : gmap string kwval) :
  set_if c k v kw !! k = if c then Some v else kw !! k.
Proof. unfold set_if. destruct c; [by rewrite lookup_insert_eq|done]. Qed.

(** Lookups in keyword arguments that are built by insertions. *)
Ltac kw_lookup :=
  repeat first
    [ rewrite lookup_set_if_ne by done
    | rewrite lookup_insert_ne by done
    | rewrite lookup_insert_eq
    | rewrite lookup_set_if
    | rewrite lookup_empty ].

Section CreateKwargs.

Context (py_ne : json → json → bool) (prices : gmap (string * string) float).
Context {W : Type} (cloud : Cloud W).

Lemma logs_read self name P :
  logs (getattr (W := W) self name) P (fun v => attrs self !! name = Some v).
Proof. by apply logs_getattr. Qed.

Lemma find_subnet_id_configured self conn P :
  (∀ c, is_lookup c = true → P c) →
  logs (find_subnet_id cloud self conn) P
    (fun r => is_Some r → ∃ s, attrs self !! "subnet" = Some s ∧ truthy s = true).
Proof.
  intros HP. unfold find_subnet_id.
  eapply logs_bind; [apply logs_read|]. intros subnet Hs.
  destruct (truthy subnet) eqn:Ht; [|apply logs_ret; by intros [? ?]].
  apply logs_seq.
  - apply logs_method, logs_request; [by apply HP|intros; exact I].
  - intros all. destruct (List.filter _ all) as [|s [|s' l]].
    + apply logs_ret. by intros [? ?].
    + apply logs_ret. intros _. by exists subnet.
    + apply logs_raise.
Qed.

Lemma make_create_kwargs_ok self subnet security_group_ids mapping P :
  (is_Some subnet → ∃ s, attrs self !! "subnet" = Some s ∧ truthy s = true) →
  logs (make_create_kwargs (W := W) self subnet security_group_ids mapping) P
    (fun kw => create_kwargs_ok self kw ∧ kw !! "count" = None ∧
               kw !! "min_count" = None ∧ kw !! "max_count" = None).
Proof.
  intros Hsub. unfold make_create_kwargs.
  eapply logs_bind; [apply logs_read|]. intros instance_type Hity.
  eapply logs_bind; [apply logs_read|]. intros dry_run Hd. cbv zeta.
  eapply (logs_bind _ _ _
            (fun kw => create_kwargs_ok self kw ∧ kw !! "count" = None ∧
                       kw !! "min_count" = None ∧ kw !! "max_count" = None ∧
                       kw !! "key_name" = None)).
  { assert (Hplace : logs
              (let! placement := getattr (W := W) self "placement" in
               ret (set_if (truthy placement) "placement" (KV placement)
                      (<["dry_run" := KV dry_run]>
                         (<["instance_type" := KV instance_type]> ∅)))) P
              (fun kw => create_kwargs_ok self kw ∧ kw !! "count" = None ∧
                         kw !! "min_count" = None ∧ kw !! "max_count" = None ∧
                         kw !! "key_name" = None)).
    { eapply logs_bind; [apply logs_read|]. intros placement Hp. apply logs_ret.
      unfold create_kwargs_ok. rewrite Hity, Hd. kw_lookup.
      split_and!; try done.
      - by left.
      - intros v. destruct (truthy placement) eqn:Ht; [|done].
        intros [= <-]. by exists placement. }
    destruct subnet as [i|]; [|exact Hplace].
    destruct (negb (String.eqb i "")); [|exact Hplace].
    apply logs_ret. unfold create_kwargs_ok. rewrite Hity, Hd. kw_lookup.
    split_and!; try done.
    - by right.
    - intros _. by apply Hsub. }
  intros kw (Hok & Hc & Hmin & Hmax & Hkey).
  eapply logs_bind; [apply logs_read|]. intros key _.
  eapply logs_bind; [apply logs_read|]. intros instance_profile _.
  eapply logs_bind; [apply logs_read|]. intros user_data_b64 _.
  apply logs_ret. destruct Hok as (H1 & H2 & H3 & H4 & H5).
  unfold create_kwargs_ok.
  destruct security_group_ids as [[|g l]|], mapping as [m|]; kw_lookup; done.
Qed.

Lemma plan_kwargs self P :
  (∀ c, is_lookup c = true → P c) →
  logs (plan py_ne cloud self) P
    (fun planned => create_kwargs_ok self planned.2 ∧ planned.2 !! "count" = None ∧
                    planned.2 !! "min_count" = None ∧ planned.2 !! "max_count" = None).
Proof.
  intros HP. unfold plan.
  apply logs_seq.
  { eapply logs_weaken; [apply (connect_logs cloud self P (fun _ => True)); done|done..]. }
  intros conn.
  apply logs_seq; [apply logs_getattr; intros; exact I|intros image_name].
  apply logs_seq.
  { unfold _lookup_ami_id. repeat logs_step; by apply HP. }
  intros image.
  eapply logs_bind; [by apply find_subnet_id_configured|]. intros subnet Hsub.
  apply logs_seq; [apply logs_getattr; intros; exact I|intros instance_type].
  apply logs_seq; [apply logs_getattr; intros; exact I|intros root_volume_size].
  apply logs_seq; [apply logs_lift; intros; exact I|intros mapping].
  apply logs_seq; [apply logs_getattr; intros; exact I|intros security_groups].
  apply logs_seq.
  { unfold _lookup_security_group_ids. repeat logs_step; by apply HP. }
  intros security_group_ids.
  eapply logs_bind; [by apply make_create_kwargs_ok|]. intros kw Hkw.
  by apply logs_ret.
Qed.

Lemma finalize_calls self conn ids :
  logs (finalize cloud self conn ids)
    (fun c => method_name c ∈ ["create_tags"; "register_instances"; "get_all_instances"])
    (fun _ => True).
Proof.
  unfold finalize. destruct ids as [|i ids]; [by apply logs_ret|].
  repeat first
    [ apply logs_for_each; intros ?
    | apply logs_request; [by repeat constructor|intros; exact I]
    | logs_step ].
Qed.

Lemma wait_spot_polls fuel ec2 rid P :
  P (Sleep 5) → P (GetAllSpotInstanceRequests rid) →
  logs (wait_spot cloud fuel ec2 rid) P (fun _ => True).
Proof.
  intros Hs Hp. induction fuel as [|fuel IH]; simpl; [apply logs_diverge|].
  apply logs_seq; [apply logs_request; [done|intros; exact I]|intros ?].
  apply logs_seq;
    [apply logs_method, logs_request; [done|intros; exact I]|intros found].
  destruct found as [|spot ?]; [apply logs_raise|].
  destruct (String.eqb (state spot) "open"); [done|by apply logs_ret].
Qed.

Lemma collect_spot_polls fuel ec2 rids ids P :
  P (Sleep 5) → (∀ rid, P (GetAllSpotInstanceRequests rid)) →
  logs (collect_spot cloud fuel ec2 rids ids) P (fun _ => True).
Proof.
  intros Hs Hp. revert ids. induction rids as [|rid rids IH]; intros ids; simpl.
  - by apply logs_ret.
  - apply logs_seq; [by apply wait_spot_polls|intros spot].
    destruct (negb _); apply IH.
Qed.

Lemma create_kwargs_ok_other self kw kw' :
  create_kwargs_ok self kw →
  kw' !! "instance_type" = kw !! "instance_type" →
  kw' !! "dry_run" = kw !! "dry_run" →
  kw' !! "subnet_id" = kw !! "subnet_id" →
  kw' !! "placement" = kw !! "placement" →
  create_kwargs_ok self kw'.
Proof. unfold create_kwargs_ok. by intros ? -> -> -> ->. Qed.

Lemma create_instances_ok fuel self conn image kw :
  create_kwargs_ok self kw → kw !! "count" = None →
  kw !! "min_count" = None → kw !! "max_count" = None →
  logs (create_instances prices cloud fuel self conn image kw) (creation_ok self)
    (fun _ => True).
Proof.
  intros Hok Hc Hmin Hmax. unfold create_instances.
  apply logs_seq; [apply logs_getattr; intros; exact I|intros spot].
  destruct (truthy spot).
  - unfold create_spot.
    apply logs_seq; [apply logs_getattr; intros; exact I|intros count]. cbv zeta.
    apply logs_seq; [apply logs_getattr; intros; exact I|intros instance_type].
    apply logs_seq; [destruct (ec2 conn); [by apply logs_ret|apply logs_raise]|intros region].
    apply logs_seq; [apply logs_lift; intros; exact I|intros listed].
    apply logs_seq; [apply logs_getattr; intros; exact I|intros configured].
    apply logs_seq.
    + apply logs_method, logs_request; [|intros; exact I]. simpl. split_and!.
      * apply (create_kwargs_ok_other self kw); [done|by kw_lookup..].
      * by kw_lookup.
      * by kw_lookup.
    + intros result. by apply collect_spot_polls.
  - unfold create_on_demand.
    apply logs_seq; [apply logs_getattr; intros; exact I|intros count]. cbv zeta.
    apply logs_seq; [|intros result; by apply logs_ret].
    apply logs_method, logs_request; [|intros; exact I]. simpl. split_and!.
    + apply (create_kwargs_ok_other self kw); [done|by kw_lookup..].
    + kw_lookup. destruct (truthy count); [done|]. by rewrite Hmin, Hmax.
    + by kw_lookup.
Qed.

End CreateKwargs.

(** X15.  The creation requests of a launch: the keyword arguments of every
    [run_instances] and [request_spot_instances] call carry the instance
    type and the dry-run flag of the session; a subnet id only when a subnet
    is configured, a placement only when it is the configured one, and never
    both; [run_instances] gets [min_count] and [max_count] together and no
    [count], and [request_spot_instances] gets neither [min_count] nor
    [max_count]. *)
Theorem creation_requests_are_well_formed (py_ne : json → json → bool)
  (prices : gmap (string * string) float) {W} (cloud : Cloud W)
  (fuel : nat) (self : Session) :
  logs (launch py_ne prices cloud fuel self) (creation_ok self) (fun _ => True).
Proof.
  unfold launch.
  eapply logs_bind; [apply plan_kwargs; by intros []|].
  intros [[conn image] kw] (Hok & Hc & Hmin & Hmax). simpl in *.
  apply logs_seq; [by apply create_instances_ok|intros ids].
  eapply logs_weaken; [apply finalize_calls| |done].
  intros [] Hc'; try done; simpl in Hc';
    by repeat (apply elem_of_cons in Hc' as [?|Hc']; [done|]); apply elem_of_nil in Hc'.
Qed.

Lemma creation_requests_are_well_formed_witness :
  Forall (creation_ok dry_session)
    (launch ne_sizes one_price on_demand_cloud 1 dry_session (∅, [])).1.2.
Proof.
  destruct (creation_requests_are_well_formed ne_sizes one_price on_demand_cloud 1
              dry_session (∅, [])) as (ext & E & F & _).
  rewrite E. exact F.
Defined.

(** A goal or a hypothesis on the name of the method of a given call. *)
Ltac method_names :=
  first
    [ apply (bool_decide_unpack _); vm_compute; exact I
    | exfalso;
      match goal with
      | H : _ ∈ _ |- _ => apply (bool_decide_pack _) in H; vm_compute in H; exact H
      end ].

(** X16.  The two ways of creating instances exclude each other.  When
    [spot] is set, the launch never calls [run_instances]; when it is not,
    the launch makes no spot request, never sleeps and never polls, so that
    it does not depend on how long the polls are allowed to go on. *)
Theorem creation_paths_are_exclusive (py_ne : json → json → bool)
  (prices : gmap (string * string) float) {W} (cloud : Cloud W)
  (fuel : nat) (self : Session) (spot : json) :
  attrs self !! "spot" = Some spot →
  logs (launch py_ne prices cloud fuel self)
    (fun c => if truthy spot then method_name c ≠ "run_instances"
              else method_name c ∉ ["request_spot_instances"; "sleep";
                                    "get_all_spot_instance_requests"])
    (fun _ => True) ∧
  (truthy spot = false →
   ∀ fuel' st,
     launch py_ne prices cloud fuel' self st = launch py_ne prices cloud fuel self st).
Proof.
  intros Hspot. split.
  - apply (launch_logs py_ne prices cloud fuel self _ (fun _ => True)).
    + intros c Hc. destruct (truthy spot), c; try done; method_names.
    + done.
    + intros conn image kw _. apply logs_seq.
      * unfold create_instances.
        eapply logs_bind; [apply logs_read|]. intros v Hv.
        assert (v = spot) as -> by congruence.
        destruct (truthy spot).
        -- unfold create_spot. cbv zeta.
           repeat first [ by apply collect_spot_polls | logs_step ].
        -- unfold create_on_demand. cbv zeta.
           repeat first
             [ apply logs_request; [method_names|intros; exact I] | logs_step ].
      * intros ids. eapply logs_weaken; [apply finalize_calls| |done].
        intros c Hc. destruct (truthy spot), c; try done; method_names.
  - intros Ht fuel' st. unfold launch, bind.
    destruct (plan py_ne cloud self st) as [st1 [[[conn image] kw]| |]]; [|done..].
    unfold create_instances, bind, getattr, lift. rewrite Hspot. simpl. by rewrite Ht.
Qed.

Lemma creation_paths_are_exclusive_witness :
  Forall (fun c => method_name c ∉ ["request_spot_instances"; "sleep";
                                    "get_all_spot_instance_requests"])
    (launch ne_sizes one_price on_demand_cloud 0 dry_session (∅, [])).1.2 ∧
  Forall (fun c => method_name c ≠ "run_instances")
    (launch ne_sizes one_price (spot_cloud cancelled_then_active) 2 spot_session
       (∅, [])).1.2.
Proof.
  split.
  - destruct (creation_paths_are_exclusive ne_sizes one_price on_demand_cloud 0
                dry_session (JBool false)) as [L _]; [reflexivity|].
    destruct (L (∅, [])) as (ext & E & F & _). rewrite E. exact F.
  - destruct (creation_paths_are_exclusive ne_sizes one_price
                (spot_cloud cancelled_then_active) 2 spot_session (JBool true))
      as [L _]; [reflexivity|].
    destruct (L (∅, [])) as (ext & E & F & _). rewrite E. exact F.
Defined.

(** X17.  The polling has no time limit.  When the provider keeps answering
    that a spot request is [open], waiting for that request never ends:
    however many polls are allowed, all of them are made, a pause of five
    seconds before each, and no answer is produced; a batch of requests is
    then never handled beyond that request. *)
Theorem open_request_is_polled_forever {W} (cloud : Cloud W) (region rid : string) :
  (∀ w, ∃ w', sleep cloud 5 w = (w', Ret tt)) →
  (∀ w, ∃ w' spot rest,
     get_all_spot_instance_requests cloud rid w = (w', Ret (spot :: rest)) ∧
     state spot = "open") →
  ∀ (fuel : nat) st,
    (wait_spot cloud fuel (Some region) rid st).2 = Diverge ∧
    (wait_spot cloud fuel (Some region) rid st).1.2 = st.2 ++ poll_calls fuel rid ∧
    ∀ rids ids,
      (collect_spot cloud fuel (Some region) (rid :: rids) ids st).2 = Diverge.
Proof.
  intros Hsleep Hopen fuel.
  assert (Hwait : ∀ st,
            (wait_spot cloud fuel (Some region) rid st).2 = Diverge ∧
            (wait_spot cloud fuel (Some region) rid st).1.2
            = st.2 ++ poll_calls fuel rid).
  { induction fuel as [|fuel IH]; intros [w tr]; simpl.
    - by rewrite app_nil_r.
    - unfold bind, request, method. simpl.
      destruct (Hsleep w) as [w1 ->]. simpl.
      destruct (Hopen w1) as (w2 & spot & rest & -> & Hstate). simpl.
      rewrite Hstate. simpl.
      destruct (IH (w2, (tr ++ [Sleep 5]) ++ [GetAllSpotInstanceRequests rid]))
        as [-> ->].
      split; [done|]. simpl. by rewrite <- !(assoc_L (++)). }
  intros st. destruct (Hwait st) as [Hd Htr]. split_and!; [done..|].
  intros rids ids. simpl. unfold bind.
  destruct (wait_spot cloud fuel (Some region) rid st) as [st' r]. simpl in Hd.
  by rewrite Hd.
Qed.

Lemma open_request_is_polled_forever_witness :
  (wait_spot (spot_cloud always_open) 3 (Some "us-east-1") "sir-1" (∅, [])).2 = Diverge ∧
  (wait_spot (spot_cloud always_open) 3 (Some "us-east-1") "sir-1" (∅, [])).1.2
  = poll_calls 3 "sir-1".
Proof.
  destruct (open_request_is_polled_forever (spot_cloud always_open) "us-east-1" "sir-1")
    with (fuel := 3%nat) (st := ((∅ : gmap string nat), ([] : list call)))
    as (Hd & Htr & _).
  - intros w. by eexists.
  - intros w. by eexists _, _, _.
  - split; [exact Hd|exact Htr].
Defined.

(** * What follows the creation *)

(** What follows the creation, with a provider whose requests succeed. *)
Lemma finalize_succeeds {W} (cloud : Cloud W) (self : Session)
  (conn : _Connections) (ids : list string) (name tags dry_run load_balancers : json)
  (balancers : list json) (region elb_region : string) :
  ids ≠ [] →
  attrs self !! "name" = Some name →
  attrs self !! "tags" = Some tags →
  attrs self !! "dry_run" = Some dry_run →
  attrs self !! "load_balancers" = Some load_balancers →
  ec2 conn = Some region → elb conn = Some elb_region →
  balancers_of dry_run load_balancers = Ret balancers →
  (∀ i t d w, ∃ w', create_tags cloud i t d w = (w', Ret tt)) →
  (∀ lb i w, ∃ w', register_instances cloud lb i w = (w', Ret tt)) →
  (∀ i w, ∃ w' reservations, get_all_instances cloud i w = (w', Ret reservations)) →
  succeeds (finalize cloud self conn ids)
    (finalize_calls_of ids name tags dry_run balancers)
    (fun r => r.1 = conn ∧
              ∃ w w' reservations,
                get_all_instances cloud ids w = (w', Ret reservations) ∧
                r.2 = concat reservations).
Proof.
  intros Hids Hname Htags Hdry Hlbs Hec2 Helb Hbal Htag Hreg Hget.
  unfold finalize, finalize_calls_of. destruct ids as [|i ids]; [done|].
  set (all := i :: ids) in *. clearbody all. rewrite Hec2, Helb. unfold method.
  assert (Htagging : ∀ t,
            succeeds (let! dry_run := getattr self "dry_run" in
                      request (CreateTags all t dry_run) (create_tags cloud all t dry_run))
              [CreateTags all t dry_run] (fun _ => True)).
  { intros t. apply (succeeds_bind _ _ [] [CreateTags all t dry_run] (fun a => a = dry_run)).
    - by apply succeeds_getattr.
    - intros ? ->. apply succeeds_request. intros w.
      destruct (Htag all t dry_run w) as [w' ->]. by exists w', tt. }
  apply (succeeds_bind _ _ [] _ (fun a => a = name)); [by apply succeeds_getattr|].
  intros ? ->.
  apply (succeeds_bind _ _ _ _ (fun _ => True)).
  { destruct (truthy name); [apply Htagging|by apply succeeds_ret]. }
  intros _ _.
  apply (succeeds_bind _ _ [] _ (fun a => a = tags)); [by apply succeeds_getattr|].
  intros ? ->.
  apply (succeeds_bind _ _ _ _ (fun _ => True)).
  { destruct (truthy tags); [apply Htagging|by apply succeeds_ret]. }
  intros _ _.
  apply (succeeds_bind _ _ [] _ (fun a => a = dry_run)); [by apply succeeds_getattr|].
  intros ? ->.
  apply (succeeds_bind _ _ _ _ (fun _ => True)).
  { unfold balancers_of in Hbal. destruct (truthy dry_run); simpl in *.
    - injection Hbal as <-. by apply succeeds_ret.
    - apply (succeeds_bind _ _ [] _ (fun a => a = load_balancers));
        [by apply succeeds_getattr|].
      intros ? ->. destruct (truthy load_balancers).
      + apply (succeeds_bind _ _ [] _ (fun a => a = balancers));
          [by apply (succeeds_lift _ balancers)|].
        intros ? ->. apply succeeds_for_each. intros lb. apply succeeds_request.
        intros w. destruct (Hreg lb all w) as [w' ->]. by exists w', tt.
      + injection Hbal as <-. by apply succeeds_ret. }
  intros _ _.
  rewrite <- (app_nil_r [GetAllInstances all]).
  apply (succeeds_bind _ _ _ _
           (fun reservations => ∃ w w', get_all_instances cloud all w
                                        = (w', Ret reservations))).
  { apply succeeds_request. intros w. destruct (Hget all w) as (w' & rs & E).
    exists w', rs. split; [done|by exists w, w']. }
  intros rs (w & w' & E). apply succeeds_ret. split; [done|]. by exists w, w', rs.
Qed.

(** X18.  What follows the creation, with a provider whose requests
    succeed: for the created instances, the [Name] tag when a name is
    configured, then the tags when tags are configured, then, unless the
    launch is a dry run, one registration of all the instances with every
    configured load balancer, in the order of the session, and at last the
    lookup of the instances, whose answer is returned with the
    connections. *)
Theorem finalize_tags_registers_then_reads {W} (cloud : Cloud W) (self : Session)
  (conn : _Connections) (ids : list string) (name tags dry_run load_balancers : json)
  (balancers : list json) (region elb_region : string) :
  ids ≠ [] →
  attrs self !! "name" = Some name →
  attrs self !! "tags" = Some tags →
  attrs self !! "dry_run" = Some dry_run →
  attrs self !! "load_balancers" = Some load_balancers →
  ec2 conn = Some region → elb conn = Some elb_region →
  balancers_of dry_run load_balancers = Ret balancers →
  (∀ i t d w, ∃ w', create_tags cloud i t d w = (w', Ret tt)) →
  (∀ lb i w, ∃ w', register_instances cloud lb i w = (w', Ret tt)) →
  (∀ i w, ∃ w' reservations, get_all_instances cloud i w = (w', Ret reservations)) →
  succeeds (finalize cloud self conn ids)
    (finalize_calls_of ids name tags dry_run balancers)
    (fun r => r.1 = conn ∧
              ∃ w w' reservations,
                get_all_instances cloud ids w = (w', Ret reservations) ∧
                r.2 = concat reservations).
Proof. apply finalize_succeeds. Qed.

(** The instance [i-7] of the session with two load balancers: two tagging
    requests, two registrations, and the lookup. *)
Lemma finalize_tags_registers_then_reads_witness :
  (finalize on_demand_cloud web_session us_east_1 ["i-7"] (∅, [])).1.2
  = [ CreateTags ["i-7"] (JDict [("Name", JStr "web")]) (JBool false);
      CreateTags ["i-7"] (JDict [("team", JStr "ops")]) (JBool false);
      RegisterInstances (JStr "lb-1") ["i-7"];
      RegisterInstances (JStr "lb-2") ["i-7"];
      GetAllInstances ["i-7"] ].
Proof.
  assert (L : succeeds (finalize on_demand_cloud web_session us_east_1 ["i-7"])
                (finalize_calls_of ["i-7"] (JStr "web") (JDict [("team", JStr "ops")])
                   (JBool false) [JStr "lb-1"; JStr "lb-2"])
                (fun r => r.1 = us_east_1 ∧
                          ∃ w w' reservations,
                            get_all_instances on_demand_cloud ["i-7"] w
                            = (w', Ret reservations) ∧
                            r.2 = concat reservations)).
  { apply (finalize_tags_registers_then_reads on_demand_cloud web_session us_east_1
             ["i-7"] (JStr "web") (JDict [("team", JStr "ops")]) (JBool false)
             (JList [JStr "lb-1"; JStr "lb-2"]) [JStr "lb-1"; JStr "lb-2"]
             "us-east-1" "us-east-1").
    - discriminate.
    - reflexivity.
    - reflexivity.
    - reflexivity.
    - reflexivity.
    - reflexivity.
    - reflexivity.
    - reflexivity.
    - intros i t d w. by eexists.
    - intros lb i w. by eexists.
    - intros i w. by eexists _, _. }
  destruct (L (∅, [])) as (w' & a & E & _). rewrite E. reflexivity.
Defined.

Lemma succeeds_raises {W A B} (m : M (W * list call) A) (k : A → M (W * list call) B)
  (ext : list call) (Q : A → Prop) (e : exn) :
  succeeds m ext Q → (∀ a, Q a → ∀ st, k a st = (st, Raise e)) →
  ∀ st, ∃ w', bind m k st = ((w', st.2 ++ ext), Raise e).
Proof.
  intros Hm Hk st. destruct (Hm st) as (w' & a & E & Ha). exists w'.
  unfold bind. rewrite E. by apply Hk.
Qed.

(** X19.  A region the provider does not know.  [connect_to_region] answers
    [None] for such a region and raises nothing, so the launch goes on: the
    four connections are all asked for, and the launch fails at its next
    step, the image lookup, with the error of a method read on [None]; no
    other request is made. *)
Theorem unknown_region_fails_at_the_image_lookup (py_ne : json → json → bool)
  (prices : gmap (string * string) float) {W} (cloud : Cloud W)
  (fuel : nat) (self : Session) (region profile image : json) :
  attrs self !! "region" = Some region →
  attrs self !! "profile" = Some profile →
  attrs self !! "image" = Some image →
  (∀ w, ∃ w', connect_to_region cloud "ec2" region profile w = (w', Ret None)) →
  (∀ service w, ∃ w' c, connect_to_region cloud service region profile w = (w', Ret c)) →
  ∀ st, ∃ w',
    launch py_ne prices cloud fuel self st
    = ((w', st.2 ++ [ ConnectToRegion "ec2" region profile;
                      ConnectToRegion "s3" region profile;
                      ConnectToRegion "vpc" region profile;
                      ConnectToRegion "elb" region profile ]),
       Raise (AttributeError "get_all_images")).
Proof.
  intros Hregion Hprofile Himage Hec2 Hany st.
  assert (Hconnect : succeeds (connect cloud self)
                       [ ConnectToRegion "ec2" region profile;
                         ConnectToRegion "s3" region profile;
                         ConnectToRegion "vpc" region profile;
                         ConnectToRegion "elb" region profile ]
                       (fun conn => ec2 conn = None)).
  { unfold connect.
    apply (succeeds_bind _ _ [] _ (fun a => a = region)); [by apply succeeds_getattr|].
    intros ? ->.
    apply (succeeds_bind _ _ [] _ (fun a => a = profile)); [by apply succeeds_getattr|].
    intros ? ->.
    apply (succeeds_bind _ _ [_] _ (fun c => c = None)).
    { apply succeeds_request. intros w. destruct (Hec2 w) as [w' ->]. by exists w', None. }
    intros ? ->.
    do 3 (apply (succeeds_bind _ _ [_] _ (fun _ => True));
          [apply succeeds_request; intros w;
           match goal with
           | |- ∃ _ _, connect_to_region _ ?s _ _ _ = _ ∧ _ =>
               destruct (Hany s w) as (w' & c & ->); by exists w', c
           end
          |intros ? _]).
    by apply succeeds_ret. }
  assert (Hplan : ∃ w', plan py_ne cloud self st
                        = ((w', st.2 ++ [ ConnectToRegion "ec2" region profile;
                                          ConnectToRegion "s3" region profile;
                                          ConnectToRegion "vpc" region profile;
                                          ConnectToRegion "elb" region profile ]),
                           Raise (AttributeError "get_all_images"))).
  { unfold plan. eapply succeeds_raises; [exact Hconnect|].
    intros conn Hnone st1. unfold bind, getattr, lift. rewrite Himage. simpl.
    unfold _lookup_ami_id, bind, method. by rewrite Hnone. }
  destruct Hplan as [w' Hplan]. exists w'. unfold launch, bind. by rewrite Hplan.
Qed.

Lemma unknown_region_fails_at_the_image_lookup_witness :
  launch ne_sizes one_price no_region_cloud 1 spot_session (∅, [])
  = ((∅, [ ConnectToRegion "ec2" (JStr "us-east-1") JNull;
           ConnectToRegion "s3" (JStr "us-east-1") JNull;
           ConnectToRegion "vpc" (JStr "us-east-1") JNull;
           ConnectToRegion "elb" (JStr "us-east-1") JNull ]),
     Raise (AttributeError "get_all_images")).
Proof.
  destruct (unknown_region_fails_at_the_image_lookup ne_sizes one_price no_region_cloud
              1 spot_session (JStr "us-east-1") JNull (JStr "amzn"))
    with (st := ((∅ : gmap string nat), ([] : list call))) as [w' E].
  - reflexivity.
  - reflexivity.
  - reflexivity.
  - intros w. by eexists.
  - intros service w. by eexists _, _.
  - rewrite E. f_equal. f_equal.
    assert (H : (launch ne_sizes one_price no_region_cloud 1 spot_session (∅, [])).1.1
                = w') by (by rewrite E).
    rewrite <- H. vm_compute. reflexivity.
Defined.

Section Returns.

Context {W : Type}.

Lemma succeeds_returns {A} (m : M (W * list call) A) ext (Q : A → Prop) :
  succeeds m ext Q → returns m Q.
Proof. intros H st. destruct (H st) as (w' & a & E & Ha). by eexists _, a. Qed.






End Returns.


Section OnDemand.

Context (py_ne : json → json → bool) (prices : gmap (string * string) float).
Context {W : Type} (cloud : Cloud W).





End OnDemand.



(** * The table of prices *)

Lemma append_cons (c : Ascii.ascii) (a b : string) :
  String c a +:+ b = String c (a +:+ b).
Proof. reflexivity. Qed.

Lemma append_nil (b : string) : "" +:+ b = b.
Proof. reflexivity. Qed.

Lemma plain_cons c field :
  plain (String c field) = true →
  Ascii.eqb c tab = false ∧ Ascii.eqb c newline = false ∧ plain field = true.
Proof.
  simpl. destruct (Ascii.eqb c tab), (Ascii.eqb c newline), (plain field); done.
Qed.

Lemma append_assoc (a b c : string) : (a +:+ b) +:+ c = a +:+ (b +:+ c).
Proof. induction a as [|x a IH]; [done|]. by rewrite !append_cons, IH. Qed.

Lemma append_empty (s : string) : s +:+ "" = s.
Proof. induction s as [|x s IH]; [done|]. by rewrite append_cons, IH. Qed.

Lemma plain_one_line field : plain field = true → one_line field = true.
Proof.
  induction field as [|c field IH]; [done|]. intros Hp.
  apply plain_cons in Hp as (_ & Hn & Hp). simpl. by rewrite Hn, IH.
Qed.

Lemma one_line_append a b :
  one_line a = true → one_line b = true → one_line (a +:+ b) = true.
Proof.
  intros Ha Hb. induction a as [|c a IH]; [done|]. rewrite append_cons. simpl in *.
  destruct (Ascii.eqb c newline); [done|]. by apply IH.
Qed.

(** The first line of a text. *)
Lemma readlines_first body rest :
  one_line body = true →
  readlines (body +:+ String newline rest)
  = (body +:+ String newline "") :: readlines rest.
Proof.
  induction body as [|c body IH]; intros Hp.
  - rewrite !append_nil. reflexivity.
  - simpl in Hp. destruct (Ascii.eqb c newline) eqn:Hn; [done|].
    rewrite !append_cons. cbn [readlines]. rewrite Hn, (IH Hp). reflexivity.
Qed.

Lemma readlines_price_line instance_type region price rest :
  plain instance_type = true → plain region = true → plain price = true →
  readlines (price_line instance_type region price +:+ rest)
  = price_line instance_type region price :: readlines rest.
Proof.
  intros H1 H2 H3. unfold price_line.
  assert (E : ∀ r,
            instance_type +:+ String tab (region +:+ String tab (price +:+ String newline r))
            = (instance_type +:+ String tab (region +:+ String tab price))
              +:+ String newline r).
  { intros r. by rewrite !append_assoc, !append_cons, !append_assoc, !append_cons. }
  rewrite append_assoc, append_cons, append_assoc, append_cons, append_assoc,
    append_cons, append_nil.
  rewrite (E rest), (E ""). apply readlines_first.
  apply one_line_append; [by apply plain_one_line|]. simpl.
  apply one_line_append; [by apply plain_one_line|]. simpl.
  by apply plain_one_line.
Qed.

Lemma last_char_field (field : string) (c : Ascii.ascii) :
  last_char (field +:+ String c "") = Some c ∧
  without_last (field +:+ String c "") = field.
Proof.
  induction field as [|x field [IH1 IH2]]; [done|]. rewrite append_cons.
  destruct (field +:+ String c "") as [|y s] eqn:E.
  - by destruct field.
  - change (last_char (String x (String y s))) with (last_char (String y s)).
    change (without_last (String x (String y s)))
      with (String x (without_last (String y s))).
    by rewrite IH1, IH2.
Qed.

Lemma last_char_append (a b : string) :
  b ≠ "" → last_char (a +:+ b) = last_char b ∧
  without_last (a +:+ b) = a +:+ without_last b.
Proof.
  intros Hb. induction a as [|x a [IH1 IH2]]; [done|]. rewrite !append_cons.
  destruct (a +:+ b) as [|y s] eqn:E.
  - destruct a; [by rewrite append_nil in E|done].
  - change (last_char (String x (String y s))) with (last_char (String y s)).
    change (without_last (String x (String y s)))
      with (String x (without_last (String y s))).
    by rewrite IH1, IH2.
Qed.

Lemma split_tab_plain field : plain field = true → split_tab field = [field].
Proof.
  induction field as [|c field IH]; [done|]. intros Hp.
  apply plain_cons in Hp as (Ht & _ & Hp). simpl. by rewrite Ht, (IH Hp).
Qed.

Lemma split_tab_field field rest :
  plain field = true →
  split_tab (field +:+ String tab rest) = field :: split_tab rest.
Proof.
  induction field as [|c field IH]; intros Hp.
  - rewrite append_nil. reflexivity.
  - apply plain_cons in Hp as (Ht & _ & Hp). rewrite append_cons. simpl.
    by rewrite Ht, (IH Hp).
Qed.

Lemma add_price_line float_of_string table instance_type region price :
  plain instance_type = true → plain region = true → plain price = true →
  add_price float_of_string table (price_line instance_type region price)
  = match float_of_string price with
    | Some p => inr (<[(instance_type, region) := p]> table)
    | None => inl (ValueError_float price)
    end.
Proof.
  intros H1 H2 H3. unfold add_price, price_line.
  destruct (last_char_append instance_type
              (String tab (region +:+ String tab (price +:+ String newline ""))))
    as [-> ->]; [done|].
  destruct (last_char_append (String tab region)
              (String tab (price +:+ String newline ""))) as [E1 E2]; [done|].
  rewrite !append_cons in E1, E2. rewrite E1, E2. clear E1 E2.
  destruct (last_char_append (String tab price) (String newline "")) as [E1 E2]; [done|].
  rewrite !append_cons in E1, E2. rewrite E1, E2. clear E1 E2.
  cbn [last_char without_last]. rewrite Ascii.eqb_refl.
  rewrite append_empty, !append_cons.
  rewrite split_tab_field, split_tab_field, split_tab_plain by done.
  reflexivity.
Qed.

Lemma add_prices_app float_of_string l1 l2 table :
  add_prices float_of_string (l1 ++ l2) table
  = match add_prices float_of_string l1 table with
    | inr table' => add_prices float_of_string l2 table'
    | inl e => inl e
    end.
Proof.
  revert table. induction l1 as [|line l1 IH]; intros table; simpl; [done|].
  by destruct (add_price float_of_string table line).
Qed.

Lemma readlines_price_text entries rest :
  Forall (fun e : string * string * string =>
            plain e.1.1 = true ∧ plain e.1.2 = true ∧ plain e.2 = true) entries →
  readlines (price_text entries +:+ rest)
  = map (fun e : string * string * string => price_line e.1.1 e.1.2 e.2) entries
    ++ readlines rest.
Proof.
  induction 1 as [|[[i r] p] entries (H1 & H2 & H3) _ IH]; simpl; [done|].
  by rewrite append_assoc, readlines_price_line, IH.
Qed.

(** The table after the lines of well-formed entries. *)
Lemma add_prices_entries float_of_string entries table :
  Forall (well_formed float_of_string) entries →
  ∃ table',
    add_prices float_of_string
      (map (fun e : string * string * string => price_line e.1.1 e.1.2 e.2) entries) table
    = inr table' ∧
    ∀ instance_type region,
      table' !! (instance_type, region)
      = match listed_price entries instance_type region with
        | Some price => float_of_string price
        | None => table !! (instance_type, region)
        end.
Proof.
  intros H. revert table.
  induction H as [|[[i r] p] entries (H1 & H2 & H3 & [x Hx]) _ IH]; intros table.
  - by exists table.
  - simpl in *. rewrite add_price_line, Hx by done.
    destruct (IH (<[(i, r) := x]> table)) as (table' & -> & Hl). exists table'.
    split; [done|]. intros ity region. rewrite Hl.
    destruct (listed_price entries ity region); [done|].
    destruct (decide (i = ity ∧ r = region)) as [[-> ->]|Hne].
    + by rewrite lookup_insert_eq.
    + rewrite lookup_insert_ne; [done|]. intros [= -> ->]. by apply Hne.
Qed.

Lemma well_formed_plain float_of_string entries :
  Forall (well_formed float_of_string) entries →
  Forall (fun e : string * string * string =>
            plain e.1.1 = true ∧ plain e.1.2 = true ∧ plain e.2 = true) entries.
Proof. intros H. eapply Forall_impl; [exact H|]. by intros e (? & ? & ? & _). Qed.

Lemma readlines_one_line body :
  one_line body = true → body ≠ "" → readlines body = [body].
Proof.
  induction body as [|c body IH]; [done|]. intros Hp _. simpl in *.
  destruct (Ascii.eqb c newline); [done|]. simpl in Hp.
  destruct body as [|d body]; [done|]. by rewrite IH.
Qed.

Lemma last_char_one_line body :
  one_line body = true → body ≠ "" →
  ∃ c, last_char body = Some c ∧ Ascii.eqb c newline = false.
Proof.
  induction body as [|c body IH]; [done|]. intros Hp _. simpl in Hp.
  destruct (Ascii.eqb c newline) eqn:Hn; [done|]. simpl in Hp.
  destruct body as [|d body]; [by exists c|].
  change (last_char (String c (String d body))) with (last_char (String d body)).
  by apply IH.
Qed.

(** X21.  The table of prices holds what [prices.txt] lists.  For a text of
    lines [instance_type TAB region TAB price] whose fields hold neither a
    tab nor a newline and whose prices can be read as numbers, the import
    succeeds, and the table gives, for an instance type and a region, the
    price of the last line that names them, and nothing for a pair that no
    line names; the newline at the end of the last line may be missing. *)
Theorem prices_are_the_listed_ones (float_of_string : string → option float)
  (entries : list (string * string * string)) :
  Forall (well_formed float_of_string) entries →
  (∃ table,
     load_prices float_of_string (price_text entries) = inr table ∧
     ∀ instance_type region,
       table !! (instance_type, region)
       = listed_price entries instance_type region ≫= float_of_string) ∧
  (∀ instance_type region price,
     well_formed float_of_string (instance_type, region, price) →
     load_prices float_of_string
       (price_text entries +:+ instance_type +:+ String tab (region +:+ String tab price))
     = load_prices float_of_string
         (price_text (entries ++ [(instance_type, region, price)]))).
Proof.
  intros Hwf. split.
  - unfold load_prices.
    rewrite <- (append_empty (price_text entries)).
    rewrite readlines_price_text by by eapply well_formed_plain.
    simpl. rewrite app_nil_r.
    destruct (add_prices_entries float_of_string entries ∅ Hwf) as (table & -> & Hl).
    exists table. split; [done|]. intros ity region. rewrite Hl.
    by destruct (listed_price entries ity region).
  - intros i r p (H1 & H2 & H3 & [x Hx]). simpl in *. unfold load_prices.
    rewrite <- (append_empty (price_text (entries ++ [(i, r, p)]))).
    rewrite (readlines_price_text (entries ++ [(i, r, p)]) "").
    2:{ apply (well_formed_plain float_of_string).
        apply Forall_app. split; [done|]. constructor; [|done]. split_and!; by eauto. }
    simpl. rewrite app_nil_r, map_app. simpl.
    rewrite readlines_price_text by by eapply well_formed_plain.
    set (body := i +:+ String tab (r +:+ String tab p)).
    assert (Hone : one_line body = true).
    { apply one_line_append; [by apply plain_one_line|]. simpl.
      apply one_line_append; [by apply plain_one_line|]. simpl.
      by apply plain_one_line. }
    assert (Hne : body ≠ "").
    { unfold body. destruct i; done. }
    rewrite (readlines_one_line body Hone Hne), !add_prices_app.
    destruct (add_prices float_of_string _ ∅) as [e|table]; [done|]. simpl.
    rewrite add_price_line, Hx by done.
    unfold add_price.
    destruct (last_char_one_line body Hone Hne) as (c & -> & ->).
    unfold body. rewrite split_tab_field, split_tab_field, split_tab_plain by done.
    by rewrite Hx.
Qed.

Lemma prices_are_the_listed_ones_witness :
  ∃ table,
    load_prices two_prices (price_text three_entries) = inr table ∧
    table !! ("d2.xlarge", "us-east-1") = Some 0.75%float ∧
    table !! ("d2.xlarge", "us-west-2") = Some 0.75%float ∧
    table !! ("d2.xlarge", "eu-west-1") = None.
Proof.
  destruct (prices_are_the_listed_ones two_prices three_entries)
    as [(table & E & Hl) _].
  - repeat constructor; by eexists.
  - exists table. split; [exact E|]. rewrite !Hl. split_and!; reflexivity.
Defined.

Lemma add_price_short float_of_string table line :
  one_line line = true → length (split_tab line) ≠ 3%nat →
  add_price float_of_string table (line +:+ String newline "")
  = inl (ValueError_unpack (length (split_tab line))).
Proof.
  intros Hone Hlen. unfold add_price.
  destruct (last_char_field line newline) as [-> ->]. rewrite Ascii.eqb_refl.
  by destruct (split_tab line) as [|a [|b [|c [|d l]]]].
Qed.

(** X22.  The import stops at the first line it cannot read.  After any
    number of well-formed lines, a line that has not exactly three fields (a
    blank line among them) aborts the import with the error of the
    unpacking, and a line whose price is not a number aborts it with the
    error of the conversion, whatever follows: no table is produced. *)
Theorem first_bad_price_line_aborts (float_of_string : string → option float)
  (entries : list (string * string * string)) :
  Forall (well_formed float_of_string) entries →
  (∀ line rest,
     one_line line = true → length (split_tab line) ≠ 3%nat →
     load_prices float_of_string (price_text entries +:+ line +:+ String newline rest)
     = inl (ValueError_unpack (length (split_tab line)))) ∧
  (∀ instance_type region price rest,
     plain instance_type = true → plain region = true → plain price = true →
     float_of_string price = None →
     load_prices float_of_string
       (price_text entries +:+ price_line instance_type region price +:+ rest)
     = inl (ValueError_float price)).
Proof.
  intros Hwf.
  destruct (add_prices_entries float_of_string entries ∅ Hwf) as (table & E & _).
  split.
  - intros line rest Hone Hlen. unfold load_prices.
    rewrite readlines_price_text by by eapply well_formed_plain.
    rewrite readlines_first by done.
    rewrite add_prices_app, E. simpl. by rewrite add_price_short.
  - intros i r p rest H1 H2 H3 Hp. unfold load_prices.
    rewrite readlines_price_text by by eapply well_formed_plain.
    rewrite readlines_price_line by done.
    rewrite add_prices_app, E. simpl. by rewrite add_price_line, Hp.
Qed.

(** A blank line after an entry, and a price that is not a number. *)
Lemma first_bad_price_line_aborts_witness :
  load_prices two_prices
    (price_text [("d2.xlarge", "us-east-1", "0.5")] +:+ "" +:+ String newline
       (price_line "d2.xlarge" "us-west-2" "0.75"))
  = inl (ValueError_unpack 1) ∧
  load_prices two_prices
    (price_text [("d2.xlarge", "us-east-1", "0.5")]
     +:+ price_line "d2.xlarge" "us-west-2" "n/a" +:+ "")
  = inl (ValueError_float "n/a").
Proof.
  destruct (first_bad_price_line_aborts two_prices [("d2.xlarge", "us-east-1", "0.5")])
    as [Hshort Hfloat].
  - repeat constructor; by eexists.
  - split.
    + apply (Hshort "" (price_line "d2.xlarge" "us-west-2" "0.75")).
      * reflexivity.
      * simpl. lia.
    + apply (Hfloat "d2.xlarge" "us-west-2" "n/a" ""); reflexivity.
Defined.
